(** * godatatables: the [types] package (request decoding, row codec)

    A shallow embedding of [types.go] (data model) and [encoding.go]
    (form decoder [ParseURLValues], [Row.MarshalJSON], [Row.UnmarshalJSON])
    together with the parts of the Go standard library they call
    ([strconv.Atoi], [strconv.Itoa], [regexp] on the three key patterns,
    [encoding/json] on the types used here).

    Conventions of the model
    - Go [int] is the 64-bit signed integer, carried as [Z]; the one place
      where the program can overflow ([id+1]) wraps explicitly.
    - Go strings are byte strings: [string].
    - A Go slice is [None] (the nil slice) or [Some l]: the two are written
      differently by [encoding/json] ([null] and an array).
    - A Go map is a [gmap]. The nil map and the empty map are both the
      empty [gmap]: the program reads only their length and entries, and
      writes both the same way.
    - A runtime panic (index out of range) is the outcome [Panic]. Memory
      is unbounded: [make] never fails for a non-negative length.
    - [range] over a Go map visits the entries in an unspecified order; the
      form decoder therefore takes the entries as a list, in the order of
      the visit. *)

From Stdlib Require Import ZArith String Ascii List Lia.
From Stdlib Require Import Decimal DecimalNat DecimalZ DecimalString.
From stdpp Require Import base option list gmap strings fin_maps sorting.

Set Default Proof Using "Type".

(* ================================================================== *)
(** * Outcomes: normal return or runtime panic *)
(* ================================================================== *)

Inductive outcome (A : Type) : Type :=
| Ret (a : A)
| Panic.
Arguments Ret {A} a.
Arguments Panic {A}.

Definition obind {A B} (m : outcome A) (f : A → outcome B) : outcome B :=
  match m with
  | Ret a => f a
  | Panic => Panic
  end.

Global Instance outcome_bind : MBind outcome := λ A B f m, obind m f.
Global Instance outcome_ret : MRet outcome := @Ret.

(* ================================================================== *)
(** * Byte strings *)
(* ================================================================== *)

Module Str.

Definition byte_val (c : ascii) : Z := Z.of_N (N_of_ascii c).

(** ['0' <= c && c <= '9'] *)
Definition is_digit (c : ascii) : bool :=
  (48 <=? byte_val c)%Z && (byte_val c <=? 57)%Z.

Definition digit_val (c : ascii) : Z := (byte_val c - 48)%Z.

Fixpoint all (p : ascii → bool) (s : string) : bool :=
  match s with
  | EmptyString => true
  | String c s' => p c && all p s'
  end.

(** [strings.HasPrefix(s, prefix)] *)
Definition HasPrefix (s prefix : string) : bool := String.prefix prefix s.

(** The rest of [s] after the literal [p], when [s] starts with [p]. *)
Fixpoint strip_prefix (p s : string) : option string :=
  match p, s with
  | EmptyString, _ => Some s
  | String a p', String b s' =>
      if Ascii.eqb a b then strip_prefix p' s' else None
  | String _ _, EmptyString => None
  end.

Definition eqb (a b : string) : bool := bool_decide (a = b).

End Str.

(* ================================================================== *)
(** * Errors *)
(* ================================================================== *)

(** [strconv.ErrSyntax] and [strconv.ErrRange]. *)
Inductive numerr : Type := ErrSyntax | ErrRange.

(** The error values the package returns: its own [ErrNotEnoughFields],
    a [*strconv.NumError] from [Atoi], or an error of [encoding/json]. *)
Inductive error : Type :=
| ErrNotEnoughFields
| NumError (func num : string) (err : numerr)
| UnmarshalTypeError (value type : string).

Global Instance numerr_eq_dec : EqDecision numerr.
Proof. solve_decision. Defined.
Global Instance error_eq_dec : EqDecision error.
Proof. solve_decision. Defined.

(* ================================================================== *)
(** * strconv *)
(* ================================================================== *)

Module strconv.

Definition intSize : Z := 64.
Definition maxUint64 : Z := 2 ^ 64 - 1.
Definition MaxInt : Z := 2 ^ 63 - 1.
Definition MinInt : Z := - 2 ^ 63.

(** Signed wrap-around of the 64-bit [int]. *)
Definition wrap (z : Z) : Z := ((z + 2 ^ 63) mod 2 ^ 64 - 2 ^ 63)%Z.

(** The digit loop of [ParseUint(s, 10, 64)]: [cutoff] is
    [maxUint64/10 + 1]; a byte that is no decimal digit is a syntax
    error, an overflow a range error (with value [maxVal]). *)
Fixpoint ParseUint_loop (s : string) (n : Z) : Z * option numerr :=
  match s with
  | EmptyString => (n, None)
  | String c s' =>
      if Str.is_digit c then
        if (maxUint64 / 10 + 1 <=? n)%Z then (maxUint64, Some ErrRange)
        else
          let n10 := (n * 10)%Z in
          let n1 := ((n10 + Str.digit_val c) mod 2 ^ 64)%Z in
          if (n1 <? n10)%Z || (maxUint64 <? n1)%Z
          then (maxUint64, Some ErrRange)
          else ParseUint_loop s' n1
      else (0%Z, Some ErrSyntax)
  end.

Definition ParseUint (s : string) : Z * option numerr :=
  match s with
  | EmptyString => (0%Z, Some ErrSyntax)
  | _ => ParseUint_loop s 0
  end.

(** [ParseInt(s, 10, 0)]: optional sign, then [ParseUint]; the range
    check against [cutoff = 1 << 63]. *)
Definition ParseInt (s : string) : Z * option numerr :=
  match s with
  | EmptyString => (0%Z, Some ErrSyntax)
  | String c s' =>
      let neg := Ascii.eqb c "-" in
      let body := if Ascii.eqb c "+" || neg then s' else s in
      match ParseUint body with
      | (_, Some ErrSyntax) => (0%Z, Some ErrSyntax)
      | (un, _) =>
          let cutoff := (2 ^ 63)%Z in
          if negb neg && (cutoff <=? un)%Z then ((cutoff - 1)%Z, Some ErrRange)
          else if neg && (cutoff <? un)%Z then ((- cutoff)%Z, Some ErrRange)
          else ((if neg then - un else un)%Z, None)
      end
  end.

(** [strconv.Atoi]: the value and the error, as Go returns them. (Its
    fast path for short strings computes what [ParseInt] computes.) *)
Definition Atoi (s : string) : Z * option error :=
  match ParseInt s with
  | (n, None) => (n, None)
  | (n, Some e) => (n, Some (NumError "Atoi" s e))
  end.

(** [strconv.Itoa]: the decimal rendering, ["-"] before a negative
    number, no leading zero. *)
Definition Itoa (i : Z) : string := NilZero.string_of_int (Z.to_int i).

End strconv.

(* ================================================================== *)
(** * regexp: the anchored, ungreedy patterns of the package *)
(* ================================================================== *)

(** All three patterns have the shape [(?U)^ ... $]: a sequence of
    literals and capture groups, one or more (or zero or more)
    characters of a class. Under the flag [U] the quantifiers prefer the shortest
    repetition; the engine is leftmost-first, so a group is extended by
    one character only when the rest of the pattern fails behind it. *)

Module regexp.

Inductive item : Type :=
| Lit (s : string)                        (* literal text *)
| Cap (c : ascii → bool) (min : nat).     (* ( c{min,} ), ungreedy *)

Definition Regexp : Type := list item.

(** [[0-9]] *)
Definition digit : ascii → bool := Str.is_digit.
(** [.]: any character but the line feed (flag [s] is off). On bytes
    this is what the rune-wise engine does: no byte of a multi-byte
    rune is a line feed or a bracket. *)
Definition dot (c : ascii) : bool := negb (Ascii.eqb c "010").

(** One ungreedy group followed by the continuation [k]: [taken] holds
    the [n] characters consumed so far. The group first tries to stop
    (when it has its minimum), and takes one more character of its
    class only if the continuation fails. *)
Fixpoint lazy_cap (c : ascii → bool) (min : nat)
    (k : string → option (list string))
    (taken : string) (n : nat) (s : string) : option (list string) :=
  match (if (min <=? n)%nat then k s else None) with
  | Some caps => Some (taken :: caps)
  | None =>
      match s with
      | EmptyString => None
      | String a s' =>
          if c a
          then lazy_cap c min k (taken +:+ String a EmptyString) (S n) s'
          else None
      end
  end.

(** The submatches of the anchored pattern on the whole of [s]. *)
Fixpoint match_seq (p : Regexp) (s : string) : option (list string) :=
  match p with
  | [] => match s with EmptyString => Some [] | _ => None end
  | Lit l :: p' =>
      match Str.strip_prefix l s with
      | Some s' => match_seq p' s'
      | None => None
      end
  | Cap c min :: p' => lazy_cap c min (match_seq p') EmptyString 0 s
  end.

(** [re.FindStringSubmatch(s)]: the whole match and the groups, or nil. *)
Definition FindStringSubmatch (re : Regexp) (s : string) : list string :=
  match match_seq re s with
  | Some caps => s :: caps
  | None => []
  end.

End regexp.

Import regexp.

(** columnRegexp is the column urlvalue regexp (1=id 2=field 3=subfields):
    flag U, start anchor, the literal columns\[ , group ([0-9]+), the
    literal \]\[ , group (.+), the literal \] , a third group of zero or
    more of any character, end anchor. *)
Definition columnRegexp : Regexp :=
  [Lit "columns["; Cap digit 1; Lit "]["; Cap dot 1; Lit "]"; Cap dot 0].
(** searchRegexp is the search urlvalue regexp (1=field):
    (?U)^search\[(.+)\]$ *)
Definition searchRegexp : Regexp :=
  [Lit "search["; Cap dot 1; Lit "]"].
(** orderRegexp is the order urlvalue regexp (1=id 2=field):
    (?U)^order\[([0-9]+)\]\[(.+)\]$ *)
Definition orderRegexp : Regexp :=
  [Lit "order["; Cap digit 1; Lit "]["; Cap dot 1; Lit "]"].


(* ================================================================== *)
(** * Slices *)
(* ================================================================== *)

Module slice.

(** A slice value: [None] is nil. *)
Definition t (T : Type) : Type := option (list T).

Definition nil {T} : t T := None.

Definition elems {T} (s : t T) : list T := default [] s.

Definition len {T} (s : t T) : Z := Z.of_nat (length (elems s)).

(** [make([]T, n)]: [n] zero values. *)
Definition make {T} (zero : T) (n : Z) : t T :=
  Some (replicate (Z.to_nat n) zero).

(** [copy(dst, src)]: the first [min(len(dst), len(src))] elements of
    [dst] are overwritten with those of [src]. *)
Definition copy {T} (dst src : t T) : t T :=
  match dst with
  | None => None
  | Some d =>
      Some (take (length d) (elems src) ++ drop (length (elems src)) d)
  end.

(** [s[id].f = x], written [s[id] = upd s[id]]: bounds-checked. *)
Definition update {T} (s : t T) (id : Z) (upd : T → T) : outcome (t T) :=
  if (0 <=? id)%Z && (id <? len s)%Z
  then Ret (Some (alter upd (Z.to_nat id) (elems s)))
  else Panic.

(** [s[id]], bounds-checked. *)
Definition index {T} (s : t T) (id : Z) : outcome T :=
  if (0 <=? id)%Z && (id <? len s)%Z
  then match elems s !! Z.to_nat id with Some x => Ret x | None => Panic end
  else Panic.

End slice.

(* ================================================================== *)
(** * types.go: the data model *)
(* ================================================================== *)

(** OrderDirection specifies column ordering direction. *)
Definition OrderDirection : Type := string.
(** OrderAscending indicates ascending ordering. *)
Definition OrderAscending : OrderDirection := "asc".
(** OrderDescending indicates descending ordering. *)
Definition OrderDescending : OrderDirection := "desc".

(** Search contains the (regex) value to search for. *)
Record Search : Type := mkSearch {
  Search_Value : string;
  Search_Regex : bool
}.

(** Order contains ordering information. *)
Record Order : Type := mkOrder {
  Order_Column : Z;
  Order_Dir : OrderDirection
}.

(** Column contains the requested column data. *)
Record Column : Type := mkColumn {
  Column_Data : string;
  Column_Name : string;
  Column_Searchable : bool;
  Column_Orderable : bool;
  Column_Search : Search
}.

(** Request is the incoming Datatables request. *)
Record Request : Type := mkRequest {
  Request_Draw : Z;
  Request_Start : Z;
  Request_Length : Z;
  Request_Search : Search;
  Request_Order : slice.t Order;
  Request_Columns : slice.t Column
}.

(** Row contains the data columns and the four optional [DT_Row*] fields.
    A map is kept as its entries: a nil map and an empty map are the
    same value here. The code reads the maps of a Row with [range] and
    [len] (the test [!= nil] of MarshalJSON stands beside [len > 0]),
    which do not tell the two apart; what is stated about a Row is
    stated about its entries. *)
Record Row : Type := mkRow {
  Row_Data : gmap string string;
  Row_RowID : string;
  Row_RowClass : string;
  Row_RowData : gmap string string;
  Row_RowAttr : gmap string string
}.

(** Response contains the outgoing table data. *)
Record Response : Type := mkResponse {
  Response_Draw : Z;
  Response_RecordsTotal : Z;
  Response_RecordsFiltered : Z;
  Response_Data : slice.t Row;
  Response_Error : string
}.

(** The zero values. *)
Definition zero_Search : Search := mkSearch "" false.
Definition zero_Order : Order := mkOrder 0 "".
Definition zero_Column : Column := mkColumn "" "" false false zero_Search.
Definition zero_Request : Request :=
  mkRequest 0 0 0 zero_Search slice.nil slice.nil.
Definition zero_Row : Row := mkRow ∅ "" "" ∅ ∅.
Definition zero_Response : Response := mkResponse 0 0 0 slice.nil "".

(** Field assignments. *)
Definition set_Search_Value (v : string) (s : Search) : Search :=
  mkSearch v (Search_Regex s).
Definition set_Search_Regex (b : bool) (s : Search) : Search :=
  mkSearch (Search_Value s) b.
Definition set_Order_Column (n : Z) (o : Order) : Order :=
  mkOrder n (Order_Dir o).
Definition set_Order_Dir (d : OrderDirection) (o : Order) : Order :=
  mkOrder (Order_Column o) d.
Definition set_Column_Data (v : string) (c : Column) : Column :=
  mkColumn v (Column_Name c) (Column_Searchable c) (Column_Orderable c)
    (Column_Search c).
Definition set_Column_Name (v : string) (c : Column) : Column :=
  mkColumn (Column_Data c) v (Column_Searchable c) (Column_Orderable c)
    (Column_Search c).
Definition set_Column_Searchable (b : bool) (c : Column) : Column :=
  mkColumn (Column_Data c) (Column_Name c) b (Column_Orderable c)
    (Column_Search c).
Definition set_Column_Orderable (b : bool) (c : Column) : Column :=
  mkColumn (Column_Data c) (Column_Name c) (Column_Searchable c) b
    (Column_Search c).
Definition set_Column_Search (s : Search) (c : Column) : Column :=
  mkColumn (Column_Data c) (Column_Name c) (Column_Searchable c)
    (Column_Orderable c) s.
Definition set_Request_Draw (n : Z) (r : Request) : Request :=
  mkRequest n (Request_Start r) (Request_Length r) (Request_Search r)
    (Request_Order r) (Request_Columns r).
Definition set_Request_Start (n : Z) (r : Request) : Request :=
  mkRequest (Request_Draw r) n (Request_Length r) (Request_Search r)
    (Request_Order r) (Request_Columns r).
Definition set_Request_Length (n : Z) (r : Request) : Request :=
  mkRequest (Request_Draw r) (Request_Start r) n (Request_Search r)
    (Request_Order r) (Request_Columns r).
Definition set_Request_Search (s : Search) (r : Request) : Request :=
  mkRequest (Request_Draw r) (Request_Start r) (Request_Length r) s
    (Request_Order r) (Request_Columns r).
Definition set_Request_Order (o : slice.t Order) (r : Request) : Request :=
  mkRequest (Request_Draw r) (Request_Start r) (Request_Length r)
    (Request_Search r) o (Request_Columns r).
Definition set_Request_Columns (c : slice.t Column) (r : Request) : Request :=
  mkRequest (Request_Draw r) (Request_Start r) (Request_Length r)
    (Request_Search r) (Request_Order r) c.

(* ================================================================== *)
(** * encoding.go: the form decoder *)
(* ================================================================== *)

(** [m[i]] on the submatch list (never out of range where the code reads
    it: a match of a pattern with [g] groups has [g+1] elements). *)
Definition sub (m : list string) (i : nat) : string := nth i m "".

(** parseSearch parses the search urlvalue fields. *)
Definition parseSearch (s : Search) (k v : string) : Search * option error :=
  let m := FindStringSubmatch searchRegexp k in
  if (length m <? 2)%nat then (s, Some ErrNotEnoughFields)
  else
    let out := s in
    if String.eqb (sub m 1) "value" then (set_Search_Value v out, None)
    else if String.eqb (sub m 1) "regex" then
      if String.eqb v "true"
      then (set_Search_Regex true out, None)
      else (set_Search_Regex false out, None)
    else (out, None).

(** The growth step shared by parseOrder and parseColumn: if
    [id+1 > len(in)] then [out = make([]T, id+1); copy(out, in)], else
    [out = in]. The sum [id+1] is a 64-bit sum. *)
Definition grow {T} (zero : T) (s : slice.t T) (id : Z) : slice.t T :=
  if (slice.len s <? strconv.wrap (id + 1))%Z
  then slice.copy (slice.make zero (strconv.wrap (id + 1))) s
  else s.

(** parseOrder parses the order urlvalue fields. *)
Definition parseOrder (o : slice.t Order) (k v : string)
    : outcome (slice.t Order * option error) :=
  let m := FindStringSubmatch orderRegexp k in
  if (length m <? 3)%nat then Ret (o, Some ErrNotEnoughFields)
  else
    match strconv.Atoi (sub m 1) with
    | (_, Some err) => Ret (slice.nil, Some err)
    | (id, None) =>
        let out := grow zero_Order o id in
        if String.eqb (sub m 2) "column" then
          let '(n, err) := strconv.Atoi v in
          out' ← slice.update out id (set_Order_Column n);
          Ret (out', err)
        else if String.eqb (sub m 2) "dir" then
          if String.eqb v "asc" then
            out' ← slice.update out id (set_Order_Dir OrderAscending);
            Ret (out', None)
          else if String.eqb v "desc" then
            out' ← slice.update out id (set_Order_Dir OrderDescending);
            Ret (out', None)
          else Ret (out, None)
        else Ret (out, None)
    end.

(** parseColumn parses the column urlvalue fields. *)
Definition parseColumn (i : slice.t Column) (k v : string)
    : outcome (slice.t Column * option error) :=
  let m := FindStringSubmatch columnRegexp k in
  if (length m <? 2)%nat then Ret (i, Some ErrNotEnoughFields)
  else
    match strconv.Atoi (sub m 1) with
    | (_, Some err) => Ret (i, Some err)
    | (id, None) =>
        let out := grow zero_Column i id in
        let f := sub m 2 in
        if String.eqb f "data" then
          out' ← slice.update out id (set_Column_Data v); Ret (out', None)
        else if String.eqb f "name" then
          out' ← slice.update out id (set_Column_Name v); Ret (out', None)
        else if String.eqb f "searchable" then
          if String.eqb v "true" then
            out' ← slice.update out id (set_Column_Searchable true);
            Ret (out', None)
          else
            out' ← slice.update out id (set_Column_Searchable false);
            Ret (out', None)
        else if String.eqb f "orderable" then
          if String.eqb v "true" then
            out' ← slice.update out id (set_Column_Orderable true);
            Ret (out', None)
          else
            out' ← slice.update out id (set_Column_Orderable false);
            Ret (out', None)
        else if String.eqb f "search" then
          if (3 <? length m)%nat then
            c ← slice.index out id;
            let '(s, err) :=
              parseSearch (Column_Search c) ("search" +:+ sub m 3) v in
            out' ← slice.update out id (set_Column_Search s);
            Ret (out', err)
          else Ret (out, None)
        else Ret (out, None)
    end.

(** One turn of the loop of ParseURLValues, for a key [k] whose first
    value is [v0]: the [switch true] tries its cases in order. *)
Definition parseKey (r : Request) (k v0 : string)
    : outcome (Request * option error) :=
  if String.eqb k "draw" then
    let '(n, err) := strconv.Atoi v0 in Ret (set_Request_Draw n r, err)
  else if String.eqb k "start" then
    let '(n, err) := strconv.Atoi v0 in Ret (set_Request_Start n r, err)
  else if String.eqb k "length" then
    let '(n, err) := strconv.Atoi v0 in Ret (set_Request_Length n r, err)
  else if Str.HasPrefix k "search" then
    let '(s, err) := parseSearch (Request_Search r) k v0 in
    Ret (set_Request_Search s r, err)
  else if Str.HasPrefix k "order" then
    '(o, err) ← parseOrder (Request_Order r) k v0;
    Ret (set_Request_Order o r, err)
  else if Str.HasPrefix k "column" then
    '(c, err) ← parseColumn (Request_Columns r) k v0;
    Ret (set_Request_Columns c r, err)
  else Ret (r, None).

(** The loop [for k, v := range u], on the entries in the order of the
    visit, from the request built so far. *)
Fixpoint ParseURLValues_from (r : Request) (u : list (string * list string))
    : outcome (Request * option error) :=
  match u with
  | [] => Ret (r, None)
  | (k, v) :: u' =>
      match v with
      | [] => ParseURLValues_from r u'                 (* continue *)
      | v0 :: _ =>
          '(r', err) ← parseKey r k v0;
          match err with
          | Some e => Ret (r', Some e)                 (* return *)
          | None => ParseURLValues_from r' u'
          end
      end
  end.

(** ParseURLValues parses http request url.Values into a Request. *)
Definition ParseURLValues (u : list (string * list string))
    : outcome (Request * option error) :=
  ParseURLValues_from zero_Request u.


(* ================================================================== *)
(** * encoding/json *)
(* ================================================================== *)

(** ** unicode/utf8 *)

Module utf8.

(** The tables [first] and [acceptRanges]: for the first byte of an
    encoding, the number of bytes of the encoding and the range the
    second byte must lie in; [None] for a byte that starts no encoding. *)
Definition first (b : Z) : option (nat * (Z * Z)) :=
  if (b <? 128)%Z then Some (1%nat, (0, 0))%Z
  else if (b <? 194)%Z then None
  else if (b <? 224)%Z then Some (2%nat, (128, 191))%Z
  else if (b =? 224)%Z then Some (3%nat, (160, 191))%Z
  else if (b =? 237)%Z then Some (3%nat, (128, 159))%Z
  else if (b <? 240)%Z then Some (3%nat, (128, 191))%Z
  else if (b =? 240)%Z then Some (4%nat, (144, 191))%Z
  else if (b <? 244)%Z then Some (4%nat, (128, 191))%Z
  else if (b =? 244)%Z then Some (4%nat, (128, 143))%Z
  else None.

Definition in_range (lo hi : Z) (c : ascii) : bool :=
  (lo <=? Str.byte_val c)%Z && (Str.byte_val c <=? hi)%Z.

(** The continuation bytes: [locb = 0x80], [hicb = 0xBF]. *)
Definition locb : Z := 128.
Definition hicb : Z := 191.

(** [DecodeRuneInString(s)] on a string that is not empty: the width of
    the encoding that starts [s], or [None] where it returns
    [(RuneError, 1)], for an encoding that is invalid or cut short. *)
Definition width (s : string) : option nat :=
  match s with
  | EmptyString => None
  | String s0 rest =>
      match first (Str.byte_val s0) with
      | None => None
      | Some (1%nat, _) => Some 1%nat
      | Some (sz, (lo, hi)) =>
          match rest with
          | EmptyString => None
          | String s1 rest1 =>
              if negb (in_range lo hi s1) then None
              else if (sz <=? 2)%nat then Some 2%nat
              else
                match rest1 with
                | EmptyString => None
                | String s2 rest2 =>
                    if negb (in_range locb hicb s2) then None
                    else if (sz <=? 3)%nat then Some 3%nat
                    else
                      match rest2 with
                      | EmptyString => None
                      | String s3 _ =>
                          if negb (in_range locb hicb s3) then None
                          else Some 4%nat
                      end
                end
          end
      end
  end.

(** [ValidString]: the string is a row of valid encodings. [skip] counts
    the bytes still to pass of the encoding the loop is in. *)
Fixpoint valid_from (skip : nat) (s : string) : bool :=
  match s with
  | EmptyString => true
  | String _ s' =>
      match skip with
      | S n => valid_from n s'
      | O =>
          match width s with
          | Some sz => valid_from (sz - 1) s'
          | None => false
          end
      end
  end.

Definition ValidString (s : string) : bool := valid_from 0 s.

(** The encoding of U+FFFD, the replacement character. *)
Definition RuneError : string :=
  String (ascii_of_nat 239) (String (ascii_of_nat 191)
    (String (ascii_of_nat 189) EmptyString)).

End utf8.

(** A JSON text is carried as the value it denotes. An object keeps its
    members in the order of the text, duplicates included. A number is an
    integer literal ([JNum]) or a literal with a fraction or an exponent
    ([JFloat]). A string is the row of bytes the literal denotes; the
    encoder writes a Go string with every byte that is part of no valid
    UTF-8 encoding replaced by U+FFFD ([jsn.coerce]). *)
#[warnings="-register-all"]
Inductive json : Type :=
| JNull
| JBool (b : bool)
| JNum (n : Z)
| JFloat (lit : string)
| JStr (s : string)
| JArr (elems : list json)
| JObj (members : list (string * json)).

Module jsn.

(** The kind of value named in an [UnmarshalTypeError]. *)
Definition kind (j : json) : string :=
  match j with
  | JNull => "null"
  | JBool _ => "bool"
  | JNum _ | JFloat _ => "number"
  | JStr _ => "string"
  | JArr _ => "array"
  | JObj _ => "object"
  end.

(** How a call of the decoder on a sub-value ends: without error, with
    a type error that is saved while decoding goes on (the first one
    saved is reported at the end), or with the error of an
    [UnmarshalJSON] method, which stops the decoding at once. *)
Inductive derr : Type :=
| Fine
| Saved (e : error)
| Fatal (e : error).

Definition to_error (d : derr) : option error :=
  match d with
  | Fine => None
  | Saved e | Fatal e => Some e
  end.

Definition of_error (e : option error) : derr :=
  match e with
  | None => Fine
  | Some e => Fatal e
  end.

(** The error state after a further sub-value: [d] so far, [d'] new. *)
Definition join (d d' : derr) : derr :=
  match d' with
  | Fatal e => Fatal e
  | Saved e => match d with Fine => Saved e | _ => d end
  | Fine => d
  end.

Definition is_fatal (d : derr) : bool :=
  match d with Fatal _ => true | _ => false end.

Definition type_error (j : json) (ty : string) : derr :=
  Saved (UnmarshalTypeError (kind j) ty).

(** ** Case folding of object keys

    A key selects the struct field whose name it equals, or else the
    field whose name it equals under Unicode simple case folding. All
    field names here are ASCII; the runes that fold to an ASCII letter
    are the letter in the other case, U+017F (long s, bytes 197 191)
    and U+212A (Kelvin sign, bytes 226 132 170). [foldName] maps those
    to the capital letter and leaves every other byte alone, so it
    decides correctly whether a key folds to a given field name. *)
Definition upper (c : ascii) : ascii :=
  if (97 <=? Str.byte_val c)%Z && (Str.byte_val c <=? 122)%Z
  then ascii_of_N (N_of_ascii c - 32)
  else c.

Fixpoint foldName (s : string) : string :=
  match s with
  | EmptyString => EmptyString
  | String c s1 =>
      match s1 with
      | String c1 s2 =>
          if Ascii.eqb c "197" && Ascii.eqb c1 "191"
          then String "S" (foldName s2)
          else
            match s2 with
            | String c2 s3 =>
                if Ascii.eqb c "226" && Ascii.eqb c1 "132"
                   && Ascii.eqb c2 "170"
                then String "K" (foldName s3)
                else String (upper c) (foldName s1)
            | EmptyString => String (upper c) (foldName s1)
            end
      | EmptyString => String (upper c) EmptyString
      end
  end.

(** The index of the field that the key selects. *)
Fixpoint find_exact (names : list string) (key : string) : option nat :=
  match names with
  | [] => None
  | n :: names' =>
      if String.eqb n key then Some 0%nat
      else S <$> find_exact names' key
  end.
Fixpoint find_folded (names : list string) (key : string) : option nat :=
  match names with
  | [] => None
  | n :: names' =>
      if String.eqb (foldName n) (foldName key) then Some 0%nat
      else S <$> find_folded names' key
  end.
Definition field (names : list string) (key : string) : option nat :=
  match find_exact names key with
  | Some i => Some i
  | None => find_folded names key
  end.

(** ** Decoding into a value of a given type

    Every decoder takes the current value of the destination and the
    JSON value, and returns the new value of the destination. [null]
    leaves a string, a number, a boolean or a struct as it is and sets
    a map or a slice to nil. *)

Definition unmarshal_string (cur : string) (j : json) : string * derr :=
  match j with
  | JStr s => (s, Fine)
  | JNull => (cur, Fine)
  | _ => (cur, type_error j "string")
  end.

Definition unmarshal_bool (cur : bool) (j : json) : bool * derr :=
  match j with
  | JBool b => (b, Fine)
  | JNull => (cur, Fine)
  | _ => (cur, type_error j "bool")
  end.

Definition unmarshal_int (cur : Z) (j : json) : Z * derr :=
  match j with
  | JNum n =>
      if (strconv.MinInt <=? n)%Z && (n <=? strconv.MaxInt)%Z
      then (n, Fine)
      else (cur, type_error j "int")
  | JNull => (cur, Fine)
  | _ => (cur, type_error j "int")
  end.

(** Members of an object, one after the other, into a destination;
    nothing is read after a fatal error. *)
Fixpoint members {A} (step : A → string → json → A * derr)
    (ms : list (string * json)) (cur : A) (d : derr) : A * derr :=
  match ms with
  | [] => (cur, d)
  | (k, v) :: ms' =>
      let '(cur', d') := step cur k v in
      let d'' := join d d' in
      if is_fatal d'' then (cur', d'') else members step ms' cur' d''
  end.

(** Into a struct: an object is read member by member, [null] leaves
    the struct as it is. *)
Definition unmarshal_struct {A} (member : A → string → json → A * derr)
    (ty : string) (cur : A) (j : json) : A * derr :=
  match j with
  | JObj ms => members member ms cur Fine
  | JNull => (cur, Fine)
  | _ => (cur, type_error j ty)
  end.

(** Into a [map[string]string]: each member is decoded into a fresh
    string and stored under its key, also when its value had the wrong
    type (the entry is then the empty string). *)
Definition unmarshal_map_string (cur : gmap string string) (j : json)
    : gmap string string * derr :=
  match j with
  | JObj ms =>
      members (λ m k v, let '(s, d) := unmarshal_string "" v in
                        (<[k:=s]> m, d)) ms cur Fine
  | JNull => (∅, Fine)
  | _ => (cur, type_error j "map[string]string")
  end.

(** Elements of an array into a slice: element [i] is decoded into the
    current [i]-th element when there is one, else into a zero value;
    the slice ends with the last element read. *)
Fixpoint elements {A} (dec : A → json → A * derr) (zero : A)
    (cur : list A) (l : list json) : list A * derr :=
  match l with
  | [] => ([], Fine)
  | j :: l' =>
      let '(x, d) := dec (hd zero cur) j in
      if is_fatal d then ([x], d)
      else
        let '(xs, d') := elements dec zero (tl cur) l' in
        (x :: xs, join d d')
  end.

Definition unmarshal_slice {A} (dec : A → json → A * derr) (zero : A)
    (ty : string) (cur : slice.t A) (j : json) : slice.t A * derr :=
  match j with
  | JArr l =>
      let '(xs, d) := elements dec zero (slice.elems cur) l in
      (Some xs, d)
  | JNull => (slice.nil, Fine)
  | _ => (cur, type_error j ty)
  end.

(** ** Encoding *)

(** A map is written as an object with its keys sorted. *)
Definition key_le {A} (x y : string * A) : Prop := String.le x.1 y.1.
Global Instance key_le_dec {A} : RelDecision (@key_le A).
Proof. intros x y. unfold key_le. apply _. Defined.

(** The string that the literal written for [s] denotes: the loop of
    the encoder over [s] copies the bytes of a valid encoding and writes
    [\ufffd] for a byte where [DecodeRuneInString] returns
    [(RuneError, 1)]. *)
Fixpoint coerce_from (skip : nat) (s : string) : string :=
  match s with
  | EmptyString => EmptyString
  | String c s' =>
      match skip with
      | S n => String c (coerce_from n s')
      | O =>
          match utf8.width s with
          | Some sz => String c (coerce_from (sz - 1) s')
          | None => utf8.RuneError +:+ coerce_from 0 s'
          end
      end
  end.

Definition coerce (s : string) : string := coerce_from 0 s.

Definition marshal_string (s : string) : json := JStr (coerce s).

(** The keys are sorted as they are in the map, and each is then written
    as a string. *)
Definition marshal_map {A} (enc : A → json) (m : gmap string A) : json :=
  JObj (prod_map coerce id
          <$> merge_sort key_le (prod_map id enc <$> map_to_list m)).

(** A slice is written as an array, the nil slice as [null]. *)
Definition marshal_slice {A} (enc : A → json) (s : slice.t A) : json :=
  match s with
  | None => JNull
  | Some l => JArr (enc <$> l)
  end.

End jsn.

(* ================================================================== *)
(** * encoding.go: the row codec *)
(* ================================================================== *)

(** The four reserved keys. *)
Definition reserved : list string :=
  ["DT_RowId"; "DT_RowClass"; "DT_RowData"; "DT_RowAttr"].

(** The local struct of UnmarshalJSON. *)
Record rowCopy : Type := mkRowCopy {
  rowCopy_RowID : string;
  rowCopy_RowClass : string;
  rowCopy_RowData : gmap string string;
  rowCopy_RowAttr : gmap string string
}.

Definition zero_rowCopy : rowCopy := mkRowCopy "" "" ∅ ∅.

(** [json.Unmarshal] into a [rowCopy]: the struct tags are the reserved
    keys, in the order of the fields. *)
Definition rowCopy_member (c : rowCopy) (k : string) (v : json)
    : rowCopy * jsn.derr :=
  match jsn.field reserved k with
  | Some 0%nat =>
      let '(s, d) := jsn.unmarshal_string (rowCopy_RowID c) v in
      (mkRowCopy s (rowCopy_RowClass c) (rowCopy_RowData c)
         (rowCopy_RowAttr c), d)
  | Some 1%nat =>
      let '(s, d) := jsn.unmarshal_string (rowCopy_RowClass c) v in
      (mkRowCopy (rowCopy_RowID c) s (rowCopy_RowData c)
         (rowCopy_RowAttr c), d)
  | Some 2%nat =>
      let '(m, d) := jsn.unmarshal_map_string (rowCopy_RowData c) v in
      (mkRowCopy (rowCopy_RowID c) (rowCopy_RowClass c) m
         (rowCopy_RowAttr c), d)
  | Some 3%nat =>
      let '(m, d) := jsn.unmarshal_map_string (rowCopy_RowAttr c) v in
      (mkRowCopy (rowCopy_RowID c) (rowCopy_RowClass c)
         (rowCopy_RowData c) m, d)
  | _ => (c, jsn.Fine)
  end.

Definition unmarshal_rowCopy : rowCopy → json → rowCopy * jsn.derr :=
  jsn.unmarshal_struct rowCopy_member "types.rowCopy".

(** The loop [for i, v := range rowData { r.Data[strconv.Itoa(i)] = v }],
    from index [i]. *)
Fixpoint range_rowData (i : Z) (rowData : list string)
    (data : gmap string string) : gmap string string :=
  match rowData with
  | [] => data
  | v :: rest => range_rowData (i + 1) rest (<[strconv.Itoa i := v]> data)
  end.

(** UnmarshalJSON implements the json.Unmarshaler interface: the
    receiver [r] before, the receiver after and the error. *)
Definition UnmarshalJSON (r : Row) (i : json) : Row * option error :=
  (* Try to parse rowdata as an array first *)
  let '(rowData, d) :=
    jsn.unmarshal_slice jsn.unmarshal_string "" "[]string" slice.nil i in
  match jsn.to_error d with
  | None =>
      (mkRow (range_rowData 0 (slice.elems rowData) ∅)
         (Row_RowID r) (Row_RowClass r) (Row_RowData r) (Row_RowAttr r),
       None)
  | Some _ =>
      (* Otherwise assume it's an object *)
      let '(c, d) := unmarshal_rowCopy zero_rowCopy i in
      match jsn.to_error d with
      | Some err => (r, Some err)
      | None =>
          let r1 := mkRow (Row_Data r) (rowCopy_RowID c) (rowCopy_RowClass c)
                      (rowCopy_RowData c) (rowCopy_RowAttr c) in
          let '(data, d) := jsn.unmarshal_map_string ∅ i in
          match jsn.to_error d with
          | Some err => (r1, Some err)
          | None =>
              let data := foldl (λ m v, delete v m) data reserved in
              (mkRow data (Row_RowID r1) (Row_RowClass r1) (Row_RowData r1)
                 (Row_RowAttr r1), None)
          end
      end
  end.

(** MarshalJSON implements the json.Marshaler interface. The map [c] has
    values of two kinds, a string or a [map[string]string]; it is kept
    here with its values already as JSON values. *)
Definition MarshalJSON (r : Row) : json * option error :=
  let c : gmap string json := jsn.marshal_string <$> Row_Data r in
  let c := if negb (String.eqb (Row_RowID r) "")
           then <["DT_RowId" := jsn.marshal_string (Row_RowID r)]> c
           else c in
  let c := if negb (String.eqb (Row_RowClass r) "")
           then <["DT_RowClass" := jsn.marshal_string (Row_RowClass r)]> c
           else c in
  let c := if (0 <? size (Row_RowData r))%nat
           then <["DT_RowData" :=
                    jsn.marshal_map jsn.marshal_string (Row_RowData r)]> c
           else c in
  let c := if (0 <? size (Row_RowAttr r))%nat
           then <["DT_RowAttr" :=
                    jsn.marshal_map jsn.marshal_string (Row_RowAttr r)]> c
           else c in
  (jsn.marshal_map id c, None).


(* ================================================================== *)
(** * The document codec: [json.Marshal] and [json.Unmarshal] on
      Request and Response *)
(* ================================================================== *)

Definition marshal_Search (s : Search) : json :=
  JObj [("value", jsn.marshal_string (Search_Value s));
        ("regex", JBool (Search_Regex s))].

Definition marshal_Order (o : Order) : json :=
  JObj [("column", JNum (Order_Column o));
        ("dir", jsn.marshal_string (Order_Dir o))].

Definition marshal_Column (c : Column) : json :=
  JObj [("data", jsn.marshal_string (Column_Data c));
        ("name", jsn.marshal_string (Column_Name c));
        ("searchable", JBool (Column_Searchable c));
        ("orderable", JBool (Column_Orderable c));
        ("search", marshal_Search (Column_Search c))].

Definition marshal_Request (r : Request) : json :=
  JObj [("draw", JNum (Request_Draw r)); ("start", JNum (Request_Start r));
        ("length", JNum (Request_Length r));
        ("search", marshal_Search (Request_Search r));
        ("order", jsn.marshal_slice marshal_Order (Request_Order r));
        ("columns", jsn.marshal_slice marshal_Column (Request_Columns r))].

(** A Row is written by its MarshalJSON (which returns no error). The
    [error] member is left out when the string is empty. *)
Definition marshal_Response (r : Response) : json :=
  JObj ([("draw", JNum (Response_Draw r));
         ("recordsTotal", JNum (Response_RecordsTotal r));
         ("recordsFiltered", JNum (Response_RecordsFiltered r));
         ("data", jsn.marshal_slice (λ x, (MarshalJSON x).1)
                    (Response_Data r))]
        ++ (if String.eqb (Response_Error r) "" then []
            else [("error", jsn.marshal_string (Response_Error r))])).

Definition Search_member (s : Search) (k : string) (v : json)
    : Search * jsn.derr :=
  match jsn.field ["value"; "regex"] k with
  | Some 0%nat =>
      let '(x, d) := jsn.unmarshal_string (Search_Value s) v in
      (set_Search_Value x s, d)
  | Some 1%nat =>
      let '(x, d) := jsn.unmarshal_bool (Search_Regex s) v in
      (set_Search_Regex x s, d)
  | _ => (s, jsn.Fine)
  end.
Definition unmarshal_Search : Search → json → Search * jsn.derr :=
  jsn.unmarshal_struct Search_member "types.Search".

Definition Order_member (o : Order) (k : string) (v : json)
    : Order * jsn.derr :=
  match jsn.field ["column"; "dir"] k with
  | Some 0%nat =>
      let '(x, d) := jsn.unmarshal_int (Order_Column o) v in
      (set_Order_Column x o, d)
  | Some 1%nat =>
      let '(x, d) := jsn.unmarshal_string (Order_Dir o) v in
      (set_Order_Dir x o, d)
  | _ => (o, jsn.Fine)
  end.
Definition unmarshal_Order : Order → json → Order * jsn.derr :=
  jsn.unmarshal_struct Order_member "types.Order".

Definition Column_member (c : Column) (k : string) (v : json)
    : Column * jsn.derr :=
  match jsn.field ["data"; "name"; "searchable"; "orderable"; "search"] k with
  | Some 0%nat =>
      let '(x, d) := jsn.unmarshal_string (Column_Data c) v in
      (set_Column_Data x c, d)
  | Some 1%nat =>
      let '(x, d) := jsn.unmarshal_string (Column_Name c) v in
      (set_Column_Name x c, d)
  | Some 2%nat =>
      let '(x, d) := jsn.unmarshal_bool (Column_Searchable c) v in
      (set_Column_Searchable x c, d)
  | Some 3%nat =>
      let '(x, d) := jsn.unmarshal_bool (Column_Orderable c) v in
      (set_Column_Orderable x c, d)
  | Some 4%nat =>
      let '(x, d) := unmarshal_Search (Column_Search c) v in
      (set_Column_Search x c, d)
  | _ => (c, jsn.Fine)
  end.
Definition unmarshal_Column : Column → json → Column * jsn.derr :=
  jsn.unmarshal_struct Column_member "types.Column".

Definition Request_member (r : Request) (k : string) (v : json)
    : Request * jsn.derr :=
  match jsn.field ["draw"; "start"; "length"; "search"; "order"; "columns"] k
  with
  | Some 0%nat =>
      let '(x, d) := jsn.unmarshal_int (Request_Draw r) v in
      (set_Request_Draw x r, d)
  | Some 1%nat =>
      let '(x, d) := jsn.unmarshal_int (Request_Start r) v in
      (set_Request_Start x r, d)
  | Some 2%nat =>
      let '(x, d) := jsn.unmarshal_int (Request_Length r) v in
      (set_Request_Length x r, d)
  | Some 3%nat =>
      let '(x, d) := unmarshal_Search (Request_Search r) v in
      (set_Request_Search x r, d)
  | Some 4%nat =>
      let '(x, d) := jsn.unmarshal_slice unmarshal_Order zero_Order
                       "[]types.Order" (Request_Order r) v in
      (set_Request_Order x r, d)
  | Some 5%nat =>
      let '(x, d) := jsn.unmarshal_slice unmarshal_Column zero_Column
                       "[]types.Column" (Request_Columns r) v in
      (set_Request_Columns x r, d)
  | _ => (r, jsn.Fine)
  end.

(** [json.Unmarshal(data, &r)] for a Request [r]. *)
Definition unmarshal_Request (r : Request) (j : json)
    : Request * option error :=
  let '(r', d) := jsn.unmarshal_struct Request_member "types.Request" r j in
  (r', jsn.to_error d).

(** A Row is read by its UnmarshalJSON; the error it returns ends the
    decoding of the document. *)
Definition unmarshal_Row (r : Row) (j : json) : Row * jsn.derr :=
  let '(r', e) := UnmarshalJSON r j in (r', jsn.of_error e).

Definition Response_member (r : Response) (k : string) (v : json)
    : Response * jsn.derr :=
  match jsn.field
          ["draw"; "recordsTotal"; "recordsFiltered"; "data"; "error"] k
  with
  | Some 0%nat =>
      let '(x, d) := jsn.unmarshal_int (Response_Draw r) v in
      (mkResponse x (Response_RecordsTotal r) (Response_RecordsFiltered r)
         (Response_Data r) (Response_Error r), d)
  | Some 1%nat =>
      let '(x, d) := jsn.unmarshal_int (Response_RecordsTotal r) v in
      (mkResponse (Response_Draw r) x (Response_RecordsFiltered r)
         (Response_Data r) (Response_Error r), d)
  | Some 2%nat =>
      let '(x, d) := jsn.unmarshal_int (Response_RecordsFiltered r) v in
      (mkResponse (Response_Draw r) (Response_RecordsTotal r) x
         (Response_Data r) (Response_Error r), d)
  | Some 3%nat =>
      let '(x, d) := jsn.unmarshal_slice unmarshal_Row zero_Row
                       "[]types.Row" (Response_Data r) v in
      (mkResponse (Response_Draw r) (Response_RecordsTotal r)
         (Response_RecordsFiltered r) x (Response_Error r), d)
  | Some 4%nat =>
      let '(x, d) := jsn.unmarshal_string (Response_Error r) v in
      (mkResponse (Response_Draw r) (Response_RecordsTotal r)
         (Response_RecordsFiltered r) (Response_Data r) x, d)
  | _ => (r, jsn.Fine)
  end.

(** [json.Unmarshal(data, &r)] for a Response [r]. *)
Definition unmarshal_Response (r : Response) (j : json)
    : Response * option error :=
  let '(r', d) := jsn.unmarshal_struct Response_member "types.Response" r j in
  (r', jsn.to_error d).

(** The Go [int] range, for the integer fields of a value. *)
Definition int_ok (n : Z) : Prop :=
  (strconv.MinInt <= n <= strconv.MaxInt)%Z.


(* ================================================================== *)
(** * mongo.go: the handler for a MongoDB collection *)
(* ================================================================== *)

(** [regexp.QuoteMeta]: a backslash before every byte that is one of the
    metacharacters of the regular expressions. *)
Definition special (c : ascii) : bool :=
  existsb (Ascii.eqb c) (list_ascii_of_string "\.+*?()|[]{}^$").

Fixpoint QuoteMeta (s : string) : string :=
  match s with
  | EmptyString => EmptyString
  | String c s' =>
      if special c then String "\" (String c (QuoteMeta s'))
      else String c (QuoteMeta s')
  end.

Module bson.

(** The BSON values the filter is made of: a [bson.RegEx] and a slice
    of documents; [bson.M] is a map from strings to values. *)
#[warnings="-register-all"]
Inductive value : Type :=
| RegEx (Pattern Options : string)
| Docs (l : list (gmap string value)).

Definition M : Type := gmap string value.

End bson.

Module mongo.

(** The Query interface: the methods of [*mgo.Query] that are used. An
    error of the database is carried as its message. [All] gives the
    documents it appends to the result, and the error. *)
Class Query (Q : Type) : Type := {
  All : Q → list (gmap string string) * option string;
  Count : Q → Z * option string;
  Limit : Z → Q → Q;
  Skip : Z → Q → Q;
  Sort : list string → Q → Q
}.

(** The Collection interface. *)
Class Collection (C Q : Type) : Type := {
  CollectionCount : C → Z * option string;
  Find : C → bson.M → Q
}.

(** ResponseData returns the data for a given query that can be used in
    a Datatables Response. *)
Definition ResponseData {Q} `{Query Q} (q : Q)
    : slice.t Row * option string :=
  match All q with
  | (_, Some err) => (slice.nil, Some err)
  | (results, None) =>
      (Some ((λ r, mkRow r "" "" ∅ ∅) <$> results), None)
  end.

(** The loop of SortQuery, from the entry [i] on: [sort[i] = prefix +
    r.Columns[o.Column].Data]. *)
Fixpoint sort_fields (columns : slice.t Column) (order : list Order)
    : outcome (list string) :=
  match order with
  | [] => Ret []
  | o :: order' =>
      let prefix := if String.eqb (Order_Dir o) OrderDescending
                    then "-" else "" in
      c ← slice.index columns (Order_Column o);
      rest ← sort_fields columns order';
      Ret ((prefix +:+ Column_Data c) :: rest)
  end.

(** SortQuery sets the queries sort options based on the Request. *)
Definition SortQuery {Q} `{Query Q} (i : Q) (r : Request) : outcome Q :=
  sort ← sort_fields (Request_Columns r) (slice.elems (Request_Order r));
  Ret (Sort sort i).

(** RangeQuery sets range of items to return based on the Datatables
    Request. *)
Definition RangeQuery {Q} `{Query Q} (i : Q) (r : Request) : Q :=
  Limit (Request_Length r) (Skip (Request_Start r) i).

(** The pattern of a search: the value itself when it is a regular
    expression, and else the value with its metacharacters quoted. *)
Definition pattern (s : Search) : bson.value :=
  if Search_Regex s
  then bson.RegEx (Search_Value s) "i"
  else bson.RegEx (QuoteMeta (Search_Value s)) "i".

(** One turn of the loop of CreateFilter, for the column [c]: [global]
    gets its entry, [column] gets one when the column has a search value. *)
Definition filter_step (search : Search)
    (acc : list bson.M * list bson.M) (c : Column)
    : list bson.M * list bson.M :=
  let '(global, column) := acc in
  let global := global ++ [{[ Column_Data c := pattern search ]}] in
  if negb (String.eqb (Search_Value (Column_Search c)) "")
  then (global, column ++ [{[ Column_Data c := pattern (Column_Search c) ]}])
  else (global, column).

(** CreateFilter creates a BSON query from a Datatables Request. *)
Definition CreateFilter (r : Request) : bson.M :=
  let '(global, column) :=
    foldl (filter_step (Request_Search r)) ([], [])
      (slice.elems (Request_Columns r)) in
  let q : bson.M := {[ "$or" := bson.Docs global ]} in
  if (0 <? length column)%nat
  then {[ "$and" := bson.Docs [q; {[ "$and" := bson.Docs column ]}] ]}
  else q.

(** What the handler leaves in the ResponseWriter: the status, and the
    document it wrote, if any. *)
Record reply : Type := mkReply {
  status : Z;
  body : option json
}.

Definition StatusOK : Z := 200.
Definition StatusBadRequest : Z := 400.

(** ServeHTTP implements the http.Handler interface. [form] is the
    [r.Form] that [r.ParseForm()] made, in an order of visit, or [None]
    when ParseForm returned an error. *)
Definition ServeHTTP {C Q} `{Query Q} `{Collection C Q} (ch : C)
    (form : option (list (string * list string))) : outcome reply :=
  match form with
  | None => Ret (mkReply StatusBadRequest None)
  | Some u =>
      '(dtRequest, err) ← ParseURLValues u;
      match err with
      | Some _ => Ret (mkReply StatusBadRequest None)
      | None =>
          let draw := Request_Draw dtRequest in
          let f := CreateFilter dtRequest in
          let q := Find ch f in
          let '(filtered, err) := Count q in
          let error := match err with Some e => e | None => "" end in
          let '(total, err) := CollectionCount ch in
          let error := match err with Some e => e | None => error end in
          q ← SortQuery q dtRequest;
          let q := RangeQuery q dtRequest in
          let '(data, err) := ResponseData q in
          let error := match err with Some e => e | None => error end in
          Ret (mkReply StatusOK
                 (Some (marshal_Response
                          (mkResponse draw total filtered data error))))
      end
  end.

(** The doubles of the tests: a query that keeps what Sort, Skip and
    Limit were called with and returns its [Result], without error and
    with the count 0; a collection with a count, an error and a query.
    (The field [CountCalled] of the test's query is left out.) *)
Record QueryMock : Type := mkQueryMock {
  Result : list (gmap string string);
  LimitValue : Z;
  SkipValue : Z;
  SortValue : list string
}.

Global Instance QueryMock_Query : Query QueryMock := {|
  All q := (Result q, None);
  Count q := (0%Z, None);
  Limit n q := mkQueryMock (Result q) n (SkipValue q) (SortValue q);
  Skip n q := mkQueryMock (Result q) (LimitValue q) n (SortValue q);
  Sort fields q := mkQueryMock (Result q) (LimitValue q) (SkipValue q) fields
|}.

Record CollectionMock : Type := mkCollectionMock {
  count : Z;
  err : option string;
  query : QueryMock
}.

Global Instance CollectionMock_Collection
    : Collection CollectionMock QueryMock := {|
  CollectionCount c := (count c, err c);
  Find c _ := query c
|}.

End mongo.


(* ================================================================== *)
(** * Properties: byte strings, strconv, regexp *)
(* ================================================================== *)

Section strings.

Lemma str_app_cons (c : ascii) (a b : string) :
  String c a +:+ b = String c (a +:+ b).
Proof. reflexivity. Qed.

Lemma str_app_nil_l (s : string) : "" +:+ s = s.
Proof. reflexivity. Qed.

Lemma str_app_nil_r (s : string) : s +:+ "" = s.
Proof. induction s as [|c s IH]; [done|]. by rewrite str_app_cons, IH. Qed.

Lemma str_app_assoc (a b c : string) : (a +:+ b) +:+ c = a +:+ (b +:+ c).
Proof. induction a as [|x a IH]; [done|]. by rewrite !str_app_cons, IH. Qed.

Lemma str_app_snoc (a : string) (c : ascii) (b : string) :
  (a +:+ String c "") +:+ b = a +:+ String c b.
Proof. by rewrite str_app_assoc. Qed.

Lemma str_length_app (a b : string) :
  String.length (a +:+ b) = (String.length a + String.length b)%nat.
Proof. induction a as [|x a IH]; [done|]. rewrite str_app_cons. simpl. by rewrite IH. Qed.

Lemma str_all_app p (a b : string) :
  Str.all p (a +:+ b) = Str.all p a && Str.all p b.
Proof.
  induction a as [|x a IH]; [done|].
  rewrite str_app_cons. simpl. rewrite IH. by rewrite andb_assoc.
Qed.

Lemma strip_prefix_app (p s : string) :
  Str.strip_prefix p (p +:+ s) = Some s.
Proof.
  induction p as [|c p IH]; [done|].
  rewrite str_app_cons. simpl. by rewrite Ascii.eqb_refl.
Qed.

Lemma strip_prefix_Some (p s r : string) :
  Str.strip_prefix p s = Some r → s = p +:+ r.
Proof.
  revert s. induction p as [|c p IH]; intros s; simpl.
  - by intros [= ->].
  - destruct s as [|b s]; [done|].
    destruct (Ascii.eqb_spec c b) as [->|]; [|done].
    intros H. by rewrite (IH _ H).
Qed.

Lemma digit_not_rbracket (c : ascii) :
  Str.is_digit c = true → Ascii.eqb "]" c = false.
Proof.
  destruct c as [[] [] [] [] [] [] [] []]; vm_compute; congruence.
Qed.

Lemma digit_not_sign (c : ascii) :
  Str.is_digit c = true → Ascii.eqb c "+" = false ∧ Ascii.eqb c "-" = false.
Proof.
  destruct c as [[] [] [] [] [] [] [] []]; vm_compute; try done; congruence.
Qed.

Lemma digit_val_range (c : ascii) :
  Str.is_digit c = true → (0 <= Str.digit_val c <= 9)%Z.
Proof.
  unfold Str.is_digit, Str.digit_val. intros H.
  apply andb_true_iff in H as [H1 H2]. lia.
Qed.

End strings.

Section strconv_facts.
Import strconv.
Local Open Scope Z_scope.

Lemma wrap_small (z : Z) : MinInt <= z <= MaxInt → wrap z = z.
Proof.
  unfold wrap, MinInt, MaxInt. intros H.
  rewrite Z.mod_small; lia.
Qed.

(** The digit loop returns a value of the [uint64] range, at least the
    value it started from when it reports no error. *)
Lemma ParseUint_loop_range (s : string) (n v : Z) (e : option numerr) :
  0 <= n <= maxUint64 →
  ParseUint_loop s n = (v, e) → 0 <= v <= maxUint64.
Proof.
  revert n. induction s as [|c s IH]; intros n Hn; simpl.
  - by intros [= <- <-].
  - destruct (Str.is_digit c); [|intros [= <- <-]; by vm_compute].
    destruct (_ <=? n); [intros [= <- <-]; by vm_compute|].
    destruct (_ || _); [intros [= <- <-]; by vm_compute|].
    apply IH. unfold maxUint64.
    pose proof (Z.mod_pos_bound (n * 10 + Str.digit_val c) (2 ^ 64)).
    lia.
Qed.

Lemma ParseUint_loop_range_error (s : string) (n v : Z) :
  ParseUint_loop s n = (v, Some ErrRange) → v = maxUint64.
Proof.
  revert n. induction s as [|c s IH]; intros n; simpl; [done|].
  destruct (Str.is_digit c); [|done].
  destruct (_ <=? n); [by intros [= <-]|].
  destruct (_ || _); [by intros [= <-]|].
  apply IH.
Qed.

(** A byte that is no digit makes the loop fail. *)
Lemma ParseUint_loop_not_digits (s : string) (n : Z) :
  Str.all Str.is_digit s = false →
  ∃ v e, ParseUint_loop s n = (v, Some e).
Proof.
  revert n. induction s as [|c s IH]; intros n; simpl; [done|].
  destruct (Str.is_digit c); simpl; [|eauto].
  intros H. destruct (_ <=? n); [eauto|].
  destruct (_ || _); [eauto|]. by apply IH.
Qed.

(** The syntax [Atoi] accepts: an optional sign and one digit or more. *)
Definition numeric (s : string) : bool :=
  match s with
  | EmptyString => false
  | String c s' =>
      let body := if Ascii.eqb c "+" || Ascii.eqb c "-" then s' else s in
      match body with
      | EmptyString => false
      | _ => Str.all Str.is_digit body
      end
  end.

Lemma Atoi_not_numeric (s : string) :
  numeric s = false → ∃ n e, Atoi s = (n, Some (NumError "Atoi" s e)).
Proof.
  unfold Atoi, ParseInt, numeric. destruct s as [|c s']; [eauto|].
  set (body := if _ || _ then s' else String c s').
  intros H.
  assert (∃ v e, ParseUint body = (v, Some e)) as (v & e & Hp).
  { unfold ParseUint. destruct body as [|b body']; [eauto|].
    by apply ParseUint_loop_not_digits. }
  rewrite Hp. destruct e; [eauto|].
  assert (v = maxUint64) as ->.
  { unfold ParseUint in Hp. destruct body; [done|].
    by apply ParseUint_loop_range_error in Hp. }
  destruct (Ascii.eqb c "-"); simpl; eauto.
Qed.

Lemma Atoi_range (s : string) (n : Z) :
  Atoi s = (n, None) → MinInt <= n <= MaxInt.
Proof.
  unfold Atoi, ParseInt. destruct s as [|c s']; [done|].
  set (body := if _ || _ then s' else String c s').
  destruct (ParseUint body) as [un e] eqn:Hp.
  assert (0 <= un <= maxUint64) as Hun.
  { unfold ParseUint in Hp. destruct body.
    - injection Hp as <- <-. by vm_compute.
    - eapply ParseUint_loop_range; [|exact Hp]. by vm_compute. }
  assert (∀ x : Z * option numerr,
    (let cutoff := 2 ^ 63 in
     if negb (Ascii.eqb c "-") && (cutoff <=? un)
     then (cutoff - 1, Some ErrRange)
     else if Ascii.eqb c "-" && (cutoff <? un)
          then (- cutoff, Some ErrRange)
          else (if Ascii.eqb c "-" then - un else un, None)) = x →
    match x with (n0, None) => (n0, None)
               | (n0, Some e0) => (n0, Some (NumError "Atoi" (String c s') e0))
    end = (n, None) → MinInt <= n <= MaxInt) as Hfin.
  { intros x Hx. cbv zeta in Hx. unfold MinInt, MaxInt.
    destruct (Ascii.eqb c "-"); simpl in Hx.
    - destruct (Z.ltb_spec (2 ^ 63) un); subst x; [done|].
      intros [= <-]. lia.
    - destruct (Z.leb_spec (2 ^ 63) un); subst x; [done|].
      intros [= <-]. lia. }
  destruct e as [[]|]; [done|eapply Hfin; reflexivity..].
Qed.

(** On a string of digits the result is not negative. *)
Lemma Atoi_digits (ds : string) (n : Z) :
  Str.all Str.is_digit ds = true → Atoi ds = (n, None) → 0 <= n <= MaxInt.
Proof.
  intros Hd Ha. pose proof (Atoi_range _ _ Ha) as Hr.
  split; [|lia]. revert Ha.
  unfold Atoi, ParseInt. destruct ds as [|c s']; [done|].
  cbn [Str.all] in Hd. apply andb_true_iff in Hd as [Hc _].
  destruct (digit_not_sign _ Hc) as [-> ->]. cbn [orb negb andb].
  unfold ParseUint.
  destruct (ParseUint_loop (String c s') 0) as [un e] eqn:Hp.
  assert (0 <= un <= maxUint64) as Hun.
  { eapply ParseUint_loop_range; [|exact Hp]. unfold maxUint64. lia. }
  destruct e as [[]|]; [done| |].
  - destruct (_ <=? un); [done|]. intros [= <-]. lia.
  - destruct (_ <=? un); [done|]. intros [= <-]. lia.
Qed.

End strconv_facts.

Section regexp_facts.

(** What a successful ungreedy group has consumed. *)
Lemma lazy_cap_sound c min k taken n s r :
  lazy_cap c min k taken n s = Some r →
  ∃ a b caps, s = a +:+ b ∧ Str.all c a = true ∧ k b = Some caps ∧
              r = (taken +:+ a) :: caps ∧ (min ≤ n + String.length a)%nat.
Proof.
  revert taken n. induction s as [|x s IH]; intros taken n; simpl.
  - destruct (Nat.leb_spec min n) as [Hn|Hn]; [|done].
    destruct (k "") as [caps|] eqn:Hk; [|done].
    intros [= <-]. exists "", "", caps. rewrite !str_app_nil_r.
    split; [done|]. split; [done|]. split; [done|].
    split; [done|]. simpl. lia.
  - destruct (if (min <=? n)%nat then k (String x s) else None)
      as [caps|] eqn:Hk.
    + intros [= <-]. destruct (Nat.leb_spec min n) as [Hn|Hn]; [|done].
      exists "", (String x s), caps. rewrite !str_app_nil_r.
      split; [done|]. split; [done|]. split; [done|].
      split; [done|]. simpl. lia.
    + destruct (c x) eqn:Hx; [|done].
      intros H. apply IH in H as (a & b & caps & -> & Ha & Hb & -> & Hl).
      exists (String x a), b, caps. rewrite str_app_snoc.
      split; [done|]. split; [by simpl; rewrite Hx|].
      split; [done|]. split; [done|]. simpl. lia.
Qed.

(** A group of digits in front of a continuation that cannot start
    with a digit takes all the digits. *)
Lemma lazy_cap_digits k ds rest taken n :
  Str.all Str.is_digit ds = true →
  (∀ c s', Str.is_digit c = true → k (String c s') = None) →
  (∀ c s', rest = String c s' → Str.is_digit c = false) →
  (1 ≤ n + String.length ds)%nat →
  lazy_cap digit 1 k taken n (ds +:+ rest)
  = match k rest with
    | Some caps => Some ((taken +:+ ds) :: caps)
    | None => None
    end.
Proof.
  intros Hds Hk Hrest. revert taken n.
  induction ds as [|d ds IH]; intros taken n Hn.
  - rewrite str_app_nil_l, str_app_nil_r. simpl in Hn.
    destruct rest as [|c s']; cbn [lazy_cap].
    + destruct (Nat.leb_spec 1 n); [|lia]. by destruct (k "").
    + destruct (Nat.leb_spec 1 n); [|lia].
      destruct (k (String c s')); [done|].
      unfold digit. by rewrite (Hrest c s').
  - simpl in Hds. apply andb_true_iff in Hds as [Hd Hds].
    rewrite str_app_cons. cbn [lazy_cap].
    rewrite (Hk d _ Hd). unfold digit at 1. rewrite Hd.
    replace (if (1 <=? n)%nat then None else None)
      with (@None (list string)) by by destruct (1 <=? n)%nat.
    rewrite IH; [|done|simpl; lia]. by rewrite str_app_snoc.
Qed.

Definition no_rbracket (c : ascii) : bool := negb (Ascii.eqb "]" c).

(** An index that is not a row of digits stops the group before the
    closing bracket, where the pattern cannot go on. *)
Lemma lazy_cap_not_digits p x tail taken n :
  Str.all no_rbracket x = true →
  Str.all Str.is_digit x = false →
  lazy_cap digit 1 (match_seq (Lit "][" :: p)) taken n (x +:+ tail) = None.
Proof.
  revert taken n. induction x as [|c x IH]; intros taken n Hb Hd; [done|].
  simpl in Hb, Hd. apply andb_true_iff in Hb as [Hc Hb].
  rewrite str_app_cons. cbn [lazy_cap match_seq Str.strip_prefix].
  unfold no_rbracket in Hc. apply negb_true_iff in Hc. rewrite Hc.
  replace (if (1 <=? n)%nat then None else None)
    with (@None (list string)) by by destruct (1 <=? n)%nat.
  unfold digit at 1. destruct (Str.is_digit c); [|done].
  by apply IH.
Qed.

(** The keys [pre ds ][ rest]: the first group is the index [ds]. *)
Lemma match_index_key pre p ds rest caps :
  Str.all Str.is_digit ds = true → ds ≠ "" →
  match_seq p rest = Some caps →
  FindStringSubmatch (Lit pre :: Cap digit 1 :: Lit "][" :: p)
    (pre +:+ ds +:+ "][" +:+ rest)
  = (pre +:+ ds +:+ "][" +:+ rest) :: ds :: caps.
Proof.
  intros Hds Hne Hrest. unfold FindStringSubmatch.
  cbn [match_seq]. rewrite strip_prefix_app.
  rewrite lazy_cap_digits; [| done | | | ].
  - cbn [match_seq]. rewrite strip_prefix_app, Hrest. done.
  - intros c s' Hc. cbn [match_seq Str.strip_prefix].
    by rewrite (digit_not_rbracket _ Hc).
  - by intros c s' [= <- _].
  - destruct ds; [done|simpl; lia].
Qed.

(** A key whose index is empty or has a character that is no digit is
    not matched. *)
Lemma match_index_key_not_numeric pre p x tail :
  Str.all no_rbracket x = true →
  Str.all Str.is_digit x = false ∨ x = "" →
  FindStringSubmatch (Lit pre :: Cap digit 1 :: Lit "][" :: p)
    (pre +:+ x +:+ String "]" tail) = [].
Proof.
  intros Hb Hx. unfold FindStringSubmatch.
  cbn [match_seq]. rewrite strip_prefix_app.
  destruct Hx as [Hx| ->].
  - pose proof (lazy_cap_not_digits p x (String "]" tail) "" 0 Hb Hx) as H.
    cbn [match_seq] in H. by rewrite H.
  - done.
Qed.

End regexp_facts.

Section slices.
Import strconv.
Context {T : Type}.
Implicit Types (s : slice.t T) (zero : T) (id : Z).

(** The elements after the growth step. *)
Definition grown zero s id : list T :=
  slice.elems s
  ++ replicate (Z.to_nat (id + 1) - length (slice.elems s)) zero.

Lemma grow_elems zero s id :
  (0 <= id < MaxInt)%Z → slice.elems (grow zero s id) = grown zero s id.
Proof.
  intros Hid. unfold grow, grown.
  rewrite wrap_small by (unfold MinInt, MaxInt in *; lia).
  unfold slice.len. destruct (Z.ltb_spec (Z.of_nat (length (slice.elems s)))
                                (id + 1)) as [Hlt|Hge].
  - unfold slice.copy, slice.make. simpl.
    rewrite length_replicate, take_ge by lia.
    by rewrite drop_replicate.
  - replace (Z.to_nat (id + 1) - length (slice.elems s))%nat with 0%nat
      by lia.
    simpl. by rewrite app_nil_r.
Qed.

Lemma length_grown zero s id :
  (0 <= id)%Z →
  length (grown zero s id)
  = Nat.max (length (slice.elems s)) (Z.to_nat (id + 1)).
Proof.
  intros Hid. unfold grown. rewrite length_app, length_replicate. lia.
Qed.

Lemma grown_lookup_old zero s id (j : nat) :
  (j < length (slice.elems s))%nat →
  grown zero s id !! j = slice.elems s !! j.
Proof. intros Hj. unfold grown. by rewrite lookup_app_l. Qed.

Lemma grown_lookup_new zero s id (j : nat) :
  (length (slice.elems s) ≤ j < Z.to_nat (id + 1))%nat →
  grown zero s id !! j = Some zero.
Proof.
  intros Hj. unfold grown. rewrite lookup_app_r by lia.
  apply lookup_replicate_2. lia.
Qed.

Lemma update_grow zero s id (f : T → T) :
  (0 <= id < MaxInt)%Z →
  slice.update (grow zero s id) id f
  = Ret (Some (alter f (Z.to_nat id) (grown zero s id))).
Proof.
  intros Hid. unfold slice.update, slice.len.
  rewrite grow_elems by done. rewrite length_grown by lia.
  destruct (Z.leb_spec 0 id); [|lia].
  destruct (Z.ltb_spec id
    (Z.of_nat (Nat.max (length (slice.elems s)) (Z.to_nat (id + 1)))));
    [done|lia].
Qed.

Lemma index_grow zero s id :
  (0 <= id < MaxInt)%Z →
  ∃ x, grown zero s id !! Z.to_nat id = Some x
       ∧ slice.index (grow zero s id) id = Ret x.
Proof.
  intros Hid. unfold slice.index, slice.len.
  rewrite grow_elems by done. rewrite length_grown by lia.
  destruct (lookup_lt_is_Some_2 (grown zero s id) (Z.to_nat id)) as [x Hx].
  { rewrite length_grown by lia. lia. }
  exists x. split; [done|]. rewrite Hx.
  destruct (Z.leb_spec 0 id); [|lia].
  destruct (Z.ltb_spec id
    (Z.of_nat (Nat.max (length (slice.elems s)) (Z.to_nat (id + 1)))));
    [done|lia].
Qed.

End slices.

(* ================================================================== *)
(** * Properties of the form decoder *)
(* ================================================================== *)

Section loop.

(** The loop over [l1 ++ l2] is the loop over [l1], and then, if that
    one came to its end without error, the loop over [l2]. *)
Lemma ParseURLValues_from_app r l1 l2 :
  ParseURLValues_from r (l1 ++ l2)
  = match ParseURLValues_from r l1 with
    | Ret (r', None) => ParseURLValues_from r' l2
    | x => x
    end.
Proof.
  revert r. induction l1 as [|[k v] l1 IH]; intros r; simpl; [done|].
  destruct v as [|v0 vs]; [apply IH|].
  destruct (parseKey r k v0) as [[r' [e|]]|]; simpl; [done|apply IH|done].
Qed.

(** A key whose turn changes nothing can be taken out of the visit. *)
Lemma ParseURLValues_from_skip r l1 l2 k vs :
  (∀ r' v0 vs', vs = v0 :: vs' → parseKey r' k v0 = Ret (r', None)) →
  ParseURLValues_from r (l1 ++ (k, vs) :: l2)
  = ParseURLValues_from r (l1 ++ l2).
Proof.
  intros Hk. rewrite !ParseURLValues_from_app.
  destruct (ParseURLValues_from r l1) as [[r' [e|]]|]; [done| |done].
  simpl. destruct vs as [|v0 vs']; [done|].
  by rewrite (Hk r' v0 vs').
Qed.

End loop.



(** C10. Only the first value of a key is read, and a key with no value
    is passed over: in every order of visit, cutting the values of a key
    down to the first one, or taking out a key without values (be it
    [draw]), leaves the result of ParseURLValues as it is. *)
Theorem first_value_only l1 l2 k v vs :
  ParseURLValues (l1 ++ (k, v :: vs) :: l2)
  = ParseURLValues (l1 ++ (k, [v]) :: l2)
  ∧ ParseURLValues (l1 ++ (k, []) :: l2) = ParseURLValues (l1 ++ l2).
Proof.
  unfold ParseURLValues. split.
  - rewrite !ParseURLValues_from_app.
    by destruct (ParseURLValues_from zero_Request l1) as [[r' [e|]]|].
  - by apply ParseURLValues_from_skip.
Qed.




Section shapes.
Import strconv.

(** What the patterns match: nothing, or the key, a row of digits and
    the further groups. *)
Lemma orderRegexp_shape k :
  FindStringSubmatch orderRegexp k = [] ∨
  ∃ ds f, FindStringSubmatch orderRegexp k = [k; ds; f]
          ∧ Str.all Str.is_digit ds = true ∧ ds ≠ "".
Proof.
  unfold FindStringSubmatch.
  destruct (match_seq orderRegexp k) as [caps|] eqn:Hm; [right|by left].
  unfold orderRegexp in Hm. cbn [match_seq] in Hm.
  destruct (Str.strip_prefix "order[" k) as [s1|]; [|done].
  apply lazy_cap_sound in Hm as (ds & b & caps1 & -> & Hds & Hk & -> & Hl).
  cbn [match_seq] in Hk.
  destruct (Str.strip_prefix "][" b) as [s2|]; [|done].
  apply lazy_cap_sound in Hk as (f & b2 & caps2 & -> & Hf & Hk & -> & Hl2).
  cbn [match_seq] in Hk.
  destruct (Str.strip_prefix "]" b2) as [s3|]; [|done].
  destruct s3; [|done]. injection Hk as <-.
  exists ds, f. rewrite !str_app_nil_l. split; [done|]. split; [done|].
  intros ->. simpl in Hl. lia.
Qed.

Lemma columnRegexp_shape k :
  FindStringSubmatch columnRegexp k = [] ∨
  ∃ ds f rest, FindStringSubmatch columnRegexp k = [k; ds; f; rest]
               ∧ Str.all Str.is_digit ds = true ∧ ds ≠ "".
Proof.
  unfold FindStringSubmatch.
  destruct (match_seq columnRegexp k) as [caps|] eqn:Hm; [right|by left].
  unfold columnRegexp in Hm. cbn [match_seq] in Hm.
  destruct (Str.strip_prefix "columns[" k) as [s1|]; [|done].
  apply lazy_cap_sound in Hm as (ds & b & caps1 & -> & Hds & Hk & -> & Hl).
  cbn [match_seq] in Hk.
  destruct (Str.strip_prefix "][" b) as [s2|]; [|done].
  apply lazy_cap_sound in Hk as (f & b2 & caps2 & -> & Hf & Hk & -> & Hl2).
  cbn [match_seq] in Hk.
  destruct (Str.strip_prefix "]" b2) as [s3|]; [|done].
  apply lazy_cap_sound in Hk as (g & b3 & caps3 & -> & Hg & Hk & -> & Hl3).
  cbn [match_seq] in Hk. destruct b3; [|done]. injection Hk as <-.
  exists ds, f, g. rewrite !str_app_nil_l. split; [done|]. split; [done|].
  intros ->. simpl in Hl. lia.
Qed.

(** The index of a key of a family: the number its first group spells,
    when the pattern matches and the number fits an [int]. *)
Definition key_index (re : Regexp) (k : string) : option Z :=
  match FindStringSubmatch re k with
  | _ :: ds :: _ =>
      match Atoi ds with
      | (id, None) => Some id
      | _ => None
      end
  | _ => None
  end.

Lemma key_index_order k id :
  key_index orderRegexp k = Some id →
  ∃ ds f, FindStringSubmatch orderRegexp k = [k; ds; f]
          ∧ Atoi ds = (id, None) ∧ (0 <= id <= MaxInt)%Z.
Proof.
  unfold key_index.
  destruct (orderRegexp_shape k) as [->|(ds & f & -> & Hds & _)]; [done|].
  destruct (Atoi ds) as [n [e|]] eqn:Ha; [done|]. intros [= <-].
  exists ds, f. eauto using Atoi_digits.
Qed.

Lemma key_index_column k id :
  key_index columnRegexp k = Some id →
  ∃ ds f rest, FindStringSubmatch columnRegexp k = [k; ds; f; rest]
               ∧ Atoi ds = (id, None) ∧ (0 <= id <= MaxInt)%Z.
Proof.
  unfold key_index.
  destruct (columnRegexp_shape k) as [->|(ds & f & rest & -> & Hds & _)];
    [done|].
  destruct (Atoi ds) as [n [e|]] eqn:Ha; [done|]. intros [= <-].
  exists ds, f, rest. eauto using Atoi_digits.
Qed.

Lemma grow_Some {T} (zero : T) s id :
  (0 <= id < MaxInt)%Z → grow zero s id = Some (grown zero s id).
Proof.
  intros Hid. pose proof (grow_elems zero s id Hid) as He.
  destruct (grow zero s id) as [l|] eqn:Hg; [by simpl in He; subst|].
  exfalso. simpl in He.
  assert (length (grown zero s id) = 0%nat) as Hl by by rewrite <- He.
  rewrite length_grown in Hl by lia. lia.
Qed.

End shapes.

(** What growth leaves of a sequence [old] in [out], the entry [id]
    apart (that one is being written): the length is the larger of the
    old length and [id+1], every old entry is kept, every new entry is
    the zero value. *)
Definition grown_from {T} (zero : T) (old out : list T) (id : nat) : Prop :=
  length out = Nat.max (length old) (S id) ∧
  (∀ j, j ≠ id → (j < length old)%nat → out !! j = old !! j) ∧
  (∀ j, j ≠ id → (length old ≤ j < length out)%nat → out !! j = Some zero).

Section growth.
Import strconv.
Context {T : Type}.

Lemma grown_from_grown (zero : T) s id :
  (0 <= id)%Z →
  grown_from zero (slice.elems s) (grown zero s id) (Z.to_nat id).
Proof.
  intros Hid. split; [|split].
  - rewrite length_grown by done. lia.
  - intros j _ Hj. by apply grown_lookup_old.
  - intros j _ Hj. rewrite length_grown in Hj by done.
    apply grown_lookup_new. lia.
Qed.

Lemma grown_from_alter (zero : T) old out id (f : T → T) :
  grown_from zero old out id → grown_from zero old (alter f id out) id.
Proof.
  intros (Hl & Hold & Hnew). split; [|split].
  - by rewrite length_alter.
  - intros j Hne Hj. rewrite list_lookup_alter_ne by done. by apply Hold.
  - intros j Hne Hj. rewrite length_alter in Hj.
    rewrite list_lookup_alter_ne by done. by apply Hnew.
Qed.

End growth.

Local Ltac grown_done :=
  first [ apply grown_from_alter, grown_from_grown; lia
        | apply grown_from_grown; lia ].

Lemma parseColumn_grows cols k v id :
  key_index columnRegexp k = Some id → (id < strconv.MaxInt)%Z →
  ∃ out err, parseColumn cols k v = Ret (Some out, err)
             ∧ grown_from zero_Column (slice.elems cols) out (Z.to_nat id).
Proof.
  intros Hk Hid.
  apply key_index_column in Hk as (ds & f & rest & Hm & Ha & Hr).
  assert (0 <= id < strconv.MaxInt)%Z as Hid' by lia.
  unfold parseColumn. rewrite Hm. cbn [length Nat.ltb Nat.leb sub nth].
  rewrite Ha.
  destruct (String.eqb f "data").
  { rewrite update_grow by done. eexists _, _. split; [done|grown_done]. }
  destruct (String.eqb f "name").
  { rewrite update_grow by done. eexists _, _. split; [done|grown_done]. }
  destruct (String.eqb f "searchable").
  { destruct (String.eqb v "true"); rewrite update_grow by done;
      eexists _, _; (split; [done|grown_done]). }
  destruct (String.eqb f "orderable").
  { destruct (String.eqb v "true"); rewrite update_grow by done;
      eexists _, _; (split; [done|grown_done]). }
  destruct (String.eqb f "search").
  { destruct (index_grow zero_Column cols id Hid') as (c & _ & ->).
    cbn [mbind outcome_bind obind].
    destruct (parseSearch _ _ _) as [s e].
    rewrite update_grow by done.
    eexists _, _; (split; [done|grown_done]). }
  rewrite grow_Some by done. eexists _, _. split; [done|grown_done].
Qed.

Lemma parseOrder_grows ords k v id :
  key_index orderRegexp k = Some id → (id < strconv.MaxInt)%Z →
  ∃ out err, parseOrder ords k v = Ret (Some out, err)
             ∧ grown_from zero_Order (slice.elems ords) out (Z.to_nat id).
Proof.
  intros Hk Hid.
  apply key_index_order in Hk as (ds & f & Hm & Ha & Hr).
  assert (0 <= id < strconv.MaxInt)%Z as Hid' by lia.
  unfold parseOrder. rewrite Hm. cbn [length Nat.ltb Nat.leb sub nth].
  rewrite Ha.
  destruct (String.eqb f "column").
  { destruct (strconv.Atoi v) as [n e]. rewrite update_grow by done.
    eexists _, _. split; [done|grown_done]. }
  destruct (String.eqb f "dir").
  { destruct (String.eqb v "asc");
      [rewrite update_grow by done; eexists _, _; (split; [done|grown_done])|].
    destruct (String.eqb v "desc");
      [rewrite update_grow by done; eexists _, _; (split; [done|grown_done])|].
    rewrite grow_Some by done. eexists _, _. split; [done|grown_done]. }
  rewrite grow_Some by done. eexists _, _. split; [done|grown_done].
Qed.

(** C6, as amended. A columns or order key with an index [id] below the
    largest [int] (so that [id+1] is an [int]) grows the sequence to
    [id+1] elements when [id] is at least the length (and leaves the
    length alone otherwise); every entry written before keeps its value
    and every entry made on the way is the zero value. *)
Theorem sparse_index_growth (cols : slice.t Column) (ords : slice.t Order)
    (k v : string) (id : Z) :
  (id < strconv.MaxInt)%Z →
  (key_index columnRegexp k = Some id →
   ∃ out err, parseColumn cols k v = Ret (Some out, err) ∧
     grown_from zero_Column (slice.elems cols) out (Z.to_nat id) ∧
     ((slice.len cols <= id)%Z → Z.of_nat (length out) = (id + 1)%Z)) ∧
  (key_index orderRegexp k = Some id →
   ∃ out err, parseOrder ords k v = Ret (Some out, err) ∧
     grown_from zero_Order (slice.elems ords) out (Z.to_nat id) ∧
     ((slice.len ords <= id)%Z → Z.of_nat (length out) = (id + 1)%Z)).
Proof.
  intros Hid. split; intros Hk.
  - pose proof Hk as Hk'. apply key_index_column in Hk' as (?&?&?&_&_&?).
    destruct (parseColumn_grows cols k v id Hk Hid) as (out & err & -> & Hg).
    exists out, err. split; [done|]. split; [done|].
    destruct Hg as (-> & _). unfold slice.len. lia.
  - pose proof Hk as Hk'. apply key_index_order in Hk' as (?&?&_&_&?).
    destruct (parseOrder_grows ords k v id Hk Hid) as (out & err & -> & Hg).
    exists out, err. split; [done|]. split; [done|].
    destruct Hg as (-> & _). unfold slice.len. lia.
Qed.

Lemma sparse_index_growth_witness :
  (∃ out err,
     parseColumn (Some [mkColumn "a" "" true false zero_Search])
       "columns[3][name]" "x" = Ret (Some out, err) ∧
     grown_from zero_Column [mkColumn "a" "" true false zero_Search] out 3 ∧
     ((1 <= 3)%Z → Z.of_nat (length out) = 4%Z)) ∧
  (∃ out err,
     parseOrder (Some [mkOrder 1 "desc"]) "order[2][dir]" "asc"
       = Ret (Some out, err) ∧
     grown_from zero_Order [mkOrder 1 "desc"] out 2 ∧
     ((1 <= 2)%Z → Z.of_nat (length out) = 3%Z)).
Proof.
  split.
  - apply (sparse_index_growth
             (Some [mkColumn "a" "" true false zero_Search]) None
             "columns[3][name]" "x" 3); reflexivity.
  - apply (sparse_index_growth None (Some [mkOrder 1 "desc"])
             "order[2][dir]" "asc" 2); reflexivity.
Defined.

(** C6 as the spec has it fails at the largest index an [int] can hold:
    in [id+1 > len(in)] the sum wraps around to the least [int], the
    sequence (here the empty one, so the index is at least the length)
    is not grown to [id+1] elements, and the decoding ends in a
    run-time panic at [out[id]]. *)
Lemma sparse_index_growth_counterexample :
  let k := "columns[9223372036854775807][data]" in
  key_index columnRegexp k = Some strconv.MaxInt ∧
  (slice.len (@slice.nil Column) <= strconv.MaxInt)%Z ∧
  grow zero_Column slice.nil strconv.MaxInt = slice.nil ∧
  parseColumn slice.nil k "x" = Panic ∧
  ParseURLValues [(k, ["x"])] = Panic.
Proof.
  cbv zeta. split; [vm_compute; reflexivity|].
  split; [unfold slice.len, strconv.MaxInt; simpl; lia|].
  split; [vm_compute; reflexivity|].
  split; vm_compute; reflexivity.
Qed.

Section keys.
Import strconv.

Lemma Atoi_nonempty ds id : Atoi ds = (id, None) → ds ≠ "".
Proof. by intros H ->. Qed.

(** The tests of the [switch] on a key that begins with [columns[] or
    with [order[]. *)
Lemma switch_columns s :
  let k := "columns[" +:+ s in
  String.eqb k "draw" = false ∧ String.eqb k "start" = false ∧
  String.eqb k "length" = false ∧ Str.HasPrefix k "search" = false ∧
  Str.HasPrefix k "order" = false ∧ Str.HasPrefix k "column" = true.
Proof. rewrite !str_app_cons. by repeat split. Qed.

Lemma switch_order s :
  let k := "order[" +:+ s in
  String.eqb k "draw" = false ∧ String.eqb k "start" = false ∧
  String.eqb k "length" = false ∧ Str.HasPrefix k "search" = false ∧
  Str.HasPrefix k "order" = true.
Proof. rewrite !str_app_cons. by repeat split. Qed.

Lemma parseKey_columns r s v :
  parseKey r ("columns[" +:+ s) v
  = '(c, err) ← parseColumn (Request_Columns r) ("columns[" +:+ s) v;
    Ret (set_Request_Columns c r, err).
Proof.
  destruct (switch_columns s) as (H1 & H2 & H3 & H4 & H5 & H6).
  unfold parseKey. by rewrite H1, H2, H3, H4, H5, H6.
Qed.

Lemma parseKey_order r s v :
  parseKey r ("order[" +:+ s) v
  = '(o, err) ← parseOrder (Request_Order r) ("order[" +:+ s) v;
    Ret (set_Request_Order o r, err).
Proof.
  destruct (switch_order s) as (H1 & H2 & H3 & H4 & H5).
  unfold parseKey. by rewrite H1, H2, H3, H4, H5.
Qed.

Lemma columns_key ds rest caps :
  Str.all Str.is_digit ds = true → ds ≠ "" →
  match_seq [Cap dot 1; Lit "]"; Cap dot 0] rest = Some caps →
  FindStringSubmatch columnRegexp ("columns[" +:+ ds +:+ "][" +:+ rest)
  = ("columns[" +:+ ds +:+ "][" +:+ rest) :: ds :: caps.
Proof. apply match_index_key. Qed.

Lemma order_key ds rest caps :
  Str.all Str.is_digit ds = true → ds ≠ "" →
  match_seq [Cap dot 1; Lit "]"] rest = Some caps →
  FindStringSubmatch orderRegexp ("order[" +:+ ds +:+ "][" +:+ rest)
  = ("order[" +:+ ds +:+ "][" +:+ rest) :: ds :: caps.
Proof. apply match_index_key. Qed.

End keys.

Section booleans.
Import strconv.

Lemma parseSearch_regex s v :
  parseSearch s "search[regex]" v
  = (set_Search_Regex (String.eqb v "true") s, None).
Proof. unfold parseSearch. simpl. by destruct (String.eqb v "true"). Qed.

(** A column key with a good index and a field the pattern accepts:
    the entry [id] of the grown sequence is rewritten by [upd]. *)
Definition column_written (r : Request) (id : Z) (upd : Column → Column)
    : outcome (Request * option error) :=
  Ret (set_Request_Columns
         (Some (alter upd (Z.to_nat id)
                  (grown zero_Column (Request_Columns r) id))) r, None).

Lemma parseKey_searchable r ds id v :
  Str.all Str.is_digit ds = true → Atoi ds = (id, None) →
  (id < MaxInt)%Z →
  parseKey r ("columns[" +:+ ds +:+ "][searchable]") v
  = column_written r id (set_Column_Searchable (String.eqb v "true")).
Proof.
  intros Hds Ha Hid. pose proof (Atoi_digits _ _ Hds Ha) as Hr.
  change "][searchable]" with ("][" +:+ "searchable]").
  rewrite parseKey_columns. unfold parseColumn.
  rewrite (columns_key ds "searchable]" ["searchable"; ""] Hds
             (Atoi_nonempty _ _ Ha) eq_refl).
  cbn [length Nat.ltb Nat.leb sub nth]. rewrite Ha.
  change (String.eqb "searchable" "data") with false.
  change (String.eqb "searchable" "name") with false.
  change (String.eqb "searchable" "searchable") with true.
  cbv iota.
  destruct (String.eqb v "true"); by rewrite update_grow by lia.
Qed.

Lemma parseKey_orderable r ds id v :
  Str.all Str.is_digit ds = true → Atoi ds = (id, None) →
  (id < MaxInt)%Z →
  parseKey r ("columns[" +:+ ds +:+ "][orderable]") v
  = column_written r id (set_Column_Orderable (String.eqb v "true")).
Proof.
  intros Hds Ha Hid. pose proof (Atoi_digits _ _ Hds Ha) as Hr.
  change "][orderable]" with ("][" +:+ "orderable]").
  rewrite parseKey_columns. unfold parseColumn.
  rewrite (columns_key ds "orderable]" ["orderable"; ""] Hds
             (Atoi_nonempty _ _ Ha) eq_refl).
  cbn [length Nat.ltb Nat.leb sub nth]. rewrite Ha.
  change (String.eqb "orderable" "data") with false.
  change (String.eqb "orderable" "name") with false.
  change (String.eqb "orderable" "searchable") with false.
  change (String.eqb "orderable" "orderable") with true.
  cbv iota.
  destruct (String.eqb v "true"); by rewrite update_grow by lia.
Qed.

Lemma parseKey_column_search_regex r ds id v :
  Str.all Str.is_digit ds = true → Atoi ds = (id, None) →
  (id < MaxInt)%Z →
  ∃ c, grown zero_Column (Request_Columns r) id !! Z.to_nat id = Some c ∧
    parseKey r ("columns[" +:+ ds +:+ "][search][regex]") v
    = column_written r id
        (set_Column_Search
           (set_Search_Regex (String.eqb v "true") (Column_Search c))).
Proof.
  intros Hds Ha Hid. pose proof (Atoi_digits _ _ Hds Ha) as Hr.
  destruct (index_grow zero_Column (Request_Columns r) id) as (c & Hc & Hi);
    [lia|].
  exists c. split; [done|].
  change "][search][regex]" with ("][" +:+ "search][regex]").
  rewrite parseKey_columns. unfold parseColumn.
  rewrite (columns_key ds "search][regex]" ["search"; "[regex]"] Hds
             (Atoi_nonempty _ _ Ha) eq_refl).
  cbn [length Nat.ltb Nat.leb sub nth]. rewrite Ha.
  change (String.eqb "search" "data") with false.
  change (String.eqb "search" "name") with false.
  change (String.eqb "search" "searchable") with false.
  change (String.eqb "search" "orderable") with false.
  change (String.eqb "search" "search") with true.
  cbv iota. rewrite Hi. cbn [mbind outcome_bind obind].
  change ("search" +:+ "[regex]") with "search[regex]".
  rewrite parseSearch_regex. by rewrite update_grow by lia.
Qed.

End booleans.

Lemma column_written_entry r id upd :
  (0 <= id)%Z →
  ∃ c, grown zero_Column (Request_Columns r) id !! Z.to_nat id = Some c ∧
       ∀ r', column_written r id upd = Ret (r', None) →
             slice.elems (Request_Columns r') !! Z.to_nat id = Some (upd c).
Proof.
  intros Hid.
  destruct (lookup_lt_is_Some_2 (grown zero_Column (Request_Columns r) id)
              (Z.to_nat id)) as [c Hc].
  { rewrite length_grown by done. lia. }
  exists c. split; [done|]. intros r' [= <-]. simpl.
  by rewrite list_lookup_alter_eq, Hc.
Qed.

(** C7. Each of the four boolean fields of the form is true exactly when
    the value is the string [true]; any other value gives false, and the
    key is decoded without error. (The index [ds] of a columns key is a
    row of digits that spells an [int] below the largest one.) *)
Theorem boolean_coercion (r : Request) (ds : string) (id : Z) (v : string) :
  Str.all Str.is_digit ds = true → strconv.Atoi ds = (id, None) →
  (id < strconv.MaxInt)%Z →
  (∃ r', parseKey r "search[regex]" v = Ret (r', None) ∧
         (Search_Regex (Request_Search r') = true ↔ v = "true")) ∧
  (∃ r' c, parseKey r ("columns[" +:+ ds +:+ "][searchable]") v
             = Ret (r', None) ∧
           slice.elems (Request_Columns r') !! Z.to_nat id = Some c ∧
           (Column_Searchable c = true ↔ v = "true")) ∧
  (∃ r' c, parseKey r ("columns[" +:+ ds +:+ "][orderable]") v
             = Ret (r', None) ∧
           slice.elems (Request_Columns r') !! Z.to_nat id = Some c ∧
           (Column_Orderable c = true ↔ v = "true")) ∧
  (∃ r' c, parseKey r ("columns[" +:+ ds +:+ "][search][regex]") v
             = Ret (r', None) ∧
           slice.elems (Request_Columns r') !! Z.to_nat id = Some c ∧
           (Search_Regex (Column_Search c) = true ↔ v = "true")).
Proof.
  intros Hds Ha Hid. pose proof (Atoi_digits _ _ Hds Ha) as [Hr _].
  split; [|split; [|split]].
  - eexists. split.
    + unfold parseKey. simpl. rewrite parseSearch_regex. reflexivity.
    + simpl. apply String.eqb_eq.
  - rewrite (parseKey_searchable r ds id v) by done.
    destruct (column_written_entry r id
                (set_Column_Searchable (String.eqb v "true")) Hr)
      as (c & _ & Hc).
    eexists _, _. split; [reflexivity|]. split; [by apply Hc|].
    simpl. apply String.eqb_eq.
  - rewrite (parseKey_orderable r ds id v) by done.
    destruct (column_written_entry r id
                (set_Column_Orderable (String.eqb v "true")) Hr)
      as (c & _ & Hc).
    eexists _, _. split; [reflexivity|]. split; [by apply Hc|].
    simpl. apply String.eqb_eq.
  - destruct (parseKey_column_search_regex r ds id v Hds Ha Hid)
      as (c0 & Hc0 & ->).
    destruct (column_written_entry r id
                (set_Column_Search
                   (set_Search_Regex (String.eqb v "true")
                      (Column_Search c0))) Hr)
      as (c & _ & Hc).
    eexists _, _. split; [reflexivity|]. split; [by apply Hc|].
    simpl. apply String.eqb_eq.
Qed.

Lemma boolean_coercion_witness :
  (∃ r', parseKey zero_Request "search[regex]" "false" = Ret (r', None) ∧
         (Search_Regex (Request_Search r') = true ↔ "false" = "true")) ∧
  (∃ r' c, parseKey zero_Request ("columns[" +:+ "1" +:+ "][searchable]")
             "false" = Ret (r', None) ∧
           slice.elems (Request_Columns r') !! Z.to_nat 1 = Some c ∧
           (Column_Searchable c = true ↔ "false" = "true")) ∧
  (∃ r' c, parseKey zero_Request ("columns[" +:+ "1" +:+ "][orderable]")
             "false" = Ret (r', None) ∧
           slice.elems (Request_Columns r') !! Z.to_nat 1 = Some c ∧
           (Column_Orderable c = true ↔ "false" = "true")) ∧
  (∃ r' c, parseKey zero_Request ("columns[" +:+ "1" +:+ "][search][regex]")
             "false" = Ret (r', None) ∧
           slice.elems (Request_Columns r') !! Z.to_nat 1 = Some c ∧
           (Search_Regex (Column_Search c) = true ↔ "false" = "true")).
Proof.
  apply (boolean_coercion zero_Request "1" 1 "false"); reflexivity.
Defined.

Lemma alter_same {A} (f : A → A) (l : list A) (i : nat) (x : A) :
  l !! i = Some x → f x = x → alter f i l = l.
Proof.
  intros Hl Hf. apply list_eq. intros j.
  destruct (decide (i = j)) as [<-|Hne].
  - by rewrite list_lookup_alter_eq, Hl; simpl; rewrite Hf.
  - by rewrite list_lookup_alter_ne.
Qed.

Section direction.
Import strconv.

(** The direction that [order[ds][dir]] leaves in an entry whose
    direction was [old]. *)
Definition dir_after (old : OrderDirection) (v : string) : OrderDirection :=
  if String.eqb v "asc" then OrderAscending
  else if String.eqb v "desc" then OrderDescending
  else old.

Lemma parseKey_dir r ds id v :
  Str.all Str.is_digit ds = true → Atoi ds = (id, None) →
  (id < MaxInt)%Z →
  ∃ o, grown zero_Order (Request_Order r) id !! Z.to_nat id = Some o ∧
    parseKey r ("order[" +:+ ds +:+ "][dir]") v
    = Ret (set_Request_Order
             (Some (alter (set_Order_Dir (dir_after (Order_Dir o) v))
                      (Z.to_nat id)
                      (grown zero_Order (Request_Order r) id))) r, None).
Proof.
  intros Hds Ha Hid. pose proof (Atoi_digits _ _ Hds Ha) as Hr.
  destruct (index_grow zero_Order (Request_Order r) id) as (o & Ho & _);
    [lia|].
  exists o. split; [done|].
  change "][dir]" with ("][" +:+ "dir]").
  rewrite parseKey_order. unfold parseOrder.
  rewrite (order_key ds "dir]" ["dir"] Hds (Atoi_nonempty _ _ Ha) eq_refl).
  cbn [length Nat.ltb Nat.leb sub nth]. rewrite Ha.
  change (String.eqb "dir" "column") with false.
  change (String.eqb "dir" "dir") with true.
  cbv iota. unfold dir_after.
  destruct (String.eqb v "asc"); [by rewrite update_grow by lia|].
  destruct (String.eqb v "desc"); [by rewrite update_grow by lia|].
  rewrite grow_Some by lia. cbn [mbind outcome_bind obind].
  rewrite (alter_same _ _ _ o); [done|done|by destruct o].
Qed.

End direction.

(** C3, as amended. [order[ds][dir]] with the value [asc] gives the
    ascending and with [desc] the descending direction; any other value
    leaves the direction of the entry as it was, and is no error. For an
    entry made by this key that is the zero value of OrderDirection, the
    empty string, which is not OrderAscending. *)
Theorem direction_fallback (r : Request) (ds : string) (id : Z) (v : string) :
  Str.all Str.is_digit ds = true → strconv.Atoi ds = (id, None) →
  (id < strconv.MaxInt)%Z →
  ∃ r' o,
    parseKey r ("order[" +:+ ds +:+ "][dir]") v = Ret (r', None) ∧
    slice.elems (Request_Order r') !! Z.to_nat id = Some o ∧
    (v = "asc" → Order_Dir o = OrderAscending) ∧
    (v = "desc" → Order_Dir o = OrderDescending) ∧
    (v ≠ "asc" → v ≠ "desc" →
     (∀ o0, slice.elems (Request_Order r) !! Z.to_nat id = Some o0 →
            Order_Dir o = Order_Dir o0) ∧
     ((slice.len (Request_Order r) <= id)%Z →
      Order_Dir o = Order_Dir zero_Order ∧ Order_Dir o = "" ∧
      Order_Dir o ≠ OrderAscending)).
Proof.
  intros Hds Ha Hid. pose proof (Atoi_digits _ _ Hds Ha) as [Hr _].
  destruct (parseKey_dir r ds id v Hds Ha Hid) as (o0 & Ho0 & ->).
  eexists _, _. split; [reflexivity|]. split.
  { simpl. by rewrite list_lookup_alter_eq, Ho0. }
  simpl. unfold dir_after. split; [by intros ->|]. split; [by intros ->|].
  intros H1 H2. apply String.eqb_neq in H1, H2. rewrite H1, H2. split.
  - intros o1 Ho1. pose proof (lookup_lt_Some _ _ _ Ho1) as Hlt.
    rewrite grown_lookup_old in Ho0 by done. congruence.
  - intros Hlen. unfold slice.len in Hlen.
    rewrite grown_lookup_new in Ho0 by lia. by injection Ho0 as <-.
Qed.

Lemma direction_fallback_witness :
  ∃ r' o,
    parseKey zero_Request ("order[" +:+ "0" +:+ "][dir]") "up"
      = Ret (r', None) ∧
    slice.elems (Request_Order r') !! Z.to_nat 0 = Some o ∧
    ("up" = "asc" → Order_Dir o = OrderAscending) ∧
    ("up" = "desc" → Order_Dir o = OrderDescending) ∧
    ("up" ≠ "asc" → "up" ≠ "desc" →
     (∀ o0, slice.elems (Request_Order zero_Request) !! Z.to_nat 0 = Some o0 →
            Order_Dir o = Order_Dir o0) ∧
     ((slice.len (Request_Order zero_Request) <= 0)%Z →
      Order_Dir o = Order_Dir zero_Order ∧ Order_Dir o = "" ∧
      Order_Dir o ≠ OrderAscending)).
Proof.
  apply (direction_fallback zero_Request "0" 0 "up"); reflexivity.
Defined.

(** C3 as the spec has it fails: after [order[0][dir]=up] the direction
    of entry 0 is the empty string, not OrderAscending. *)
Lemma direction_fallback_counterexample :
  ∃ r, ParseURLValues [("order[0][dir]", ["up"])] = Ret (r, None) ∧
       Order_Dir <$> slice.elems (Request_Order r) !! 0%nat = Some "" ∧
       Order_Dir <$> slice.elems (Request_Order r) !! 0%nat
         ≠ Some OrderAscending.
Proof. eexists. split; [reflexivity|]. split; [reflexivity|done]. Qed.

(* ------------------------------------------------------------------ *)
(** ** Failures *)

(** The keys of an integer field: the three bare keys, and
    [order[ds][column]] for an index [ds] that is a row of digits spelling
    an [int] below the largest one. *)
Definition int_field_key (k : string) : Prop :=
  k = "draw" ∨ k = "start" ∨ k = "length" ∨
  ∃ ds id, k = "order[" +:+ ds +:+ "][column]" ∧
           Str.all Str.is_digit ds = true ∧
           strconv.Atoi ds = (id, None) ∧ (id < strconv.MaxInt)%Z.

(** The columns and order keys with an index that is no number: between
    the first brackets stands [x], empty or with a character that is no
    digit. *)
Definition bad_index_key (k : string) : Prop :=
  ∃ pre x tail, (pre = "columns[" ∨ pre = "order[") ∧
                k = pre +:+ x +:+ String "]" tail ∧
                Str.all no_rbracket x = true ∧
                (Str.all Str.is_digit x = false ∨ x = "").

(** The decoding of a visit that comes to the key [k] with first value
    [v] ends there. What follows the key is not read: the outcome is
    that of the visit cut off after the key. The decoding never
    succeeds. And when the keys [l1] before [k] have been decoded into
    [r1], the outcome is that of the turn of the loop for [k] from
    [r1]: its Request, and its error, which is of the kind [P]. *)
Definition aborts_with (l1 l2 : list (string * list string))
    (k v : string) (vs : list string) (P : error → Prop) : Prop :=
  ParseURLValues (l1 ++ (k, v :: vs) :: l2)
  = ParseURLValues (l1 ++ [(k, v :: vs)]) ∧
  (∀ r, ParseURLValues (l1 ++ (k, v :: vs) :: l2) ≠ Ret (r, None)) ∧
  (∀ r1, ParseURLValues l1 = Ret (r1, None) →
         ∃ r' e, parseKey r1 k v = Ret (r', Some e) ∧
                 ParseURLValues (l1 ++ (k, v :: vs) :: l2)
                 = Ret (r', Some e) ∧ P e).

Lemma aborts_with_intro l1 l2 k v vs (P : error → Prop) :
  (∀ r, ∃ r' e, parseKey r k v = Ret (r', Some e) ∧ P e) →
  aborts_with l1 l2 k v vs P.
Proof.
  intros Hk. unfold aborts_with, ParseURLValues.
  rewrite !ParseURLValues_from_app. split; [|split].
  - destruct (ParseURLValues_from zero_Request l1)
      as [[r1 [e|]]|]; [done| |done].
    simpl. by destruct (Hk r1) as (r' & e & -> & _).
  - intros r. destruct (ParseURLValues_from zero_Request l1)
      as [[r1 [e|]]|]; [done| |done].
    simpl. destruct (Hk r1) as (r' & e & -> & _). done.
  - intros r1 ->. simpl. destruct (Hk r1) as (r' & e & Hp & He).
    exists r', e. rewrite Hp. by repeat split.
Qed.

Lemma parseKey_int_field r k v :
  int_field_key k → numeric v = false →
  ∃ r' e, parseKey r k v = Ret (r', Some e) ∧
          ∃ x, e = NumError "Atoi" v x.
Proof.
  intros Hk Hv. destruct (Atoi_not_numeric v Hv) as (n & x & Hn).
  destruct Hk as [->|[->|[->|(ds & id & -> & Hds & Ha & Hid)]]].
  - unfold parseKey. cbn [String.eqb Ascii.eqb Bool.eqb]. rewrite Hn.
    eexists _, _. split; [reflexivity|by exists x].
  - unfold parseKey. cbn [String.eqb Ascii.eqb Bool.eqb]. rewrite Hn.
    eexists _, _. split; [reflexivity|by exists x].
  - unfold parseKey. cbn [String.eqb Ascii.eqb Bool.eqb]. rewrite Hn.
    eexists _, _. split; [reflexivity|by exists x].
  - pose proof (Atoi_digits _ _ Hds Ha) as Hr.
    change "][column]" with ("][" +:+ "column]").
    rewrite parseKey_order. unfold parseOrder.
    rewrite (order_key ds "column]" ["column"] Hds (Atoi_nonempty _ _ Ha)
               eq_refl).
    cbn [length Nat.ltb Nat.leb sub nth]. rewrite Ha.
    change (String.eqb "column" "column") with true. cbv iota.
    rewrite Hn. rewrite update_grow by lia.
    eexists _, _. split; [reflexivity|by exists x].
Qed.

Lemma parseKey_bad_index r k v :
  bad_index_key k → parseKey r k v = Ret (r, Some ErrNotEnoughFields).
Proof.
  intros (pre & x & tail & [-> | ->] & -> & Hb & Hx).
  - rewrite parseKey_columns. unfold parseColumn, columnRegexp.
    rewrite (match_index_key_not_numeric "columns[" _ x tail Hb Hx).
    by destruct r.
  - rewrite parseKey_order. unfold parseOrder, orderRegexp.
    rewrite (match_index_key_not_numeric "order[" _ x tail Hb Hx).
    by destruct r.
Qed.

(** C8, as amended. The decoding ends at the first key that gives an
    error and reads no further key: the outcome is that of the visit
    cut off after that key, the Request and the error of the turn of
    the loop for that key. A value that is no number for [draw],
    [start], [length] or [order[i][column]] (for an index [i] below the
    largest [int]) gives the parse error of strconv; a columns or order
    key with an index that is no number is not matched by its pattern
    and gives ErrNotEnoughFields, with the Request as it was. *)
Theorem nonnumeric_fails (l1 l2 : list (string * list string))
    (k v : string) (vs : list string) :
  (int_field_key k → numeric v = false →
   aborts_with l1 l2 k v vs (λ e, ∃ x, e = NumError "Atoi" v x)) ∧
  (bad_index_key k →
   aborts_with l1 l2 k v vs (λ e, e = ErrNotEnoughFields) ∧
   ∀ r, parseKey r k v = Ret (r, Some ErrNotEnoughFields)).
Proof.
  split.
  - intros Hk Hv. apply aborts_with_intro. intros r.
    by apply parseKey_int_field.
  - intros Hk. split; [|intros r; by apply parseKey_bad_index].
    apply aborts_with_intro. intros r.
    rewrite parseKey_bad_index by done. by eexists _, _.
Qed.

Lemma nonnumeric_fails_witness :
  aborts_with [("start", ["0"])] [("length", ["10"])] "draw" "abc" []
    (λ e, ∃ x, e = NumError "Atoi" "abc" x) ∧
  aborts_with [("start", ["0"])] [("length", ["10"])]
    ("order[" +:+ "1" +:+ "][column]") "x1" []
    (λ e, ∃ x, e = NumError "Atoi" "x1" x) ∧
  aborts_with [("draw", ["1"])] [("start", ["0"])]
    ("columns[" +:+ "abc" +:+ String "]" "[data]") "x" []
    (λ e, e = ErrNotEnoughFields).
Proof.
  split; [|split].
  - apply (nonnumeric_fails [("start", ["0"])] [("length", ["10"])]
             "draw" "abc" []); [by left|reflexivity].
  - apply (nonnumeric_fails [("start", ["0"])] [("length", ["10"])]
             ("order[" +:+ "1" +:+ "][column]") "x1" []); [|reflexivity].
    right; right; right. exists "1", 1%Z.
    split; [reflexivity|]. split; [reflexivity|]. split; reflexivity.
  - apply (nonnumeric_fails [("draw", ["1"])] [("start", ["0"])]
             ("columns[" +:+ "abc" +:+ String "]" "[data]") "x" []).
    exists "columns[", "abc", "[data]".
    split; [by left|]. split; [reflexivity|]. split; [reflexivity|].
    by left.
Defined.

(** Whether an error is a parse error of strconv. *)
Definition is_parse_failure (e : error) : bool :=
  match e with
  | NumError _ _ _ => true
  | _ => false
  end.

(** C8 as the spec has it fails: the key [columns[abc][data]] does end
    the decoding, but with ErrNotEnoughFields, which is no parse error
    of strconv. *)
Lemma nonnumeric_index_counterexample :
  ∃ r e, ParseURLValues [("columns[abc][data]", ["x"])] = Ret (r, Some e) ∧
         e = ErrNotEnoughFields ∧ is_parse_failure e = false.
Proof. eexists _, _. split; [reflexivity|]. by split. Qed.

(* ================================================================== *)
(** * Properties of the row codec *)
(* ================================================================== *)

Section itoa.
Import strconv.

Lemma Itoa_inj (i j : Z) : Itoa i = Itoa j → i = j.
Proof.
  unfold Itoa. intros H. apply DecimalZ.to_int_inj.
  assert (∀ z, NilZero.int_of_string (NilZero.string_of_int (Z.to_int z))
               = Some (Z.to_int z)) as Hisi.
  { intros z. apply NilZero.isi; destruct z as [|p|p]; simpl;
      try done; intros [= Hp]; by apply (DecimalPos.Unsigned.to_uint_nonnil p). }
  apply (f_equal NilZero.int_of_string) in H.
  rewrite !Hisi in H. by injection H.
Qed.

End itoa.

Section array_rows.
Import strconv.

Lemma elements_strings (cur l : list string) :
  jsn.elements jsn.unmarshal_string "" cur (JStr <$> l) = (l, jsn.Fine).
Proof.
  revert cur. induction l as [|x l IH]; intros cur; simpl; [done|].
  by rewrite IH.
Qed.

Lemma range_rowData_other l i m k :
  (∀ j, (j < length l)%nat → k ≠ Itoa (i + Z.of_nat j)) →
  range_rowData i l m !! k = m !! k.
Proof.
  revert i m. induction l as [|x l IH]; intros i m Hk; simpl; [done|].
  rewrite IH.
  - apply lookup_insert_ne. intros Heq.
    apply (Hk 0%nat); [simpl; lia|]. by rewrite Z.add_0_r.
  - intros j Hj. replace (i + 1 + Z.of_nat j)%Z with (i + Z.of_nat (S j))%Z
      by lia.
    apply Hk. simpl. lia.
Qed.

Lemma range_rowData_at l i m (j : nat) v :
  l !! j = Some v → range_rowData i l m !! Itoa (i + Z.of_nat j) = Some v.
Proof.
  revert i m j. induction l as [|x l IH]; intros i m j Hj; [done|].
  destruct j as [|j]; cbn [range_rowData].
  - injection Hj as ->. rewrite range_rowData_other.
    + change (Z.of_nat 0) with 0%Z. rewrite Z.add_0_r.
      apply lookup_insert_eq.
    + intros j _ Heq. apply Itoa_inj in Heq. lia.
  - replace (i + Z.of_nat (S j))%Z with (i + 1 + Z.of_nat j)%Z by lia.
    by apply IH.
Qed.

Lemma range_rowData_size l i m :
  (∀ j, (j < length l)%nat → m !! Itoa (i + Z.of_nat j) = None) →
  size (range_rowData i l m) = (length l + size m)%nat.
Proof.
  revert i m. induction l as [|x l IH]; intros i m Hm; simpl; [done|].
  rewrite IH.
  - rewrite map_size_insert_None; [lia|].
    rewrite <- (Z.add_0_r i). apply (Hm 0%nat). simpl. lia.
  - intros j Hj. rewrite lookup_insert_ne.
    + replace (i + 1 + Z.of_nat j)%Z with (i + Z.of_nat (S j))%Z by lia.
      apply Hm. simpl. lia.
    + intros Heq. apply Itoa_inj in Heq. lia.
Qed.

Lemma range_rowData_keys l i m k :
  is_Some (range_rowData i l m !! k) →
  is_Some (m !! k) ∨
  ∃ j : nat, (j < length l)%nat ∧ k = Itoa (i + Z.of_nat j).
Proof.
  revert i m. induction l as [|x l IH]; intros i m; simpl; [by left|].
  intros Hk. apply IH in Hk as [Hk|(j & Hj & ->)].
  - destruct (decide (Itoa i = k)) as [<-|Hne].
    + right. exists 0%nat. split; [lia|].
      change (Z.of_nat 0) with 0%Z. by rewrite Z.add_0_r.
    + left. by rewrite lookup_insert_ne in Hk.
  - right. exists (S j). split; [lia|]. f_equal. lia.
Qed.

(** The array shape, into any receiver: the data are the elements
    under their positions, the other fields stay as they are. *)
Lemma UnmarshalJSON_array (r0 : Row) (l : list string) :
  UnmarshalJSON r0 (JArr (JStr <$> l))
  = (mkRow (range_rowData 0 l ∅) (Row_RowID r0) (Row_RowClass r0)
       (Row_RowData r0) (Row_RowAttr r0), None).
Proof.
  unfold UnmarshalJSON, jsn.unmarshal_slice. simpl slice.elems.
  by rewrite elements_strings.
Qed.

End array_rows.

(** C4. A JSON array of [n] strings is taken by the array reading, which
    comes first: the row it gives has as data exactly the keys [Itoa 0]
    to [Itoa (n-1)], each with the element at that place, and the four
    other fields (of a fresh Row) are empty. *)
Theorem array_row_decode (l : list string) :
  ∃ r, UnmarshalJSON zero_Row (JArr (JStr <$> l)) = (r, None) ∧
    (∀ (i : nat) v, l !! i = Some v →
                    Row_Data r !! strconv.Itoa (Z.of_nat i) = Some v) ∧
    (∀ k, is_Some (Row_Data r !! k) →
          ∃ i : nat, (i < length l)%nat ∧ k = strconv.Itoa (Z.of_nat i)) ∧
    size (Row_Data r) = length l ∧
    Row_RowID r = "" ∧ Row_RowClass r = "" ∧
    Row_RowData r = ∅ ∧ Row_RowAttr r = ∅.
Proof.
  eexists. split; [apply UnmarshalJSON_array|]. simpl.
  split; [|split; [|split; [|done]]].
  - intros i v Hi. by apply (range_rowData_at l 0 ∅ i v).
  - intros k Hk. apply range_rowData_keys in Hk as [Hk|Hk]; [|done].
    rewrite lookup_empty in Hk. by destruct Hk.
  - rewrite range_rowData_size; [by rewrite map_size_empty; lia|].
    intros. apply lookup_empty.
Qed.

Section members.
Import jsn.
Context {A : Type} (step : A → string → json → A * derr).

(** A step that never ends with the error of an UnmarshalJSON. *)
Definition never_fatal : Prop := ∀ c k v, is_fatal (step c k v).2 = false.

Lemma join_not_fatal d d' :
  is_fatal d = false → is_fatal d' = false → is_fatal (join d d') = false.
Proof. by destruct d, d'. Qed.

Lemma members_cons k v ms cur d :
  never_fatal → is_fatal d = false →
  members step ((k, v) :: ms) cur d
  = members step ms (step cur k v).1 (join d (step cur k v).2).
Proof.
  intros Hs Hd. simpl. pose proof (Hs cur k v) as Hf.
  destruct (step cur k v) as [c' d']. simpl in *.
  by rewrite (join_not_fatal _ _ Hd Hf).
Qed.

Lemma members_not_fatal ms cur d :
  never_fatal → is_fatal d = false →
  is_fatal (members step ms cur d).2 = false.
Proof.
  intros Hs. revert cur d. induction ms as [|[k v] ms IH]; intros cur d Hd.
  - done.
  - rewrite members_cons by done. apply IH.
    by apply join_not_fatal.
Qed.

Lemma members_app ms1 ms2 cur d :
  never_fatal → is_fatal d = false →
  members step (ms1 ++ ms2) cur d
  = members step ms2 (members step ms1 cur d).1
      (members step ms1 cur d).2.
Proof.
  intros Hs. revert cur d. induction ms1 as [|[k v] ms1 IH]; intros cur d Hd.
  - done.
  - rewrite <- app_comm_cons, !members_cons by done.
    apply IH. by apply join_not_fatal.
Qed.

(** A part [proj] of the destination that only the keys in [sel] touch
    is left alone by members with other keys. *)
Lemma members_unchanged {B} (proj : A → B) (sel : string → Prop) ms cur d :
  never_fatal → is_fatal d = false →
  (∀ c k v, ¬ sel k → proj (step c k v).1 = proj c) →
  (∀ k v, (k, v) ∈ ms → ¬ sel k) →
  proj (members step ms cur d).1 = proj cur.
Proof.
  intros Hs Hd Hstep. revert cur d Hd.
  induction ms as [|[k v] ms IH]; intros cur d Hd Hms; [done|].
  rewrite members_cons by done. rewrite IH.
  - apply Hstep. apply (Hms k v). left.
  - by apply join_not_fatal.
  - intros k' v' Hin. apply (Hms k' v'). by right.
Qed.

(** ... and holds what the last member with a key in [sel] gave it. *)
Lemma members_last {B} (proj : A → B) (sel : string → Prop)
    ms1 k v ms2 cur d (x : B) :
  never_fatal → is_fatal d = false →
  (∀ c k v, ¬ sel k → proj (step c k v).1 = proj c) →
  (∀ c, proj (step c k v).1 = x) →
  (∀ k' v', (k', v') ∈ ms2 → ¬ sel k') →
  proj (members step (ms1 ++ (k, v) :: ms2) cur d).1 = x.
Proof.
  intros Hs Hd Hstep Hx Hms2.
  rewrite members_app by done.
  rewrite members_cons; [|done|by apply members_not_fatal].
  rewrite (members_unchanged proj sel); [apply Hx|done| |done|done].
  apply join_not_fatal; [by apply members_not_fatal|apply Hs].
Qed.

(** No error when no member gives one. *)
Lemma members_Fine ms cur :
  (∀ k v, (k, v) ∈ ms → ∀ c, (step c k v).2 = Fine) →
  (members step ms cur Fine).2 = Fine.
Proof.
  revert cur. induction ms as [|[k v] ms IH]; intros cur Hms; [done|].
  simpl. pose proof (Hms k v ltac:(left) cur) as Hf.
  destruct (step cur k v) as [c' d']. simpl in Hf. subst d'. simpl.
  apply IH. intros k' v' Hin. apply Hms. by right.
Qed.

(** Conversely, when the whole object is read without error, so is
    each member. *)
Lemma members_Fine_inv ms cur d :
  never_fatal → is_fatal d = false →
  (members step ms cur d).2 = Fine → d = Fine.
Proof.
  intros Hs. revert cur d. induction ms as [|[k v] ms IH]; intros cur d Hd.
  - done.
  - rewrite members_cons by done. intros H. apply IH in H.
    + by destruct d, (step cur k v).2.
    + by apply join_not_fatal.
Qed.

End members.

Section row_object.
Import jsn.

(** The key [k] selects the [i]-th field of rowCopy: it is the reserved
    key of that field, or equals it under case folding. *)
Definition selects (i : nat) (k : string) : Prop :=
  field reserved k = Some i.

(** The step of unmarshal_map_string. *)
Definition map_step (m : gmap string string) (k : string) (v : json)
    : gmap string string * derr :=
  let '(s, d) := unmarshal_string "" v in (<[k:=s]> m, d).

Lemma unmarshal_map_string_obj cur ms :
  unmarshal_map_string cur (JObj ms) = members map_step ms cur Fine.
Proof. reflexivity. Qed.

Lemma unmarshal_string_not_fatal cur v :
  is_fatal (unmarshal_string cur v).2 = false.
Proof. by destruct v. Qed.

Lemma map_step_never_fatal : never_fatal map_step.
Proof.
  intros m k v. unfold map_step.
  pose proof (unmarshal_string_not_fatal "" v).
  by destruct (unmarshal_string "" v).
Qed.

Lemma unmarshal_map_string_not_fatal cur v :
  is_fatal (unmarshal_map_string cur v).2 = false.
Proof.
  destruct v; try done. rewrite unmarshal_map_string_obj.
  apply members_not_fatal; [apply map_step_never_fatal|done].
Qed.

Lemma rowCopy_member_never_fatal : never_fatal rowCopy_member.
Proof.
  intros c k v. unfold rowCopy_member.
  destruct (field reserved k) as [[|[|[|[|n]]]]|]; try done.
  - pose proof (unmarshal_string_not_fatal (rowCopy_RowID c) v).
    by destruct (unmarshal_string _ v).
  - pose proof (unmarshal_string_not_fatal (rowCopy_RowClass c) v).
    by destruct (unmarshal_string _ v).
  - pose proof (unmarshal_map_string_not_fatal (rowCopy_RowData c) v).
    by destruct (unmarshal_map_string _ v).
  - pose proof (unmarshal_map_string_not_fatal (rowCopy_RowAttr c) v).
    by destruct (unmarshal_map_string _ v).
Qed.

(** A member leaves alone the fields that its key does not select. *)
Lemma rowCopy_member_other c k v :
  (¬ selects 0 k →
   rowCopy_RowID (rowCopy_member c k v).1 = rowCopy_RowID c) ∧
  (¬ selects 1 k →
   rowCopy_RowClass (rowCopy_member c k v).1 = rowCopy_RowClass c) ∧
  (¬ selects 2 k →
   rowCopy_RowData (rowCopy_member c k v).1 = rowCopy_RowData c) ∧
  (¬ selects 3 k →
   rowCopy_RowAttr (rowCopy_member c k v).1 = rowCopy_RowAttr c).
Proof.
  unfold selects, rowCopy_member.
  destruct (field reserved k) as [[|[|[|[|n]]]]|];
    repeat match goal with
           | |- context [unmarshal_string ?a ?b] =>
               destruct (unmarshal_string a b)
           | |- context [unmarshal_map_string ?a ?b] =>
               destruct (unmarshal_map_string a b)
           end; simpl; repeat split; intros H; done.
Qed.

(** A member with a string value for a string field sets the field. *)
Lemma rowCopy_member_string c k s :
  (selects 0 k → rowCopy_RowID (rowCopy_member c k (JStr s)).1 = s) ∧
  (selects 1 k → rowCopy_RowClass (rowCopy_member c k (JStr s)).1 = s).
Proof. unfold selects, rowCopy_member. split; by intros ->. Qed.

(** A member with a string value is read without error unless its key
    selects one of the two map fields. *)
Lemma rowCopy_member_string_Fine c k s :
  ¬ selects 2 k → ¬ selects 3 k → (rowCopy_member c k (JStr s)).2 = Fine.
Proof.
  unfold selects, rowCopy_member.
  by destruct (field reserved k) as [[|[|[|[|n]]]]|].
Qed.

(** The data map after the deletions. *)
Definition strip_reserved (data : gmap string string)
    : gmap string string :=
  foldl (λ m v, delete v m) data reserved.

Lemma strip_reserved_lookup data k :
  strip_reserved data !! k = if bool_decide (k ∈ reserved) then None
                             else data !! k.
Proof.
  unfold strip_reserved, reserved. simpl.
  case_bool_decide as Hk.
  - repeat (apply elem_of_cons in Hk as [->|Hk]);
      [by simplify_map_eq..|by apply elem_of_nil in Hk].
  - rewrite !lookup_delete_ne; [done|..];
      intros <-; apply Hk; repeat constructor.
Qed.

(** The object reading of UnmarshalJSON, when it succeeds. *)
Lemma UnmarshalJSON_object r0 ms r :
  UnmarshalJSON r0 (JObj ms) = (r, None) →
  (members rowCopy_member ms zero_rowCopy Fine).2 = Fine ∧
  (members map_step ms ∅ Fine).2 = Fine ∧
  r = let c := (members rowCopy_member ms zero_rowCopy Fine).1 in
      mkRow (strip_reserved (members map_step ms ∅ Fine).1)
        (rowCopy_RowID c) (rowCopy_RowClass c)
        (rowCopy_RowData c) (rowCopy_RowAttr c).
Proof.
  unfold UnmarshalJSON. cbn [unmarshal_slice type_error to_error].
  unfold unmarshal_rowCopy, unmarshal_struct.
  rewrite unmarshal_map_string_obj.
  destruct (members rowCopy_member ms zero_rowCopy Fine) as [c d].
  destruct (members map_step ms ∅ Fine) as [m d'].
  destruct d; simpl; [|done..]. destruct d'; simpl; [|done..].
  by intros [= <-].
Qed.

Lemma UnmarshalJSON_object_ok r0 ms :
  (members rowCopy_member ms zero_rowCopy Fine).2 = Fine →
  (members map_step ms ∅ Fine).2 = Fine →
  UnmarshalJSON r0 (JObj ms)
  = (let c := (members rowCopy_member ms zero_rowCopy Fine).1 in
     mkRow (strip_reserved (members map_step ms ∅ Fine).1)
       (rowCopy_RowID c) (rowCopy_RowClass c)
       (rowCopy_RowData c) (rowCopy_RowAttr c), None).
Proof.
  unfold UnmarshalJSON. cbn [unmarshal_slice type_error to_error].
  unfold unmarshal_rowCopy, unmarshal_struct.
  rewrite unmarshal_map_string_obj.
  destruct (members rowCopy_member ms zero_rowCopy Fine) as [c d].
  destruct (members map_step ms ∅ Fine) as [m d'].
  simpl. by intros -> ->.
Qed.

End row_object.

Lemma map_step_other (k0 : string) m k v :
  k ≠ k0 → (map_step m k v).1 !! k0 = m !! k0.
Proof.
  intros Hne. unfold map_step. destruct (jsn.unmarshal_string "" v).
  simpl. by rewrite lookup_insert_ne.
Qed.

Lemma map_step_string m k s : (map_step m k (JStr s)).1 !! k = Some s.
Proof. unfold map_step. simpl. apply lookup_insert_eq. Qed.

(** C2, as amended. After a successful decoding of a JSON object none of
    the four reserved keys is a key of Data. A field of the row is left
    empty when no member has a key that selects it, that is, equals its
    reserved key exactly or up to the case of the letters; RowID and
    RowClass hold the string of the last member whose key selects them.
    Every other key with a string value is in Data with the string of
    its last member. *)
Theorem reserved_keys_excluded (r0 : Row) (ms : list (string * json))
    (r : Row) :
  UnmarshalJSON r0 (JObj ms) = (r, None) →
  (∀ k, k ∈ reserved → Row_Data r !! k = None) ∧
  ((∀ k v, (k, v) ∈ ms → ¬ selects 0 k) → Row_RowID r = "") ∧
  ((∀ k v, (k, v) ∈ ms → ¬ selects 1 k) → Row_RowClass r = "") ∧
  ((∀ k v, (k, v) ∈ ms → ¬ selects 2 k) → Row_RowData r = ∅) ∧
  ((∀ k v, (k, v) ∈ ms → ¬ selects 3 k) → Row_RowAttr r = ∅) ∧
  (∀ ms1 k s ms2, ms = ms1 ++ (k, JStr s) :: ms2 → selects 0 k →
     (∀ k' v', (k', v') ∈ ms2 → ¬ selects 0 k') → Row_RowID r = s) ∧
  (∀ ms1 k s ms2, ms = ms1 ++ (k, JStr s) :: ms2 → selects 1 k →
     (∀ k' v', (k', v') ∈ ms2 → ¬ selects 1 k') → Row_RowClass r = s) ∧
  (∀ ms1 k s ms2, ms = ms1 ++ (k, JStr s) :: ms2 → k ∉ reserved →
     (∀ k' v', (k', v') ∈ ms2 → k' ≠ k) → Row_Data r !! k = Some s).
Proof.
  intros H. apply UnmarshalJSON_object in H as (_ & _ & ->). cbn zeta.
  pose proof rowCopy_member_never_fatal as Hnf.
  pose proof map_step_never_fatal as Hmf.
  repeat split.
  - intros k Hk. simpl. rewrite strip_reserved_lookup.
    by rewrite bool_decide_eq_true_2.
  - intros Hno. simpl.
    by rewrite (members_unchanged _ rowCopy_RowID (selects 0));
      [|done|done|intros; by apply rowCopy_member_other|done].
  - intros Hno. simpl.
    by rewrite (members_unchanged _ rowCopy_RowClass (selects 1));
      [|done|done|intros; by apply rowCopy_member_other|done].
  - intros Hno. simpl.
    by rewrite (members_unchanged _ rowCopy_RowData (selects 2));
      [|done|done|intros; by apply rowCopy_member_other|done].
  - intros Hno. simpl.
    by rewrite (members_unchanged _ rowCopy_RowAttr (selects 3));
      [|done|done|intros; by apply rowCopy_member_other|done].
  - intros ms1 k s ms2 -> Hk Hms2. simpl.
    apply (members_last _ rowCopy_RowID (selects 0));
      [done|done|intros; by apply rowCopy_member_other
      |intros c; by apply rowCopy_member_string|done].
  - intros ms1 k s ms2 -> Hk Hms2. simpl.
    apply (members_last _ rowCopy_RowClass (selects 1));
      [done|done|intros; by apply rowCopy_member_other
      |intros c; by apply rowCopy_member_string|done].
  - intros ms1 k s ms2 -> Hk Hms2. simpl.
    rewrite strip_reserved_lookup, bool_decide_eq_false_2 by done.
    apply (members_last _ (λ m : gmap string string, m !! k) (λ k', k' = k));
      [done|done|intros c k' v' Hne; by apply map_step_other
      |intros c; apply map_step_string
      |intros k' v' Hin Heq; by apply (Hms2 k' v')].
Qed.

Lemma reserved_keys_excluded_witness :
  let ms := [("DT_RowId", JStr "row_1"); ("DT_RowClass", JStr "rowclass");
             ("first_name", JStr "Airi")] in
  let r := mkRow {["first_name" := "Airi"]} "row_1" "rowclass" ∅ ∅ in
  (∀ k, k ∈ reserved → Row_Data r !! k = None) ∧
  ((∀ k v, (k, v) ∈ ms → ¬ selects 0 k) → Row_RowID r = "") ∧
  ((∀ k v, (k, v) ∈ ms → ¬ selects 1 k) → Row_RowClass r = "") ∧
  ((∀ k v, (k, v) ∈ ms → ¬ selects 2 k) → Row_RowData r = ∅) ∧
  ((∀ k v, (k, v) ∈ ms → ¬ selects 3 k) → Row_RowAttr r = ∅) ∧
  (∀ ms1 k s ms2, ms = ms1 ++ (k, JStr s) :: ms2 → selects 0 k →
     (∀ k' v', (k', v') ∈ ms2 → ¬ selects 0 k') → Row_RowID r = s) ∧
  (∀ ms1 k s ms2, ms = ms1 ++ (k, JStr s) :: ms2 → selects 1 k →
     (∀ k' v', (k', v') ∈ ms2 → ¬ selects 1 k') → Row_RowClass r = s) ∧
  (∀ ms1 k s ms2, ms = ms1 ++ (k, JStr s) :: ms2 → k ∉ reserved →
     (∀ k' v', (k', v') ∈ ms2 → k' ≠ k) → Row_Data r !! k = Some s).
Proof.
  intros ms r. apply (reserved_keys_excluded zero_Row ms r).
  vm_compute. reflexivity.
Defined.

(** C2 as the spec has it fails: the object with the one member
    [dt_rowid] has no reserved key, and yet RowID is set (and the member
    is in Data as well). *)
Lemma reserved_keys_counterexample :
  ∃ r, UnmarshalJSON zero_Row (JObj [("dt_rowid", JStr "x")]) = (r, None) ∧
       Forall (λ k, bool_decide (k ∈ reserved) = false) ["dt_rowid"] ∧
       Row_RowID r = "x" ∧ Row_Data r !! "dt_rowid" = Some "x".
Proof.
  eexists. split; [vm_compute; reflexivity|].
  split; [by repeat constructor|]. split; reflexivity.
Qed.

Lemma prod_map_id_id {A B} (l : list (A * B)) : prod_map id id <$> l = l.
Proof.
  induction l as [|[a b] l IH]; [done|]. by rewrite fmap_cons, IH.
Qed.

Lemma NoDup_fst_split {A B} (l1 l2 : list (A * B)) k v :
  NoDup ((l1 ++ (k, v) :: l2).*1) → ∀ k' v', (k', v') ∈ l2 → k' ≠ k.
Proof.
  rewrite fmap_app, fmap_cons. intros Hnd k' v' Hin ->.
  apply NoDup_app in Hnd as (_ & _ & Hnd). apply NoDup_cons in Hnd as [Hk _].
  apply Hk. simpl. apply list_elem_of_fmap. by exists (k, v').
Qed.

(** Members with different keys: a part [proj] of the destination that
    only the key [name] can touch holds what the member [name] gave it,
    or what it held before when there is no such member. *)
Lemma members_keyed {A B} (step : A → string → json → A * jsn.derr)
    (proj : A → B) (sel : string → Prop) (ms : list (string * json))
    (name : string) (cur : A) (x : B) :
  never_fatal step → NoDup ms.*1 →
  (∀ c k v, ¬ sel k → proj (step c k v).1 = proj c) →
  (∀ k v, (k, v) ∈ ms → sel k → k = name) →
  (name ∉ ms.*1 → proj cur = x) →
  (∀ v, (name, v) ∈ ms → ∀ c, proj (step c name v).1 = x) →
  proj (jsn.members step ms cur jsn.Fine).1 = x.
Proof.
  intros Hnf Hnd Hother Hsel Hnone Hsome.
  destruct (decide (name ∈ ms.*1)) as [Hin|Hnin].
  - apply list_elem_of_fmap in Hin as ([k v] & -> & Hin). simpl in *.
    pose proof Hin as Hin0.
    apply list_elem_of_split in Hin as (ms1 & ms2 & ->).
    apply (members_last _ proj sel); [done|done|done|by apply Hsome|].
    intros k' v' Hin' Hs.
    apply (NoDup_fst_split _ _ _ _ Hnd k' v' Hin').
    apply (Hsel k' v'); [|done].
    apply elem_of_app. right. by right.
  - rewrite (members_unchanged _ proj sel);
      [by apply Hnone|done|done|done|].
    intros k v Hin Hs. pose proof (Hsel k v Hin Hs) as ->.
    apply Hnin. apply list_elem_of_fmap. by exists (name, v).
Qed.

(** The strings of a Row that MarshalJSON writes are valid UTF-8: the
    keys and values of the data, RowID and RowClass. *)
Definition row_utf8 (r : Row) : Prop :=
  (∀ k v, Row_Data r !! k = Some v →
          utf8.ValidString k = true ∧ utf8.ValidString v = true) ∧
  utf8.ValidString (Row_RowID r) = true ∧
  utf8.ValidString (Row_RowClass r) = true.

Section utf8_facts.
Import jsn.

(** A string that is valid UTF-8 is written as it is. *)
Lemma coerce_from_valid skip s :
  utf8.valid_from skip s = true → coerce_from skip s = s.
Proof.
  revert skip. induction s as [|c s IH]; intros skip; [done|].
  cbn [utf8.valid_from coerce_from]. destruct skip as [|n].
  - destruct (utf8.width (String c s)) as [sz|]; [|done].
    intros H. by rewrite IH.
  - intros H. by rewrite IH.
Qed.

Lemma coerce_valid s : utf8.ValidString s = true → coerce s = s.
Proof. apply coerce_from_valid. Qed.

Lemma marshal_string_valid s :
  utf8.ValidString s = true → marshal_string s = JStr s.
Proof. intros H. unfold marshal_string. by rewrite coerce_valid. Qed.

Lemma coerce_keys {A} (l : list (string * A)) :
  Forall (λ kv, utf8.ValidString kv.1 = true) l →
  prod_map coerce id <$> l = l.
Proof.
  induction 1 as [|[k v] l Hk _ IH]; [done|].
  rewrite fmap_cons, IH. unfold prod_map. simpl in *.
  by rewrite coerce_valid.
Qed.

(** What is written for a string that is not valid UTF-8 is longer than
    the string, and so another string. *)
Lemma coerce_from_length skip s :
  (String.length s <= String.length (coerce_from skip s))%nat ∧
  (utf8.valid_from skip s = false →
   String.length s < String.length (coerce_from skip s))%nat.
Proof.
  revert skip. induction s as [|c s IH]; intros skip; [done|].
  cbn [utf8.valid_from coerce_from]. destruct skip as [|n].
  - destruct (utf8.width (String c s)) as [sz|].
    + destruct (IH (sz - 1)%nat) as [H1 H2]. simpl. split; [lia|].
      intros H. apply H2 in H. lia.
    + destruct (IH 0%nat) as [H1 _]. unfold utf8.RuneError.
      rewrite !str_app_cons, str_app_nil_l. simpl. split; lia.
  - destruct (IH n) as [H1 H2]. simpl. split; [lia|].
    intros H. apply H2 in H. lia.
Qed.

Lemma coerce_fixed s : coerce s = s ↔ utf8.ValidString s = true.
Proof.
  split; [|apply coerce_valid]. intros H.
  destruct (utf8.ValidString s) eqn:E; [done|].
  apply (proj2 (coerce_from_length 0 s)) in E.
  unfold coerce in H. rewrite H in E. lia.
Qed.

(** A string of bytes below 0x80 is valid UTF-8; what Itoa returns is
    one. *)
Definition is_ascii (c : ascii) : bool := (Str.byte_val c <? 128)%Z.

Lemma valid_ascii s : Str.all is_ascii s = true → utf8.ValidString s = true.
Proof.
  unfold utf8.ValidString. induction s as [|c s IH]; [done|].
  cbn [Str.all]. intros [Hc Hs]%andb_true_iff.
  cbn [utf8.valid_from]. unfold utf8.width, utf8.first.
  unfold is_ascii in Hc. rewrite Hc. by apply IH.
Qed.

Lemma string_of_uint_ascii u :
  Str.all is_ascii (NilEmpty.string_of_uint u) = true.
Proof. induction u; [done|by cbn [NilEmpty.string_of_uint Str.all andb]..]. Qed.

Lemma Itoa_valid i : utf8.ValidString (strconv.Itoa i) = true.
Proof.
  apply valid_ascii. unfold strconv.Itoa, NilZero.string_of_int.
  assert (∀ u, Str.all is_ascii (NilZero.string_of_uint u) = true) as Hu.
  { intros u. destruct u; [done|apply string_of_uint_ascii..]. }
  destruct (Z.to_int i) as [u|u]; [apply Hu|].
  cbn [Str.all]. by rewrite Hu.
Qed.

End utf8_facts.

Section round_trip.
Import jsn.
Variable r : Row.

(** The map [c] that MarshalJSON builds when RowData and RowAttr are
    empty. *)
Definition marshal_c : gmap string json :=
  let c : gmap string json := JStr <$> Row_Data r in
  let c := if negb (String.eqb (Row_RowID r) "")
           then <["DT_RowId" := JStr (Row_RowID r)]> c else c in
  if negb (String.eqb (Row_RowClass r) "")
  then <["DT_RowClass" := JStr (Row_RowClass r)]> c else c.

Definition marshal_ms : list (string * json) :=
  merge_sort key_le (prod_map id id <$> map_to_list marshal_c).

Hypothesis Hdata : ∀ k, is_Some (Row_Data r !! k) → field reserved k = None.
Hypothesis HRowData : Row_RowData r = ∅.
Hypothesis HRowAttr : Row_RowAttr r = ∅.
Hypothesis Hvalid : row_utf8 r.

Lemma marshal_ms_perm : marshal_ms ≡ₚ map_to_list marshal_c.
Proof. unfold marshal_ms. by rewrite merge_sort_Permutation, prod_map_id_id. Qed.

Lemma marshal_ms_NoDup : NoDup marshal_ms.*1.
Proof. rewrite marshal_ms_perm. apply NoDup_fst_map_to_list. Qed.

Lemma marshal_ms_elem k v : (k, v) ∈ marshal_ms ↔ marshal_c !! k = Some v.
Proof. rewrite marshal_ms_perm. apply elem_of_map_to_list. Qed.

Lemma data_not_reserved k : k ∈ reserved → Row_Data r !! k = None.
Proof using Hdata.
  intros Hk. destruct (Row_Data r !! k) eqn:E; [|done].
  pose proof (Hdata k (mk_is_Some _ _ E)) as Hf.
  unfold reserved in Hk.
  repeat (apply elem_of_cons in Hk as [->|Hk]); [done..|].
  by apply elem_of_nil in Hk.
Qed.

(** The entries of [c]: the two string fields that are not empty, and
    the data. *)
Lemma marshal_c_lookup k :
  marshal_c !! k =
    if decide (k = "DT_RowClass" ∧ Row_RowClass r ≠ "")
    then Some (JStr (Row_RowClass r))
    else if decide (k = "DT_RowId" ∧ Row_RowID r ≠ "")
         then Some (JStr (Row_RowID r))
         else JStr <$> Row_Data r !! k.
Proof using Hdata.
  unfold marshal_c.
  destruct (String.eqb_spec (Row_RowClass r) "") as [Hc|Hc];
    destruct (String.eqb_spec (Row_RowID r) "") as [Hi|Hi]; simpl;
    repeat case_decide; destruct_and?; simplify_eq;
    rewrite ?lookup_insert_eq, ?lookup_fmap; try done.
  all: repeat match goal with
       | H : ¬ (_ ∧ _) |- _ => apply not_and_l in H as [H|H]
       end; try done.
  all: rewrite ?lookup_insert_ne, ?lookup_fmap by done; try done.
  all: try (rewrite lookup_insert_eq; done).
  all: try (rewrite data_not_reserved; [done|repeat constructor]).
Qed.

Lemma marshal_ms_kinds k v :
  (k, v) ∈ marshal_ms →
  ∃ s, v = JStr s ∧
       ((k = "DT_RowClass" ∧ s = Row_RowClass r ∧ s ≠ "") ∨
        (k = "DT_RowId" ∧ s = Row_RowID r ∧ s ≠ "") ∨
        Row_Data r !! k = Some s).
Proof using Hdata.
  rewrite marshal_ms_elem, marshal_c_lookup.
  repeat case_decide; destruct_and?.
  - intros [= <-]. eexists. split; [done|]. by left.
  - intros [= <-]. eexists. split; [done|]. right. by left.
  - destruct (Row_Data r !! k) as [s|] eqn:E; [|done].
    intros [= <-]. exists s. split; [done|]. right. by right.
Qed.

(** With strings that are valid UTF-8 MarshalJSON writes the members of
    [c] as they are. *)
Lemma MarshalJSON_plain : MarshalJSON r = (JObj marshal_ms, None).
Proof using Hdata HRowData HRowAttr Hvalid.
  destruct Hvalid as (Hvd & Hvi & Hvc).
  unfold MarshalJSON. rewrite HRowData, HRowAttr, map_size_empty.
  cbn [Nat.ltb Nat.leb]. cbv zeta.
  rewrite (marshal_string_valid _ Hvi), (marshal_string_valid _ Hvc).
  rewrite (map_fmap_ext marshal_string JStr (Row_Data r)); cycle 1.
  { intros k v Hk. apply marshal_string_valid. by apply (Hvd k v). }
  fold marshal_c. unfold marshal_map. fold marshal_ms.
  rewrite coerce_keys; [done|]. apply Forall_forall. intros [k v] Hin.
  apply marshal_ms_kinds in Hin as (s & -> & [(-> & _)|[(-> & _)|Hd]]);
    [done|done|]. simpl. by apply (Hvd k s).
Qed.

Lemma marshal_ms_selects i k v :
  (k, v) ∈ marshal_ms → selects i k →
  (i = 0%nat ∧ k = "DT_RowId") ∨ (i = 1%nat ∧ k = "DT_RowClass").
Proof using Hdata.
  intros Hin Hsel. unfold selects in Hsel.
  apply marshal_ms_kinds in Hin as (s & -> & [(-> & _)|[(-> & _)|Hd]]).
  - right. by injection Hsel as <-.
  - left. by injection Hsel as <-.
  - rewrite (Hdata k) in Hsel; [done|by rewrite Hd].
Qed.

Lemma marshal_rowCopy_Fine :
  (members rowCopy_member marshal_ms zero_rowCopy Fine).2 = Fine.
Proof using Hdata.
  apply members_Fine. intros k v Hin c.
  pose proof (marshal_ms_selects 2 k v Hin) as H2.
  pose proof (marshal_ms_selects 3 k v Hin) as H3.
  apply marshal_ms_kinds in Hin as (s & -> & _).
  apply rowCopy_member_string_Fine; intros Hs;
    [destruct (H2 Hs) as [[? _]|[? _]]|destruct (H3 Hs) as [[? _]|[? _]]];
    done.
Qed.

Lemma marshal_data_Fine : (members map_step marshal_ms ∅ Fine).2 = Fine.
Proof using Hdata.
  apply members_Fine. intros k v Hin c.
  by apply marshal_ms_kinds in Hin as (s & -> & _).
Qed.

Lemma marshal_ms_absent name :
  name ∉ marshal_ms.*1 → marshal_c !! name = None.
Proof.
  intros Hn. destruct (marshal_c !! name) as [v|] eqn:E; [|done].
  exfalso. apply Hn. apply marshal_ms_elem in E.
  apply list_elem_of_fmap. by exists (name, v).
Qed.

Lemma marshal_RowID :
  rowCopy_RowID (members rowCopy_member marshal_ms zero_rowCopy Fine).1
  = Row_RowID r.
Proof using Hdata.
  apply (members_keyed _ rowCopy_RowID (selects 0) _ "DT_RowId").
  - apply rowCopy_member_never_fatal.
  - apply marshal_ms_NoDup.
  - intros; by apply rowCopy_member_other.
  - intros k v Hin Hs.
    by destruct (marshal_ms_selects 0 k v Hin Hs) as [[_ ->]|[? _]].
  - intros Hn. apply marshal_ms_absent in Hn.
    rewrite marshal_c_lookup in Hn. repeat case_decide; try done.
    destruct (decide (Row_RowID r = "")) as [->|Hne]; [done|].
    by destruct H0.
  - intros v Hin c. apply marshal_ms_elem in Hin.
    rewrite marshal_c_lookup in Hin. repeat case_decide; destruct_and?;
      try done.
    + injection Hin as <-. by apply rowCopy_member_string.
    + rewrite data_not_reserved in Hin; [done|repeat constructor].
Qed.

Lemma marshal_RowClass :
  rowCopy_RowClass (members rowCopy_member marshal_ms zero_rowCopy Fine).1
  = Row_RowClass r.
Proof using Hdata.
  apply (members_keyed _ rowCopy_RowClass (selects 1) _ "DT_RowClass").
  - apply rowCopy_member_never_fatal.
  - apply marshal_ms_NoDup.
  - intros; by apply rowCopy_member_other.
  - intros k v Hin Hs.
    by destruct (marshal_ms_selects 1 k v Hin Hs) as [[? _]|[_ ->]].
  - intros Hn. apply marshal_ms_absent in Hn.
    rewrite marshal_c_lookup in Hn. repeat case_decide; try done.
    destruct (decide (Row_RowClass r = "")) as [->|Hne]; [done|].
    by destruct H.
  - intros v Hin c. apply marshal_ms_elem in Hin.
    rewrite marshal_c_lookup in Hin. repeat case_decide; destruct_and?;
      try done.
    + injection Hin as <-. by apply rowCopy_member_string.
    + rewrite data_not_reserved in Hin; [done|repeat constructor].
Qed.

Lemma marshal_RowData_RowAttr :
  let c := (members rowCopy_member marshal_ms zero_rowCopy Fine).1 in
  rowCopy_RowData c = ∅ ∧ rowCopy_RowAttr c = ∅.
Proof using Hdata.
  pose proof rowCopy_member_never_fatal as Hnf. split.
  - rewrite (members_unchanged _ rowCopy_RowData (selects 2));
      [done|done|done|intros; by apply rowCopy_member_other|].
    intros k v Hin Hs.
    by destruct (marshal_ms_selects 2 k v Hin Hs) as [[? _]|[? _]].
  - rewrite (members_unchanged _ rowCopy_RowAttr (selects 3));
      [done|done|done|intros; by apply rowCopy_member_other|].
    intros k v Hin Hs.
    by destruct (marshal_ms_selects 3 k v Hin Hs) as [[? _]|[? _]].
Qed.

(** The data map read back from the members of [c], before the
    deletions: every member under its key. *)
Lemma marshal_data_lookup k :
  (members map_step marshal_ms ∅ Fine).1 !! k
  = match marshal_c !! k with
    | Some (JStr s) => Some s
    | _ => None
    end.
Proof using Hdata.
  apply (members_keyed _ (λ m : gmap string string, m !! k)
           (λ k', k' = k) _ k).
  - apply map_step_never_fatal.
  - apply marshal_ms_NoDup.
  - intros c k' v Hne. by apply map_step_other.
  - done.
  - intros Hn. by rewrite (marshal_ms_absent _ Hn).
  - intros v Hin c. pose proof Hin as Hk.
    apply marshal_ms_kinds in Hk as (s & -> & _).
    apply marshal_ms_elem in Hin. rewrite Hin. apply map_step_string.
Qed.

Lemma marshal_Data :
  strip_reserved (members map_step marshal_ms ∅ Fine).1 = Row_Data r.
Proof using Hdata.
  apply map_eq. intros k. rewrite strip_reserved_lookup.
  case_bool_decide as Hk; [by rewrite data_not_reserved|].
  rewrite marshal_data_lookup, marshal_c_lookup.
  repeat case_decide; destruct_and?; simplify_eq.
  - exfalso. apply Hk. repeat constructor.
  - exfalso. apply Hk. repeat constructor.
  - by destruct (Row_Data r !! k).
Qed.

Lemma UnmarshalJSON_MarshalJSON r0 :
  UnmarshalJSON r0 (MarshalJSON r).1 = (r, None).
Proof using Hdata HRowData HRowAttr Hvalid.
  rewrite MarshalJSON_plain. simpl.
  rewrite UnmarshalJSON_object_ok
    by (apply marshal_rowCopy_Fine || apply marshal_data_Fine).
  cbn zeta. rewrite marshal_Data, marshal_RowID, marshal_RowClass.
  destruct marshal_RowData_RowAttr as [-> ->].
  rewrite <- HRowData at 1. rewrite <- HRowAttr. by destruct r.
Qed.

End round_trip.

(** C1, as amended. For every Row whose strings are valid UTF-8, whose
    data have no key that selects a field of rowCopy (no reserved key,
    be it in other letter case) and whose RowData and RowAttr have no
    entry, MarshalJSON returns no error and decoding what it wrote, into
    any receiver, gives a Row with the same data entries, the same RowID
    and RowClass, and no entry in RowData and RowAttr. *)
Theorem row_round_trip (r r0 : Row) :
  row_utf8 r →
  (∀ k, is_Some (Row_Data r !! k) → jsn.field reserved k = None) →
  Row_RowData r = ∅ → Row_RowAttr r = ∅ →
  (MarshalJSON r).2 = None ∧
  ∃ r', UnmarshalJSON r0 (MarshalJSON r).1 = (r', None) ∧
        (∀ k, Row_Data r' !! k = Row_Data r !! k) ∧
        Row_RowID r' = Row_RowID r ∧
        Row_RowClass r' = Row_RowClass r ∧
        (∀ k, Row_RowData r' !! k = None) ∧
        (∀ k, Row_RowAttr r' !! k = None).
Proof.
  intros Hv Hd H1 H2. split; [done|]. exists r.
  split; [by apply UnmarshalJSON_MarshalJSON|].
  rewrite H1, H2. by repeat split.
Qed.

Lemma row_round_trip_witness :
  let r := mkRow {["name" := "Foo"; "age" := "16"]} "row_1" "odd" ∅ ∅ in
  (MarshalJSON r).2 = None ∧
  ∃ r', UnmarshalJSON zero_Row (MarshalJSON r).1 = (r', None) ∧
        (∀ k, Row_Data r' !! k = Row_Data r !! k) ∧
        Row_RowID r' = Row_RowID r ∧
        Row_RowClass r' = Row_RowClass r ∧
        (∀ k, Row_RowData r' !! k = None) ∧
        (∀ k, Row_RowAttr r' !! k = None).
Proof.
  intros r. apply (row_round_trip r zero_Row); [| |reflexivity..].
  - split; [|split; reflexivity].
    intros k v Hk. unfold r in Hk. simpl in Hk.
    apply lookup_insert_Some in Hk as [[<- <-]|[_ Hk]];
      [split; reflexivity|].
    apply lookup_singleton_Some in Hk as [<- <-]. split; reflexivity.
  - intros k [v Hk]. unfold r in Hk. simpl in Hk.
    apply lookup_insert_Some in Hk as [[<- _]|[_ Hk]]; [reflexivity|].
    apply lookup_singleton_Some in Hk as [<- _]. reflexivity.
Defined.

(** C1 as the spec has it fails on rows without a reserved key in the
    data and without RowData and RowAttr. A value that is no valid
    UTF-8, here the one byte 0xFF, comes back as U+FFFD. And the data
    key [dt_rowid], which is no reserved key, is read into RowID as
    well: the Row that comes back has the RowID [x]. *)
Lemma row_round_trip_counterexample :
  let bad := String (ascii_of_nat 255) EmptyString in
  let r1 := mkRow {["k" := bad]} "" "" ∅ ∅ in
  let r2 := mkRow {["dt_rowid" := "x"]} "" "" ∅ ∅ in
  (∃ r', UnmarshalJSON zero_Row (MarshalJSON r1).1 = (r', None) ∧
         Row_Data r1 !! "k" = Some bad ∧
         Row_Data r' !! "k" = Some utf8.RuneError ∧
         utf8.RuneError ≠ bad) ∧
  (∃ r', UnmarshalJSON zero_Row (MarshalJSON r2).1 = (r', None) ∧
         jsn.field reserved "dt_rowid" = Some 0%nat ∧
         ("dt_rowid" ∉ reserved) ∧
         Row_RowID r2 = "" ∧ Row_RowID r' = "x").
Proof.
  split.
  - eexists. split; [vm_compute; reflexivity|].
    split; [reflexivity|]. split; [vm_compute; reflexivity|done].
  - eexists. split; [vm_compute; reflexivity|].
    split; [reflexivity|]. split; [|split; reflexivity].
    unfold reserved. intros H.
    repeat (apply elem_of_cons in H as [H|H]; [done|]).
    by apply elem_of_nil in H.
Qed.

(* ================================================================== *)
(** * Properties of the document codec *)
(* ================================================================== *)

(** The values the round trips of the documents are about: integer
    fields in the range of [int], strings that are valid UTF-8, rows as
    in C1. *)
Definition search_ok (s : Search) : Prop :=
  utf8.ValidString (Search_Value s) = true.

Definition order_ok (o : Order) : Prop :=
  int_ok (Order_Column o) ∧ utf8.ValidString (Order_Dir o) = true.

Definition column_ok (c : Column) : Prop :=
  utf8.ValidString (Column_Data c) = true ∧
  utf8.ValidString (Column_Name c) = true ∧
  search_ok (Column_Search c).

Definition valid_Request (r : Request) : Prop :=
  int_ok (Request_Draw r) ∧ int_ok (Request_Start r) ∧
  int_ok (Request_Length r) ∧ search_ok (Request_Search r) ∧
  Forall order_ok (slice.elems (Request_Order r)) ∧
  Forall column_ok (slice.elems (Request_Columns r)).

Definition row_ok (x : Row) : Prop :=
  row_utf8 x ∧
  (∀ k, is_Some (Row_Data x !! k) → jsn.field reserved k = None) ∧
  Row_RowData x = ∅ ∧ Row_RowAttr x = ∅.

Definition valid_Response (r : Response) : Prop :=
  int_ok (Response_Draw r) ∧ int_ok (Response_RecordsTotal r) ∧
  int_ok (Response_RecordsFiltered r) ∧
  Forall row_ok (slice.elems (Response_Data r)) ∧
  utf8.ValidString (Response_Error r) = true.

Section documents.
Import jsn.

Lemma unmarshal_int_ok cur n : int_ok n → unmarshal_int cur (JNum n) = (n, Fine).
Proof.
  unfold int_ok, unmarshal_int. intros [H1 H2].
  apply Z.leb_le in H1, H2. by rewrite H1, H2.
Qed.

Lemma unmarshal_Search_marshal cur s :
  search_ok s → unmarshal_Search cur (marshal_Search s) = (s, Fine).
Proof.
  unfold search_ok, marshal_Search. intros Hv.
  rewrite marshal_string_valid by done. by destruct s, cur.
Qed.

Lemma unmarshal_Order_marshal cur o :
  order_ok o → unmarshal_Order cur (marshal_Order o) = (o, Fine).
Proof.
  intros [Hc Hv]. destruct o as [c d], cur as [c0 d0]. simpl in Hc, Hv.
  unfold unmarshal_Order, marshal_Order, unmarshal_struct.
  cbn [Order_Column Order_Dir]. rewrite marshal_string_valid by done.
  cbn [members]. unfold Order_member at 1.
  change (field ["column"; "dir"] "column") with (Some 0%nat). cbv iota.
  rewrite unmarshal_int_ok by done. cbn [join is_fatal].
  unfold Order_member at 1.
  change (field ["column"; "dir"] "dir") with (Some 1%nat). done.
Qed.

Lemma unmarshal_Column_marshal cur c :
  column_ok c → unmarshal_Column cur (marshal_Column c) = (c, Fine).
Proof.
  intros (Hd & Hn & Hs).
  destruct c as [a b e f s], cur as [a0 b0 e0 f0 s0]. simpl in Hd, Hn, Hs.
  unfold unmarshal_Column, marshal_Column, unmarshal_struct.
  cbn [Column_Data Column_Name Column_Searchable Column_Orderable
       Column_Search].
  rewrite !marshal_string_valid by done.
  cbn [members]. unfold Column_member at 1.
  change (field ["data"; "name"; "searchable"; "orderable"; "search"]
            "data") with (Some 0%nat).
  cbv iota. cbn [unmarshal_string join is_fatal].
  unfold Column_member at 1.
  change (field ["data"; "name"; "searchable"; "orderable"; "search"]
            "name") with (Some 1%nat).
  cbv iota. cbn [unmarshal_string join is_fatal].
  unfold Column_member at 1.
  change (field ["data"; "name"; "searchable"; "orderable"; "search"]
            "searchable") with (Some 2%nat).
  cbv iota. cbn [unmarshal_bool join is_fatal].
  unfold Column_member at 1.
  change (field ["data"; "name"; "searchable"; "orderable"; "search"]
            "orderable") with (Some 3%nat).
  cbv iota. cbn [unmarshal_bool join is_fatal].
  unfold Column_member at 1.
  change (field ["data"; "name"; "searchable"; "orderable"; "search"]
            "search") with (Some 4%nat).
  cbv iota. cbn [set_Column_Search Column_Search].
  by rewrite unmarshal_Search_marshal.
Qed.

(** An array of encodings is read back element by element. *)
Lemma elements_marshal {A} (dec : A → json → A * derr) (enc : A → json)
    (zero : A) (cur l : list A) :
  Forall (λ x, ∀ c, dec c (enc x) = (x, Fine)) l →
  elements dec zero cur (enc <$> l) = (l, Fine).
Proof.
  intros Hl. revert cur. induction Hl as [|x l Hx _ IH]; intros cur; [done|].
  rewrite fmap_cons. cbn [elements]. rewrite Hx. cbn [is_fatal].
  by rewrite IH.
Qed.

Lemma unmarshal_slice_marshal {A} (dec : A → json → A * derr)
    (enc : A → json) (zero : A) ty (cur s : slice.t A) :
  Forall (λ x, ∀ c, dec c (enc x) = (x, Fine)) (slice.elems s) →
  unmarshal_slice dec zero ty cur (marshal_slice enc s) = (s, Fine).
Proof.
  intros Hs. destruct s as [l|]; [|done]. simpl in *.
  by rewrite elements_marshal.
Qed.

End documents.

Local Ltac next_field :=
  match goal with
  | |- context [jsn.field ?ns ?k] =>
      let v := eval vm_compute in (jsn.field ns k) in
      change (jsn.field ns k) with v
  end; cbv iota.

Lemma unmarshal_Request_marshal (r cur : Request) :
  valid_Request r → unmarshal_Request cur (marshal_Request r) = (r, None).
Proof.
  intros (Hd & Hs & Hl & Hse & Ho & Hc).
  destruct r as [d s l se o c], cur as [d0 s0 l0 se0 o0 c0]. simpl in *.
  unfold unmarshal_Request, marshal_Request, jsn.unmarshal_struct.
  cbn [jsn.members].
  unfold Request_member at 1. next_field.
  cbn [Request_Draw]. rewrite unmarshal_int_ok by done.
  cbn [jsn.join jsn.is_fatal].
  unfold Request_member at 1. next_field.
  cbn [Request_Start set_Request_Draw].
  rewrite unmarshal_int_ok by done. cbn [jsn.join jsn.is_fatal].
  unfold Request_member at 1. next_field.
  cbn [Request_Length set_Request_Start].
  rewrite unmarshal_int_ok by done. cbn [jsn.join jsn.is_fatal].
  unfold Request_member at 1. next_field.
  cbn [Request_Search set_Request_Length].
  rewrite unmarshal_Search_marshal by done. cbn [jsn.join jsn.is_fatal].
  unfold Request_member at 1. next_field.
  cbn [Request_Order set_Request_Search].
  rewrite unmarshal_slice_marshal; cycle 1.
  { eapply Forall_impl; [exact Ho|]. intros x Hx c1.
    by apply unmarshal_Order_marshal. }
  cbn [jsn.join jsn.is_fatal].
  unfold Request_member at 1. next_field.
  cbn [Request_Columns set_Request_Order].
  rewrite unmarshal_slice_marshal; cycle 1.
  { eapply Forall_impl; [exact Hc|]. intros x Hx c1.
    by apply unmarshal_Column_marshal. }
  done.
Qed.

(** A Request with integer fields in the range of [int] and strings
    that are valid UTF-8 is read back from its encoding, into any
    receiver: the fields that are written replace the receiver's. *)
Theorem request_round_trip (r cur : Request) :
  valid_Request r → unmarshal_Request cur (marshal_Request r) = (r, None).
Proof. apply unmarshal_Request_marshal. Qed.

Lemma request_round_trip_witness :
  let r := mkRequest 3 10 25 (mkSearch "a.b" false)
             (Some [mkOrder 1 "desc"])
             (Some [mkColumn "name" "" true true zero_Search;
                    mkColumn "age" "" true false (mkSearch "4." true)]) in
  valid_Request r ∧
  unmarshal_Request zero_Request (marshal_Request r) = (r, None).
Proof.
  assert (valid_Request
            (mkRequest 3 10 25 (mkSearch "a.b" false)
               (Some [mkOrder 1 "desc"])
               (Some [mkColumn "name" "" true true zero_Search;
                      mkColumn "age" "" true false (mkSearch "4." true)])))
    as Hv.
  { unfold valid_Request, int_ok, strconv.MinInt, strconv.MaxInt. simpl.
    split; [lia|]. split; [lia|]. split; [lia|].
    split; [reflexivity|]. split.
    - constructor; [|constructor].
      split; [|reflexivity].
      unfold int_ok, strconv.MinInt, strconv.MaxInt. simpl. lia.
    - constructor; [|constructor; [|constructor]];
        (split; [|split]; reflexivity). }
  split; [exact Hv|]. exact (request_round_trip _ zero_Request Hv).
Defined.

Lemma unmarshal_Row_marshal (cur x : Row) :
  row_ok x → unmarshal_Row cur (MarshalJSON x).1 = (x, jsn.Fine).
Proof.
  intros (Hv & Hd & H1 & H2). unfold unmarshal_Row.
  by rewrite (UnmarshalJSON_MarshalJSON x Hd H1 H2 Hv cur).
Qed.

Lemma unmarshal_Response_marshal (r : Response) :
  valid_Response r →
  unmarshal_Response zero_Response (marshal_Response r) = (r, None).
Proof.
  intros (Hd & Ht & Hf & Hrows & He).
  destruct r as [d t f rows e]. simpl in *.
  unfold unmarshal_Response, marshal_Response, jsn.unmarshal_struct.
  cbn [Response_Draw Response_RecordsTotal Response_RecordsFiltered
       Response_Data Response_Error app jsn.members].
  unfold Response_member at 1. next_field.
  rewrite unmarshal_int_ok by done. cbn [jsn.join jsn.is_fatal].
  unfold Response_member at 1. next_field.
  cbn [Response_Draw Response_RecordsTotal Response_RecordsFiltered
       Response_Data Response_Error].
  rewrite unmarshal_int_ok by done. cbn [jsn.join jsn.is_fatal].
  unfold Response_member at 1. next_field.
  cbn [Response_Draw Response_RecordsTotal Response_RecordsFiltered
       Response_Data Response_Error].
  rewrite unmarshal_int_ok by done. cbn [jsn.join jsn.is_fatal].
  unfold Response_member at 1. next_field.
  cbn [Response_Draw Response_RecordsTotal Response_RecordsFiltered
       Response_Data Response_Error].
  rewrite (unmarshal_slice_marshal unmarshal_Row (λ x, (MarshalJSON x).1));
    cycle 1.
  { eapply Forall_impl; [exact Hrows|]. intros x Hx c1.
    by apply unmarshal_Row_marshal. }
  cbn [jsn.join jsn.is_fatal].
  destruct (String.eqb_spec e "") as [->|Hne]; [done|].
  rewrite marshal_string_valid by done.
  cbn [jsn.members]. unfold Response_member at 1. next_field. done.
Qed.

(** A Response with counts in the range of [int], an Error that is
    valid UTF-8 and rows as in C1 is read back from its encoding into a
    fresh Response; an empty Error is not written and comes back
    empty. *)
Theorem response_round_trip (r : Response) :
  valid_Response r →
  unmarshal_Response zero_Response (marshal_Response r) = (r, None).
Proof. apply unmarshal_Response_marshal. Qed.

Lemma response_round_trip_witness :
  let r := mkResponse 1 57 2
             (Some [mkRow {["name" := "Foo"]} "row_1" "odd" ∅ ∅;
                    mkRow {["name" := "Bar"]} "" "" ∅ ∅]) "" in
  valid_Response r ∧
  unmarshal_Response zero_Response (marshal_Response r) = (r, None).
Proof.
  assert (∀ v i c, utf8.ValidString v = true →
            utf8.ValidString i = true → utf8.ValidString c = true →
            row_ok (mkRow {["name" := v]} i c ∅ ∅)) as Hrow.
  { intros v i c Hv Hi Hc. split; [|split; [|done]].
    - split; [|done]. intros k x Hk. simpl in Hk.
      by apply lookup_singleton_Some in Hk as [<- <-].
    - intros k [x Hk]. simpl in Hk.
      by apply lookup_singleton_Some in Hk as [<- _]. }
  assert (valid_Response
            (mkResponse 1 57 2
               (Some [mkRow {["name" := "Foo"]} "row_1" "odd" ∅ ∅;
                      mkRow {["name" := "Bar"]} "" "" ∅ ∅]) "")) as Hv.
  { unfold valid_Response, int_ok, strconv.MinInt, strconv.MaxInt. simpl.
    split; [lia|]. split; [lia|]. split; [lia|]. split; [|reflexivity].
    constructor; [by apply Hrow|]. constructor; [by apply Hrow|].
    constructor. }
  split; [exact Hv|]. exact (response_round_trip _ Hv).
Defined.

Section lost_rows.
Import jsn.

Lemma join_keeps_error d d' : d ≠ Fine → join d d' ≠ Fine.
Proof. by destruct d, d'. Qed.

Lemma join_takes_error d d' : d' ≠ Fine → join d d' ≠ Fine.
Proof. by destruct d, d'. Qed.

Lemma members_keeps_error {A} (step : A → string → json → A * derr)
    ms cur d :
  d ≠ Fine → (members step ms cur d).2 ≠ Fine.
Proof.
  revert cur d. induction ms as [|[k v] ms IH]; intros cur d Hd; [done|].
  simpl. destruct (step cur k v) as [c' d'].
  pose proof (join_keeps_error d d' Hd) as Hj.
  destruct (is_fatal (join d d')); [done|]. by apply IH.
Qed.

(** One member that cannot be read makes the reading of the object
    end with an error. *)
Lemma members_error {A} (step : A → string → json → A * derr)
    ms cur d k v :
  (k, v) ∈ ms → (∀ c, (step c k v).2 ≠ Fine) →
  (members step ms cur d).2 ≠ Fine.
Proof.
  intros Hin Hk. revert cur d.
  induction ms as [|[k' v'] ms IH]; intros cur d.
  { by apply elem_of_nil in Hin. }
  simpl. destruct (step cur k' v') as [c' d'] eqn:Hs.
  apply elem_of_cons in Hin as [[= <- <-]|Hin].
  - pose proof (Hk cur) as Hd'. rewrite Hs in Hd'. simpl in Hd'.
    pose proof (join_takes_error d d' Hd') as Hj.
    destruct (is_fatal (join d d')); [done|].
    by apply members_keeps_error.
  - destruct (is_fatal (join d d')) eqn:Hf; [|by apply IH].
    simpl. by destruct (join d d').
Qed.

Lemma map_step_object m k ms : (map_step m k (JObj ms)).2 ≠ Fine.
Proof. done. Qed.

(** The members that MarshalJSON writes for RowData and RowAttr. *)
Lemma MarshalJSON_RowData r :
  Row_RowData r ≠ ∅ →
  ∃ ms x, (MarshalJSON r).1 = JObj ms ∧ ("DT_RowData", JObj x) ∈ ms.
Proof.
  intros Hne. apply map_size_non_empty_iff in Hne.
  unfold MarshalJSON. cbn [fst marshal_map]. eexists _, _. split; [done|].
  apply list_elem_of_fmap.
  exists ("DT_RowData", marshal_map marshal_string (Row_RowData r)).
  split; [reflexivity|].
  rewrite merge_sort_Permutation, prod_map_id_id.
  apply elem_of_map_to_list.
  destruct (0 <? size (Row_RowData r))%nat eqn:E;
    [|apply Nat.ltb_ge in E; lia].
  destruct (0 <? size (Row_RowAttr r))%nat.
  - rewrite lookup_insert_ne by done. apply lookup_insert_eq.
  - apply lookup_insert_eq.
Qed.

Lemma MarshalJSON_RowAttr r :
  Row_RowAttr r ≠ ∅ →
  ∃ ms x, (MarshalJSON r).1 = JObj ms ∧ ("DT_RowAttr", JObj x) ∈ ms.
Proof.
  intros Hne. apply map_size_non_empty_iff in Hne.
  unfold MarshalJSON. cbn [fst marshal_map]. eexists _, _. split; [done|].
  apply list_elem_of_fmap.
  exists ("DT_RowAttr", marshal_map marshal_string (Row_RowAttr r)).
  split; [reflexivity|].
  rewrite merge_sort_Permutation, prod_map_id_id.
  apply elem_of_map_to_list.
  destruct (0 <? size (Row_RowAttr r))%nat eqn:E;
    [|apply Nat.ltb_ge in E; lia].
  apply lookup_insert_eq.
Qed.

(** An object with an object among its values is not decoded. *)
Lemma UnmarshalJSON_object_value r0 ms k x :
  (k, JObj x) ∈ ms → ∃ e, (UnmarshalJSON r0 (JObj ms)).2 = Some e.
Proof.
  intros Hin. unfold UnmarshalJSON.
  cbn [unmarshal_slice type_error to_error].
  destruct (unmarshal_rowCopy zero_rowCopy (JObj ms)) as [c d].
  destruct (to_error d) as [e|]; [by exists e|].
  rewrite unmarshal_map_string_obj.
  pose proof (members_error map_step ms ∅ Fine k (JObj x) Hin
                (λ c, map_step_object c k x)) as Hd.
  destruct (members map_step ms ∅ Fine) as [m d']. simpl in Hd.
  destruct d' as [|e|e]; [done|by exists e..].
Qed.

End lost_rows.

(** The defect behind C5 (and the part of C1 left out of its amended
    form): a Row with a non-empty RowData or RowAttr is written by
    MarshalJSON, but UnmarshalJSON returns an error on what was
    written. *)
Theorem row_metadata_not_decoded (r r0 : Row) :
  Row_RowData r ≠ ∅ ∨ Row_RowAttr r ≠ ∅ →
  (MarshalJSON r).2 = None ∧
  ∃ e, (UnmarshalJSON r0 (MarshalJSON r).1).2 = Some e.
Proof.
  intros H. split; [done|]. destruct H as [H|H].
  - destruct (MarshalJSON_RowData r H) as (ms & x & -> & Hin).
    by apply (UnmarshalJSON_object_value r0 ms "DT_RowData" x).
  - destruct (MarshalJSON_RowAttr r H) as (ms & x & -> & Hin).
    by apply (UnmarshalJSON_object_value r0 ms "DT_RowAttr" x).
Qed.

Lemma row_metadata_not_decoded_witness :
  let r := mkRow {["name" := "Foo"]} "row_1" "odd" {["k" := "v"]} ∅ in
  (MarshalJSON r).2 = None ∧
  ∃ e, (UnmarshalJSON zero_Row (MarshalJSON r).1).2 = Some e.
Proof.
  intros r. apply (row_metadata_not_decoded r zero_Row).
  left. intros H. apply (f_equal (λ m : gmap string string, m !! "k")) in H.
  vm_compute in H. discriminate H.
Defined.

(** C5 fails on the code: this Response, with one row that has a
    RowData entry, is encoded, and decoding the encoding returns an
    error instead of the Response. *)
Theorem response_round_trip_fails :
  let resp :=
    mkResponse 1 1 1
      (Some [mkRow {["name" := "Foo"]} "row_1" "odd" {["k" := "v"]} ∅]) "" in
  marshal_Response resp
  = JObj [("draw", JNum 1); ("recordsTotal", JNum 1);
          ("recordsFiltered", JNum 1);
          ("data",
           JArr [JObj [("DT_RowClass", JStr "odd");
                       ("DT_RowData", JObj [("k", JStr "v")]);
                       ("DT_RowId", JStr "row_1");
                       ("name", JStr "Foo")]])] ∧
  (unmarshal_Response zero_Response (marshal_Response resp)).2
  = Some (UnmarshalTypeError "object" "string").
Proof. split; vm_compute; reflexivity. Qed.

(* ================================================================== *)
(** * Further properties of the form decoder *)
(* ================================================================== *)

Lemma parseKey_column_data r ds id v :
  Str.all Str.is_digit ds = true → strconv.Atoi ds = (id, None) →
  (id < strconv.MaxInt)%Z →
  parseKey r ("columns[" +:+ ds +:+ "][data]") v
  = column_written r id (set_Column_Data v).
Proof.
  intros Hds Ha Hid. pose proof (Atoi_digits _ _ Hds Ha) as Hr.
  change "][data]" with ("][" +:+ "data]").
  rewrite parseKey_columns. unfold parseColumn.
  rewrite (columns_key ds "data]" ["data"; ""] Hds
             (Atoi_nonempty _ _ Ha) eq_refl).
  cbn [length Nat.ltb Nat.leb sub nth]. rewrite Ha.
  change (String.eqb "data" "data") with true. cbv iota.
  by rewrite update_grow by lia.
Qed.

Lemma parseKey_column_name r ds id v :
  Str.all Str.is_digit ds = true → strconv.Atoi ds = (id, None) →
  (id < strconv.MaxInt)%Z →
  parseKey r ("columns[" +:+ ds +:+ "][name]") v
  = column_written r id (set_Column_Name v).
Proof.
  intros Hds Ha Hid. pose proof (Atoi_digits _ _ Hds Ha) as Hr.
  change "][name]" with ("][" +:+ "name]").
  rewrite parseKey_columns. unfold parseColumn.
  rewrite (columns_key ds "name]" ["name"; ""] Hds
             (Atoi_nonempty _ _ Ha) eq_refl).
  cbn [length Nat.ltb Nat.leb sub nth]. rewrite Ha.
  change (String.eqb "name" "data") with false.
  change (String.eqb "name" "name") with true. cbv iota.
  by rewrite update_grow by lia.
Qed.

Lemma parseSearch_value s v :
  parseSearch s "search[value]" v = (set_Search_Value v s, None).
Proof. reflexivity. Qed.

Lemma parseKey_column_search_value r ds id v :
  Str.all Str.is_digit ds = true → strconv.Atoi ds = (id, None) →
  (id < strconv.MaxInt)%Z →
  ∃ c, grown zero_Column (Request_Columns r) id !! Z.to_nat id = Some c ∧
    parseKey r ("columns[" +:+ ds +:+ "][search][value]") v
    = column_written r id
        (set_Column_Search (set_Search_Value v (Column_Search c))).
Proof.
  intros Hds Ha Hid. pose proof (Atoi_digits _ _ Hds Ha) as Hr.
  destruct (index_grow zero_Column (Request_Columns r) id) as (c & Hc & Hi);
    [lia|].
  exists c. split; [done|].
  change "][search][value]" with ("][" +:+ "search][value]").
  rewrite parseKey_columns. unfold parseColumn.
  rewrite (columns_key ds "search][value]" ["search"; "[value]"] Hds
             (Atoi_nonempty _ _ Ha) eq_refl).
  cbn [length Nat.ltb Nat.leb sub nth]. rewrite Ha.
  change (String.eqb "search" "data") with false.
  change (String.eqb "search" "name") with false.
  change (String.eqb "search" "searchable") with false.
  change (String.eqb "search" "orderable") with false.
  change (String.eqb "search" "search") with true.
  cbv iota. rewrite Hi. cbn [mbind outcome_bind obind].
  change ("search" +:+ "[value]") with "search[value]".
  rewrite parseSearch_value. by rewrite update_grow by lia.
Qed.

(** The string fields of the form are copied as they are: after the key
    the field holds the value, byte for byte, and there is no error. *)
Theorem string_fields_verbatim (r : Request) (ds : string) (id : Z)
    (v : string) :
  Str.all Str.is_digit ds = true → strconv.Atoi ds = (id, None) →
  (id < strconv.MaxInt)%Z →
  (∃ r', parseKey r "search[value]" v = Ret (r', None) ∧
         Search_Value (Request_Search r') = v ∧
         Search_Regex (Request_Search r')
         = Search_Regex (Request_Search r)) ∧
  (∃ r' c, parseKey r ("columns[" +:+ ds +:+ "][data]") v = Ret (r', None) ∧
           slice.elems (Request_Columns r') !! Z.to_nat id = Some c ∧
           Column_Data c = v) ∧
  (∃ r' c, parseKey r ("columns[" +:+ ds +:+ "][name]") v = Ret (r', None) ∧
           slice.elems (Request_Columns r') !! Z.to_nat id = Some c ∧
           Column_Name c = v) ∧
  (∃ r' c, parseKey r ("columns[" +:+ ds +:+ "][search][value]") v
             = Ret (r', None) ∧
           slice.elems (Request_Columns r') !! Z.to_nat id = Some c ∧
           Search_Value (Column_Search c) = v).
Proof.
  intros Hds Ha Hid. pose proof (Atoi_digits _ _ Hds Ha) as [Hr _].
  split; [|split; [|split]].
  - eexists. split; [reflexivity|]. by split.
  - rewrite (parseKey_column_data r ds id v) by done.
    destruct (column_written_entry r id (set_Column_Data v) Hr)
      as (c & _ & Hc).
    eexists _, _. split; [reflexivity|]. split; [by apply Hc|done].
  - rewrite (parseKey_column_name r ds id v) by done.
    destruct (column_written_entry r id (set_Column_Name v) Hr)
      as (c & _ & Hc).
    eexists _, _. split; [reflexivity|]. split; [by apply Hc|done].
  - destruct (parseKey_column_search_value r ds id v Hds Ha Hid)
      as (c0 & Hc0 & ->).
    destruct (column_written_entry r id
                (set_Column_Search (set_Search_Value v (Column_Search c0)))
                Hr) as (c & _ & Hc).
    eexists _, _. split; [reflexivity|]. split; [by apply Hc|done].
Qed.

Lemma string_fields_verbatim_witness :
  (∃ r', parseKey zero_Request "search[value]" "^bla$" = Ret (r', None) ∧
         Search_Value (Request_Search r') = "^bla$" ∧
         Search_Regex (Request_Search r')
         = Search_Regex (Request_Search zero_Request)) ∧
  (∃ r' c, parseKey zero_Request ("columns[" +:+ "2" +:+ "][data]") "^bla$"
             = Ret (r', None) ∧
           slice.elems (Request_Columns r') !! Z.to_nat 2 = Some c ∧
           Column_Data c = "^bla$") ∧
  (∃ r' c, parseKey zero_Request ("columns[" +:+ "2" +:+ "][name]") "^bla$"
             = Ret (r', None) ∧
           slice.elems (Request_Columns r') !! Z.to_nat 2 = Some c ∧
           Column_Name c = "^bla$") ∧
  (∃ r' c, parseKey zero_Request
             ("columns[" +:+ "2" +:+ "][search][value]") "^bla$"
             = Ret (r', None) ∧
           slice.elems (Request_Columns r') !! Z.to_nat 2 = Some c ∧
           Search_Value (Column_Search c) = "^bla$").
Proof.
  apply (string_fields_verbatim zero_Request "2" 2 "^bla$"); reflexivity.
Defined.

Lemma ParseUint_loop_digits_no_syntax (s : string) (n v : Z) :
  Str.all Str.is_digit s = true →
  strconv.ParseUint_loop s n ≠ (v, Some ErrSyntax).
Proof.
  revert n. induction s as [|c s IH]; intros n Hs; [done|].
  simpl in Hs. apply andb_true_iff in Hs as [Hc Hs].
  cbn [strconv.ParseUint_loop]. rewrite Hc.
  destruct (_ <=? n)%Z; [done|]. destruct (_ || _); [done|]. by apply IH.
Qed.

(** On a row of digits Atoi can only fail because the number is too
    large; it then returns the largest [int]. *)
Lemma Atoi_digits_error (ds : string) (n : Z) (e : error) :
  Str.all Str.is_digit ds = true → ds ≠ "" →
  strconv.Atoi ds = (n, Some e) →
  e = NumError "Atoi" ds ErrRange ∧ n = strconv.MaxInt.
Proof.
  intros Hds Hne. unfold strconv.Atoi, strconv.ParseInt.
  destruct ds as [|c s']; [done|].
  pose proof Hds as Hds'. cbn [Str.all] in Hds'.
  apply andb_true_iff in Hds' as [Hc _].
  destruct (digit_not_sign _ Hc) as [-> ->]. cbn [orb negb andb].
  unfold strconv.ParseUint.
  destruct (strconv.ParseUint_loop (String c s') 0) as [un x] eqn:Hp.
  destruct x as [[]|].
  - by apply ParseUint_loop_digits_no_syntax in Hp.
  - destruct (_ <=? un)%Z; intros [= <- <-]; done.
  - destruct (_ <=? un)%Z; intros [= <- <-]; done.
Qed.

(** An index too large for an [int]: both parse functions return the
    range error of Atoi; parseOrder returns the nil slice with it (the
    orders read so far are dropped), parseColumn the columns it was
    given. *)
Theorem index_out_of_int_range (k v ds : string) (n : Z) (e : error) :
  strconv.Atoi ds = (n, Some e) →
  (∀ o f, FindStringSubmatch orderRegexp k = [k; ds; f] →
          parseOrder o k v = Ret (slice.nil, Some e) ∧
          e = NumError "Atoi" ds ErrRange) ∧
  (∀ cols f rest, FindStringSubmatch columnRegexp k = [k; ds; f; rest] →
                  parseColumn cols k v = Ret (cols, Some e) ∧
                  e = NumError "Atoi" ds ErrRange).
Proof.
  intros Ha. split.
  - intros o f Hm. split.
    + unfold parseOrder. rewrite Hm. cbn [length Nat.ltb Nat.leb sub nth].
      by rewrite Ha.
    + destruct (orderRegexp_shape k) as [H0|(ds' & f' & Hm' & Hds & Hne)];
        [congruence|].
      rewrite Hm in Hm'. injection Hm' as <- <-.
      by destruct (Atoi_digits_error _ _ _ Hds Hne Ha).
  - intros cols f rest Hm. split.
    + unfold parseColumn. rewrite Hm. cbn [length Nat.ltb Nat.leb sub nth].
      by rewrite Ha.
    + destruct (columnRegexp_shape k)
        as [H0|(ds' & f' & rest' & Hm' & Hds & Hne)]; [congruence|].
      rewrite Hm in Hm'. injection Hm' as <- <- <-.
      by destruct (Atoi_digits_error _ _ _ Hds Hne Ha).
Qed.

Lemma index_out_of_int_range_witness :
  parseOrder (Some [mkOrder 1 "desc"]) "order[99999999999999999999][dir]"
    "asc"
  = Ret (slice.nil,
         Some (NumError "Atoi" "99999999999999999999" ErrRange)) ∧
  NumError "Atoi" "99999999999999999999" ErrRange
  = NumError "Atoi" "99999999999999999999" ErrRange.
Proof.
  apply (proj1 (index_out_of_int_range "order[99999999999999999999][dir]"
                  "asc" "99999999999999999999" strconv.MaxInt
                  (NumError "Atoi" "99999999999999999999" ErrRange) eq_refl)
           (Some [mkOrder 1 "desc"]) "dir").
  reflexivity.
Defined.

Lemma grow_MaxInt {T} (zero : T) (s : slice.t T) :
  (slice.len s <= strconv.MaxInt)%Z →
  grow zero s strconv.MaxInt = s ∧
  (∀ f, slice.update s strconv.MaxInt f = Panic) ∧
  slice.index s strconv.MaxInt = Panic.
Proof.
  intros Hl. unfold grow, slice.update, slice.index.
  change (strconv.wrap (strconv.MaxInt + 1)) with strconv.MinInt.
  assert (0 <= slice.len s)%Z as H0 by (unfold slice.len; lia).
  destruct (Z.ltb_spec (slice.len s) strconv.MinInt) as [Hlt|_].
  { unfold strconv.MinInt in Hlt. lia. }
  destruct (Z.ltb_spec strconv.MaxInt (slice.len s)) as [Hlt|_]; [lia|].
  by rewrite andb_false_r.
Qed.

(** The index [MaxInt] (9223372036854775807): [id+1] wraps around, the
    sequence is not grown, and writing the entry is an index out of
    range. The key is a run-time panic for every field that is written. *)
Theorem index_MaxInt_panics (k v ds : string) :
  strconv.Atoi ds = (strconv.MaxInt, None) →
  (∀ o f, (slice.len o <= strconv.MaxInt)%Z →
          FindStringSubmatch orderRegexp k = [k; ds; f] →
          f = "column" ∨ (f = "dir" ∧ (v = "asc" ∨ v = "desc")) →
          parseOrder o k v = Panic) ∧
  (∀ cols f rest, (slice.len cols <= strconv.MaxInt)%Z →
          FindStringSubmatch columnRegexp k = [k; ds; f; rest] →
          f ∈ ["data"; "name"; "searchable"; "orderable"; "search"] →
          parseColumn cols k v = Panic).
Proof.
  intros Ha. split.
  - intros o f Hl Hm Hf. destruct (grow_MaxInt zero_Order o Hl) as (Hg & Hu & _).
    unfold parseOrder. rewrite Hm. cbn [length Nat.ltb Nat.leb sub nth].
    rewrite Ha, Hg.
    destruct Hf as [->|[-> [->| ->]]]; cbn [String.eqb Ascii.eqb Bool.eqb].
    + destruct (strconv.Atoi v). by rewrite Hu.
    + by rewrite Hu.
    + by rewrite Hu.
  - intros cols f rest Hl Hm Hf.
    destruct (grow_MaxInt zero_Column cols Hl) as (Hg & Hu & Hi).
    unfold parseColumn. rewrite Hm. cbn [length Nat.ltb Nat.leb sub nth].
    rewrite Ha, Hg.
    repeat (apply elem_of_cons in Hf as [->|Hf]);
      [..|by apply elem_of_nil in Hf];
      cbn [String.eqb Ascii.eqb Bool.eqb]; rewrite ?Hu, ?Hi; try done.
    all: by destruct (String.eqb v "true").
Qed.

Lemma index_MaxInt_panics_witness :
  parseOrder None "order[9223372036854775807][dir]" "asc" = Panic.
Proof.
  apply (proj1 (index_MaxInt_panics "order[9223372036854775807][dir]" "asc"
                  "9223372036854775807" eq_refl) None "dir").
  - by vm_compute.
  - reflexivity.
  - right. split; [reflexivity|by left].
Defined.

Lemma Atoi_leading_zero (ds : string) (id : Z) :
  Str.all Str.is_digit ds = true → strconv.Atoi ds = (id, None) →
  strconv.Atoi (String "0" ds) = (id, None).
Proof.
  intros Hds. unfold strconv.Atoi, strconv.ParseInt.
  destruct ds as [|c s']; [done|].
  cbn [Str.all] in Hds. apply andb_true_iff in Hds as [Hc _].
  destruct (digit_not_sign _ Hc) as [-> ->].
  change (Ascii.eqb "0" "+") with false.
  change (Ascii.eqb "0" "-") with false. cbn [orb negb andb].
  unfold strconv.ParseUint.
  change (strconv.ParseUint_loop (String "0" (String c s')) 0)
    with (strconv.ParseUint_loop (String c s') 0).
  destruct (strconv.ParseUint_loop (String c s') 0) as [un [[]|]];
    [done|by destruct (_ <=? un)%Z..].
Qed.

Lemma parseKey_dir_entry r ds id v :
  Str.all Str.is_digit ds = true → strconv.Atoi ds = (id, None) →
  (id < strconv.MaxInt)%Z → v = "asc" ∨ v = "desc" →
  ∃ r' o, parseKey r ("order[" +:+ ds +:+ "][dir]") v = Ret (r', None) ∧
          slice.elems (Request_Order r') !! Z.to_nat id = Some o ∧
          Order_Dir o = v.
Proof.
  intros Hds Ha Hid Hv.
  destruct (parseKey_dir r ds id v Hds Ha Hid) as (o & Ho & ->).
  eexists _, _. split; [reflexivity|]. split.
  - simpl. by rewrite list_lookup_alter_eq, Ho.
  - by destruct Hv as [-> | ->].
Qed.

(** The result is not a function of the mapping alone: an index with a
    leading zero is the same index, so [order[ds][dir]] and
    [order[0ds][dir]] are two keys for one field, and the one visited
    last wins. *)
Theorem leading_zero_alias (ds : string) (id : Z) :
  Str.all Str.is_digit ds = true → strconv.Atoi ds = (id, None) →
  (id < strconv.MaxInt)%Z →
  let k1 := "order[" +:+ ds +:+ "][dir]" in
  let k2 := "order[" +:+ String "0" ds +:+ "][dir]" in
  k1 ≠ k2 ∧
  (∃ r o, ParseURLValues [(k1, ["asc"]); (k2, ["desc"])] = Ret (r, None) ∧
          slice.elems (Request_Order r) !! Z.to_nat id = Some o ∧
          Order_Dir o = "desc") ∧
  (∃ r o, ParseURLValues [(k2, ["desc"]); (k1, ["asc"])] = Ret (r, None) ∧
          slice.elems (Request_Order r) !! Z.to_nat id = Some o ∧
          Order_Dir o = "asc").
Proof.
  intros Hds Ha Hid k1 k2. subst k1 k2.
  assert (Str.all Str.is_digit (String "0" ds) = true) as Hds0
    by (cbn [Str.all]; by rewrite Hds).
  pose proof (Atoi_leading_zero ds id Hds Ha) as Ha0.
  split; [|split].
  - intros Heq.
    apply (f_equal String.length) in Heq.
    rewrite !str_length_app in Heq. simpl in Heq. lia.
  - destruct (parseKey_dir_entry zero_Request ds id "asc" Hds Ha Hid)
      as (r1 & o1 & H1 & _); [by left|].
    destruct (parseKey_dir_entry r1 (String "0" ds) id "desc" Hds0 Ha0 Hid)
      as (r2 & o2 & H2 & Ho2 & Hd2); [by right|].
    exists r2, o2. split; [|done].
    unfold ParseURLValues. cbn [ParseURLValues_from].
    rewrite H1. cbn [mbind outcome_bind obind].
    rewrite H2. done.
  - destruct (parseKey_dir_entry zero_Request (String "0" ds) id "desc"
                Hds0 Ha0 Hid) as (r1 & o1 & H1 & _); [by right|].
    destruct (parseKey_dir_entry r1 ds id "asc" Hds Ha Hid)
      as (r2 & o2 & H2 & Ho2 & Hd2); [by left|].
    exists r2, o2. split; [|done].
    unfold ParseURLValues. cbn [ParseURLValues_from].
    rewrite H1. cbn [mbind outcome_bind obind].
    rewrite H2. done.
Qed.

Lemma leading_zero_alias_witness :
  let k1 := "order[" +:+ "0" +:+ "][dir]" in
  let k2 := "order[" +:+ String "0" "0" +:+ "][dir]" in
  k1 ≠ k2 ∧
  (∃ r o, ParseURLValues [(k1, ["asc"]); (k2, ["desc"])] = Ret (r, None) ∧
          slice.elems (Request_Order r) !! Z.to_nat 0 = Some o ∧
          Order_Dir o = "desc") ∧
  (∃ r o, ParseURLValues [(k2, ["desc"]); (k1, ["asc"])] = Ret (r, None) ∧
          slice.elems (Request_Order r) !! Z.to_nat 0 = Some o ∧
          Order_Dir o = "asc").
Proof. apply (leading_zero_alias "0" 0); reflexivity. Defined.

Lemma match_rbracket_end (s : string) (caps : list string) :
  match_seq [Lit "]"] s = Some caps ↔ s = "]" ∧ caps = [].
Proof.
  cbn [match_seq]. split.
  - destruct (Str.strip_prefix "]" s) as [s'|] eqn:E; [|done].
    apply strip_prefix_Some in E as ->. destruct s'; [|done].
    by intros [= <-].
  - by intros [-> ->].
Qed.

(** The last group of the search and order patterns takes everything up
    to the closing bracket at the end. *)
Lemma lazy_cap_to_end (f taken : string) (n : nat) :
  Str.all dot f = true → (1 ≤ n + String.length f)%nat →
  lazy_cap dot 1 (match_seq [Lit "]"]) taken n (f +:+ "]")
  = Some [taken +:+ f].
Proof.
  revert taken n. induction f as [|a f IH]; intros taken n Hf Hn.
  - rewrite str_app_nil_l, str_app_nil_r. simpl in Hn.
    cbn [lazy_cap]. destruct (Nat.leb_spec 1 n); [done|lia].
  - cbn [Str.all] in Hf. apply andb_true_iff in Hf as [Ha Hf].
    rewrite str_app_cons. cbn [lazy_cap].
    assert (match_seq [Lit "]"] (String a (f +:+ "]")) = None) as ->.
    { destruct (match_seq [Lit "]"] (String a (f +:+ "]"))) eqn:E; [|done].
      apply match_rbracket_end in E as [E _]. injection E as _ E.
      apply (f_equal String.length) in E. rewrite str_length_app in E.
      simpl in E. lia. }
    replace (if (1 <=? n)%nat then None else None)
      with (@None (list string)) by by destruct (1 <=? n)%nat.
    rewrite Ha. rewrite IH; [|done|simpl; lia]. by rewrite str_app_snoc.
Qed.

(** The keys the search pattern matches. *)
Definition search_key (k f : string) : Prop :=
  k = "search[" +:+ f +:+ "]" ∧ f ≠ "" ∧ Str.all dot f = true.

Lemma searchRegexp_match (k : string) :
  (∃ f, search_key k f ∧ FindStringSubmatch searchRegexp k = [k; f]) ∨
  ((∀ f, ¬ search_key k f) ∧ FindStringSubmatch searchRegexp k = []).
Proof.
  unfold FindStringSubmatch.
  destruct (match_seq searchRegexp k) as [caps|] eqn:Hm.
  - left. unfold searchRegexp in Hm. cbn [match_seq] in Hm.
    destruct (Str.strip_prefix "search[" k) as [s1|] eqn:Hp; [|done].
    apply strip_prefix_Some in Hp as ->.
    apply lazy_cap_sound in Hm as (f & b & caps1 & -> & Hf & Hk & -> & Hl).
    change (match_seq [Lit "]"] b = Some caps1) in Hk.
    apply match_rbracket_end in Hk as [-> ->].
    exists f. rewrite str_app_nil_l. split; [|done].
    split; [done|]. split; [|done]. intros ->. simpl in Hl. lia.
  - right. split; [|done]. intros f (-> & Hne & Hf).
    unfold searchRegexp in Hm. cbn [match_seq] in Hm.
    rewrite strip_prefix_app in Hm.
    change (lazy_cap dot 1 (match_seq [Lit "]"]) "" 0 (f +:+ "]") = None)
      in Hm.
    rewrite lazy_cap_to_end in Hm; [done|done|].
    destruct f; [done|simpl; lia].
Qed.

(** parseSearch has one error, ErrNotEnoughFields, and returns it (with
    the Search it was given) exactly for the keys that are not
    [search[f]] with a non-empty [f] without line feed. For such a key
    it sets Value, sets Regex, or, when [f] is neither, changes
    nothing. *)
Theorem parseSearch_total (s : Search) (k v : string) :
  (∀ f, search_key k f →
        parseSearch s k v
        = (if String.eqb f "value" then set_Search_Value v s
           else if String.eqb f "regex"
                then set_Search_Regex (String.eqb v "true") s
                else s, None)) ∧
  ((∀ f, ¬ search_key k f) →
   parseSearch s k v = (s, Some ErrNotEnoughFields)).
Proof.
  split.
  - intros f Hf. unfold parseSearch.
    destruct (searchRegexp_match k) as [(f' & Hf' & ->)|[Hno _]];
      [|by destruct (Hno f)].
    assert (f' = f) as ->.
    { destruct Hf as (Hk & _), Hf' as (Hk' & _). rewrite Hk in Hk'.
      apply (inj (String.append "search[")) in Hk'.
      clear -Hk'. revert f' Hk'.
      induction f as [|a f IH]; intros [|a' f'] H; try done.
      - rewrite str_app_cons in H. injection H as _ H.
        apply (f_equal String.length) in H. rewrite str_length_app in H.
        simpl in H. lia.
      - rewrite str_app_cons in H. injection H as _ H.
        apply (f_equal String.length) in H. rewrite str_length_app in H.
        simpl in H. lia.
      - rewrite !str_app_cons in H. injection H as -> H.
        by rewrite (IH f'). }
    cbn [length Nat.ltb Nat.leb sub nth].
    destruct (String.eqb f "value"); [done|].
    destruct (String.eqb f "regex"); [|done].
    by destruct (String.eqb v "true").
  - intros Hno. unfold parseSearch.
    destruct (searchRegexp_match k) as [(f' & Hf' & _)|[_ ->]]; [|done].
    by destruct (Hno f').
Qed.

Lemma parseSearch_total_witness :
  parseSearch zero_Search "search[value]" "x"
  = (if String.eqb "value" "value" then set_Search_Value "x" zero_Search
     else if String.eqb "value" "regex"
          then set_Search_Regex (String.eqb "x" "true") zero_Search
          else zero_Search, None).
Proof.
  apply (proj1 (parseSearch_total zero_Search "search[value]" "x") "value").
  split; [reflexivity|]. split; [done|reflexivity].
Defined.

(* ================================================================== *)
(** * Further properties of the row codec *)
(* ================================================================== *)

(** The values a data entry can be read from. *)
Definition string_or_null (v : json) : bool :=
  match v with
  | JStr _ | JNull => true
  | _ => false
  end.

Lemma map_step_bad_value m k v :
  string_or_null v = false → (map_step m k v).2 ≠ jsn.Fine.
Proof. by destruct v. Qed.

Lemma elements_strings_Fine (cur : list string) (l : list json) :
  (jsn.elements jsn.unmarshal_string "" cur l).2 = jsn.Fine →
  Forall (λ v, string_or_null v = true) l.
Proof.
  revert cur. induction l as [|v l IH]; intros cur; [by constructor|].
  cbn [jsn.elements].
  pose proof (unmarshal_string_not_fatal (hd "" cur) v) as Hnf.
  destruct (jsn.unmarshal_string (hd "" cur) v) as [x d] eqn:Hv.
  simpl in Hnf. rewrite Hnf.
  destruct (jsn.elements jsn.unmarshal_string "" (tl cur) l) as [xs d'] eqn:Hl.
  simpl. intros Hj. constructor.
  - destruct v; try done; simpl in Hv; injection Hv as <- <-; by destruct d'.
  - apply (IH (tl cur)). rewrite Hl. simpl. by destruct d, d'.
Qed.

Lemma object_values_string_or_null (r0 : Row) (ms : list (string * json)) :
  (UnmarshalJSON r0 (JObj ms)).2 = None →
  Forall (λ kv : string * json, string_or_null kv.2 = true) ms.
Proof.
  intros H. apply Forall_forall. intros [k v] Hin. simpl.
  destruct (string_or_null v) eqn:Hv; [done|]. exfalso.
  revert H. unfold UnmarshalJSON.
  cbn [jsn.unmarshal_slice jsn.type_error jsn.to_error].
  destruct (unmarshal_rowCopy zero_rowCopy (JObj ms)) as [c d].
  destruct (jsn.to_error d) as [e|]; [done|].
  rewrite unmarshal_map_string_obj.
  pose proof (members_error map_step ms ∅ jsn.Fine k v Hin
                (λ c0, map_step_bad_value c0 k v Hv)) as Hd.
  destruct (jsn.members map_step ms ∅ jsn.Fine) as [m d']. simpl in Hd.
  by destruct d'.
Qed.

(** What UnmarshalJSON accepts: [null], an array, or an object, and in
    the array or the object no value other than a string or [null].
    Every other JSON value gives an error. *)
Theorem accepted_shapes (r0 : Row) (j : json) :
  (UnmarshalJSON r0 j).2 = None →
  j = JNull ∨
  (∃ l, j = JArr l ∧ Forall (λ v, string_or_null v = true) l) ∨
  (∃ ms, j = JObj ms ∧ Forall (λ kv, string_or_null kv.2 = true) ms).
Proof.
  destruct j as [|b|n|lit|s|l|ms]; try done.
  - by left.
  - intros H. right. left. exists l. split; [done|].
    apply (elements_strings_Fine []).
    revert H. unfold UnmarshalJSON, jsn.unmarshal_slice.
    simpl slice.elems.
    destruct (jsn.elements jsn.unmarshal_string "" [] l) as [xs d].
    simpl. destruct d as [|e|e]; [done|by simpl..].
  - intros H. right. right. exists ms. split; [done|].
    by apply (object_values_string_or_null r0).
Qed.

Lemma accepted_shapes_witness :
  JArr [JStr "Airi"; JStr "Satou"] = JNull ∨
  (∃ l, JArr [JStr "Airi"; JStr "Satou"] = JArr l
        ∧ Forall (λ v, string_or_null v = true) l) ∨
  (∃ ms, JArr [JStr "Airi"; JStr "Satou"] = JObj ms
         ∧ Forall (λ kv, string_or_null kv.2 = true) ms).
Proof.
  apply (accepted_shapes zero_Row (JArr [JStr "Airi"; JStr "Satou"])).
  reflexivity.
Defined.

(** In the array shape [null] stands for the empty string, and [null]
    alone for no element at all; the reading of these does not fail. *)
Lemma elements_string_or_null (cur : list string) (l : list json) :
  Forall (λ v, string_or_null v = true) l →
  ∃ xs, jsn.elements jsn.unmarshal_string "" cur l = (xs, jsn.Fine) ∧
        length xs = length l ∧
        ∀ (i : nat) s, l !! i = Some (JStr s) → xs !! i = Some s.
Proof.
  intros Hl. revert cur. induction Hl as [|v l Hv _ IH]; intros cur.
  - by exists [].
  - destruct (IH (tl cur)) as (xs & Hxs & Hlen & Hget).
    cbn [jsn.elements]. destruct v; try done; simpl; rewrite Hxs.
    + exists (hd "" cur :: xs). split; [done|]. split; [simpl; lia|].
      intros [|i] s0 Hi; [done|]. by apply Hget.
    + exists (s :: xs). split; [done|]. split; [simpl; lia|].
      intros [|i] s0 Hi; [by injection Hi as ->|]. by apply Hget.
Qed.

Lemma rowCopy_maps_stay_empty ms c d :
  Forall (λ kv : string * json, string_or_null kv.2 = true) ms →
  jsn.is_fatal d = false →
  rowCopy_RowData c = ∅ → rowCopy_RowAttr c = ∅ →
  rowCopy_RowData (jsn.members rowCopy_member ms c d).1 = ∅ ∧
  rowCopy_RowAttr (jsn.members rowCopy_member ms c d).1 = ∅.
Proof.
  intros Hms. revert c d. induction Hms as [|[k v] ms Hv _ IH];
    intros c d Hd H1 H2; [done|].
  rewrite members_cons by (apply rowCopy_member_never_fatal || done).
  apply IH.
  - apply join_not_fatal; [done|apply rowCopy_member_never_fatal].
  - unfold rowCopy_member.
    destruct (jsn.field reserved k) as [[|[|[|[|n]]]]|]; simpl in *;
      destruct v; try done.
  - unfold rowCopy_member.
    destruct (jsn.field reserved k) as [[|[|[|[|n]]]]|]; simpl in *;
      destruct v; try done.
Qed.

(** Whatever object UnmarshalJSON decodes without error, the RowData and
    the RowAttr of the row are empty: a member that could fill them is an
    object, and an object among the values makes the decoding fail.
    The two fields can be written, never read. *)
Theorem decoded_metadata_maps_empty (r0 : Row) (ms : list (string * json))
    (r : Row) :
  UnmarshalJSON r0 (JObj ms) = (r, None) →
  Row_RowData r = ∅ ∧ Row_RowAttr r = ∅.
Proof.
  intros H.
  assert (Forall (λ kv : string * json, string_or_null kv.2 = true) ms)
    as Hms.
  { apply (object_values_string_or_null r0). by rewrite H. }
  apply UnmarshalJSON_object in H as (_ & _ & ->). cbn zeta. simpl.
  by apply rowCopy_maps_stay_empty.
Qed.

Lemma decoded_metadata_maps_empty_witness :
  Row_RowData (mkRow {["a" := ""]} "x" "" ∅ ∅) = ∅ ∧
  Row_RowAttr (mkRow {["a" := ""]} "x" "" ∅ ∅) = ∅.
Proof.
  apply (decoded_metadata_maps_empty zero_Row
           [("DT_RowId", JStr "x"); ("DT_RowData", JNull); ("a", JNull)]).
  vm_compute. reflexivity.
Defined.

(** The member that MarshalJSON writes under the key [k]: one of the
    four fields when it is not empty, and else the data entry. A field
    comes before a data entry of the same key. *)
Definition marshal_entry (r : Row) (k : string) : option json :=
  if decide (k = "DT_RowAttr" ∧ Row_RowAttr r ≠ ∅)
  then Some (jsn.marshal_map jsn.marshal_string (Row_RowAttr r))
  else if decide (k = "DT_RowData" ∧ Row_RowData r ≠ ∅)
  then Some (jsn.marshal_map jsn.marshal_string (Row_RowData r))
  else if decide (k = "DT_RowClass" ∧ Row_RowClass r ≠ "")
  then Some (jsn.marshal_string (Row_RowClass r))
  else if decide (k = "DT_RowId" ∧ Row_RowID r ≠ "")
  then Some (jsn.marshal_string (Row_RowID r))
  else jsn.marshal_string <$> Row_Data r !! k.

Lemma size_pos_non_empty {A} (m : gmap string A) :
  (0 <? size m)%nat = bool_decide (m ≠ ∅).
Proof.
  destruct (decide (m = ∅)) as [->|Hne].
  - by rewrite map_size_empty, bool_decide_eq_false_2 by (by intros H).
  - rewrite bool_decide_eq_true_2 by done.
    apply map_size_non_empty_iff in Hne. apply Nat.ltb_lt. lia.
Qed.

Lemma key_le_total {A} : Total (@jsn.key_le A).
Proof. intros x y. unfold jsn.key_le. apply total, _. Qed.

(** What MarshalJSON writes: an object with the members [ms], each
    under its key as the encoder writes a string. The members [ms] are
    sorted by key, with no key twice; they are the entries of the data
    and, for each of RowID, RowClass, RowData and RowAttr that is not
    empty, a member under the reserved key, which replaces a data entry
    of that key. Empty fields are not written. *)
Theorem MarshalJSON_members (r : Row) :
  ∃ ms, MarshalJSON r = (JObj (prod_map jsn.coerce id <$> ms), None) ∧
        Sorted jsn.key_le ms ∧ NoDup ms.*1 ∧
        ∀ k v, (k, v) ∈ ms ↔ marshal_entry r k = Some v.
Proof.
  unfold MarshalJSON, jsn.marshal_map at 3. eexists. split; [reflexivity|].
  rewrite prod_map_id_id. split; [|split].
  - apply Sorted_merge_sort, key_le_total.
  - rewrite merge_sort_Permutation. apply NoDup_fst_map_to_list.
  - intros k v. rewrite merge_sort_Permutation, elem_of_map_to_list.
    rewrite !size_pos_non_empty. unfold marshal_entry.
    destruct (String.eqb_spec (Row_RowID r) "") as [Hi|Hi];
      destruct (String.eqb_spec (Row_RowClass r) "") as [Hc|Hc];
      repeat case_bool_decide; simpl;
      repeat case_decide; destruct_and?; simplify_eq;
      repeat match goal with
             | H : ¬ (_ ∧ _) |- _ => apply not_and_l in H as [H|H]
             end; try done;
      rewrite ?lookup_insert_eq, ?lookup_fmap; try done;
      rewrite ?lookup_insert_ne, ?lookup_fmap by done; try done;
      rewrite ?lookup_insert_eq, ?lookup_fmap; try done;
      rewrite ?lookup_insert_ne, ?lookup_fmap by done; try done;
      rewrite ?lookup_insert_eq, ?lookup_fmap; try done;
      rewrite ?lookup_insert_ne, ?lookup_fmap by done; try done;
      rewrite ?lookup_insert_eq, ?lookup_fmap; try done.
Qed.

Lemma field_reserved_digit (c : ascii) (rest : string) :
  Str.is_digit c = true → jsn.field reserved (String c rest) = None.
Proof.
  intros Hc.
  destruct c as [[] [] [] [] [] [] [] []]; try (vm_compute in Hc; congruence);
    clear Hc; destruct rest as [|c1 [|c2 s3]]; reflexivity.
Qed.

Lemma Itoa_first_digit (i : Z) :
  (0 <= i)%Z →
  ∃ c rest, strconv.Itoa i = String c rest ∧ Str.is_digit c = true.
Proof.
  intros Hi. unfold strconv.Itoa. destruct i as [|p|p]; [by exists "0"%char, ""| |lia].
  simpl. pose proof (DecimalPos.Unsigned.to_uint_nonnil p) as Hn.
  destruct (Pos.to_uint p); [done|..]; simpl; by eexists _, _.
Qed.

Lemma range_rowData_entry l i m k v :
  range_rowData i l m !! k = Some v →
  m !! k = Some v ∨ (v ∈ l ∧ ∃ j : nat, k = strconv.Itoa (i + Z.of_nat j)).
Proof.
  revert i m. induction l as [|x l IH]; intros i m; simpl; [by left|].
  intros Hk. apply IH in Hk as [Hk|(Hv & j & ->)].
  - apply lookup_insert_Some in Hk as [[<- <-]|[_ Hk]]; [|by left].
    right. split; [by left|]. exists 0%nat.
    change (Z.of_nat 0) with 0%Z. by rewrite Z.add_0_r.
  - right. split; [by right|]. exists (S j). f_equal. lia.
Qed.

Lemma range_rowData_utf8 l :
  Forall (λ s, utf8.ValidString s = true) l →
  row_utf8 (mkRow (range_rowData 0 l ∅) "" "" ∅ ∅).
Proof.
  intros Hl. split; [|done]. intros k v Hk. simpl in Hk.
  apply range_rowData_entry in Hk as [Hk|(Hv & j & ->)]; [done|].
  split; [apply Itoa_valid|]. by apply (proj1 (Forall_forall _ _) Hl).
Qed.

Lemma range_rowData_keys_plain l k :
  is_Some (range_rowData 0 l ∅ !! k) → jsn.field reserved k = None.
Proof.
  intros Hk. apply range_rowData_keys in Hk as [Hk|(j & _ & ->)].
  - rewrite lookup_empty in Hk. by destruct Hk.
  - destruct (Itoa_first_digit (0 + Z.of_nat j)) as (c & rest & -> & Hc);
      [lia|].
    by apply field_reserved_digit.
Qed.

(** A row read from an array of strings (of valid UTF-8, as the strings
    of a JSON text are) is written as an object, with the positions as
    keys, and reading that object gives the same row: after the first
    decoding the round trip holds. *)
Theorem array_row_reencoded (l : list string) (r0 : Row) :
  Forall (λ s, utf8.ValidString s = true) l →
  let r := (UnmarshalJSON zero_Row (JArr (JStr <$> l))).1 in
  (∃ ms, (MarshalJSON r).1 = JObj ms ∧ length ms = length l) ∧
  UnmarshalJSON r0 (MarshalJSON r).1 = (r, None).
Proof.
  intros Hl. rewrite UnmarshalJSON_array. cbn [fst].
  cbn [zero_Row Row_RowID Row_RowClass Row_RowData Row_RowAttr].
  pose proof (range_rowData_utf8 l Hl) as Hv.
  assert (∀ k, is_Some (Row_Data (mkRow (range_rowData 0 l ∅) "" "" ∅ ∅)
                          !! k) → jsn.field reserved k = None) as Hd.
  { intros k. apply range_rowData_keys_plain. }
  split.
  - rewrite (MarshalJSON_plain _ Hd eq_refl eq_refl Hv). eexists.
    split; [reflexivity|]. rewrite marshal_ms_perm.
    unfold marshal_c. cbn [Row_RowID Row_RowClass Row_Data String.eqb negb].
    rewrite length_map_to_list, map_size_fmap, range_rowData_size;
      [by rewrite map_size_empty; lia|].
    intros. apply lookup_empty.
  - by apply UnmarshalJSON_MarshalJSON.
Qed.

Lemma array_row_reencoded_witness :
  let r := (UnmarshalJSON zero_Row (JArr (JStr <$> ["Airi"; "Satou"]))).1 in
  (∃ ms, (MarshalJSON r).1 = JObj ms
         ∧ length ms = length ["Airi"; "Satou"]) ∧
  UnmarshalJSON zero_Row (MarshalJSON r).1 = (r, None).
Proof.
  apply (array_row_reencoded ["Airi"; "Satou"] zero_Row).
  repeat constructor.
Defined.

(* ================================================================== *)
(** * Properties of the handler for a MongoDB collection *)
(* ================================================================== *)

(** The text a pattern spells when it is made of plain characters and
    quoted metacharacters only; [None] for a pattern with an operator
    (a metacharacter that is not quoted, or a backslash before another
    character). *)
Fixpoint literal (p : string) : option string :=
  match p with
  | EmptyString => Some EmptyString
  | String c p' =>
      if Ascii.eqb c "\" then
        match p' with
        | String d p'' =>
            if special d then String d <$> literal p'' else None
        | EmptyString => None
        end
      else if special c then None
      else String c <$> literal p'
  end.

Lemma backslash_special c : Ascii.eqb c "\" = true → special c = true.
Proof. intros ->%Ascii.eqb_eq. reflexivity. Qed.

(** What QuoteMeta returns has no operator: it spells the text it was
    given, whatever metacharacters the text has. *)
Theorem QuoteMeta_literal (s : string) : literal (QuoteMeta s) = Some s.
Proof.
  induction s as [|c s IH]; [done|]. cbn [QuoteMeta].
  destruct (special c) eqn:Hc.
  - cbn [literal]. change (Ascii.eqb "\" "\") with true. cbv iota.
    by rewrite Hc, IH.
  - cbn [literal]. destruct (Ascii.eqb c "\") eqn:Hb.
    { apply backslash_special in Hb. congruence. }
    by rewrite Hc, IH.
Qed.

(** A text without metacharacter is its own pattern, and only such a
    text is. *)
Lemma QuoteMeta_length s :
  (String.length s <= String.length (QuoteMeta s))%nat ∧
  (Str.all (λ c, negb (special c)) s = false →
   String.length s < String.length (QuoteMeta s))%nat.
Proof.
  induction s as [|c s [IH1 IH2]]; [done|]. cbn [QuoteMeta Str.all].
  destruct (special c); simpl.
  - split; lia.
  - split; [lia|]. intros H. apply IH2 in H. lia.
Qed.

Theorem QuoteMeta_fixed (s : string) :
  QuoteMeta s = s ↔ Str.all (λ c, negb (special c)) s = true.
Proof.
  split.
  - intros H. destruct (Str.all _ s) eqn:E; [done|].
    apply (proj2 (QuoteMeta_length s)) in E. rewrite H in E. lia.
  - induction s as [|c s IH]; [done|]. cbn [QuoteMeta Str.all].
    intros [Hc Hs]%andb_true_iff. apply negb_true_iff in Hc.
    by rewrite Hc, IH.
Qed.

Section sorting.
Import mongo.

(** The entry of the sort list for the order [o]: the data name of the
    column it points to, after a [-] when the direction is descending. *)
Definition sort_field (cols : list Column) (o : Order) (f : string) : Prop :=
  ∃ c, cols !! Z.to_nat (Order_Column o) = Some c ∧
       f = if decide (Order_Dir o = OrderDescending)
           then "-" +:+ Column_Data c else Column_Data c.

Definition column_in_range (cols : slice.t Column) (o : Order) : Prop :=
  (0 <= Order_Column o < slice.len cols)%Z.

Global Instance column_in_range_dec cols o : Decision (column_in_range cols o).
Proof. unfold column_in_range. apply _. Defined.

Lemma index_in_range {T} (s : slice.t T) (id : Z) :
  (0 <= id < slice.len s)%Z →
  ∃ x, slice.elems s !! Z.to_nat id = Some x ∧ slice.index s id = Ret x.
Proof.
  intros [H0 H1]. unfold slice.index.
  destruct (Z.leb_spec 0 id); [|lia].
  destruct (Z.ltb_spec id (slice.len s)); [|lia]. simpl.
  destruct (lookup_lt_is_Some_2 (slice.elems s) (Z.to_nat id)) as [x Hx].
  { unfold slice.len in H1. lia. }
  exists x. by rewrite Hx.
Qed.

Lemma index_out_of_range {T} (s : slice.t T) (id : Z) :
  ¬ (0 <= id < slice.len s)%Z → slice.index s id = Panic.
Proof.
  intros H. unfold slice.index.
  destruct (Z.leb_spec 0 id); [|done].
  destruct (Z.ltb_spec id (slice.len s)); [lia|done].
Qed.

Lemma sort_fields_in_range cols order :
  Forall (column_in_range cols) order →
  ∃ fs, sort_fields cols order = Ret fs ∧
        Forall2 (sort_field (slice.elems cols)) order fs.
Proof.
  induction 1 as [|o order Ho _ (fs & Hfs & IH)].
  - exists []. by split.
  - destruct (index_in_range cols _ Ho) as (c & Hc & Hi).
    cbn [sort_fields]. rewrite Hi, Hfs. cbn [mbind outcome_bind obind mret outcome_ret].
    eexists. split; [reflexivity|]. constructor; [|done].
    exists c. split; [done|]. unfold OrderDescending.
    destruct (String.eqb_spec (Order_Dir o) "desc"); by case_decide.
Qed.

Lemma sort_fields_out_of_range cols order :
  Exists (λ o, ¬ column_in_range cols o) order →
  sort_fields cols order = Panic.
Proof.
  induction 1 as [o order Ho|o order _ IH]; cbn [sort_fields].
  - by rewrite (index_out_of_range cols _ Ho).
  - rewrite IH. by destruct (slice.index cols (Order_Column o)).
Qed.

Lemma sort_fields_Panic cols order :
  sort_fields cols order = Panic ↔
  Exists (λ o, ¬ column_in_range cols o) order.
Proof.
  split; [|apply sort_fields_out_of_range]. intros Hp.
  destruct (decide (Forall (column_in_range cols) order)) as [Hf|Hn].
  - destruct (sort_fields_in_range cols order Hf) as (fs & Hfs & _).
    congruence.
  - by apply not_Forall_Exists in Hn; [|apply _].
Qed.

Context {Q : Type} `{!Query Q}.

(** SortQuery ends in an index out of range exactly when an order names
    a column that the request does not have (an index below zero
    too). When it returns, the query is sorted by one field for each
    order, in the order of the request: the data name of the column,
    with [-] before it when the direction is [desc], and without for
    every other direction. *)
Theorem SortQuery_fields (i : Q) (r : Request) :
  (SortQuery i r = Panic ↔
   Exists (λ o, ¬ column_in_range (Request_Columns r) o)
     (slice.elems (Request_Order r))) ∧
  (∀ out, SortQuery i r = Ret out →
     ∃ fs, out = Sort fs i ∧
           Forall2 (sort_field (slice.elems (Request_Columns r)))
             (slice.elems (Request_Order r)) fs).
Proof.
  unfold SortQuery. split.
  - rewrite <- sort_fields_Panic.
    by destruct (sort_fields _ _).
  - intros out.
    destruct (decide (Forall (column_in_range (Request_Columns r))
                        (slice.elems (Request_Order r)))) as [Hf|Hn].
    + destruct (sort_fields_in_range _ _ Hf) as (fs & -> & H2).
      intros [= <-]. by exists fs.
    + apply not_Forall_Exists in Hn; [|apply _].
      by rewrite (sort_fields_out_of_range _ _ Hn).
Qed.

End sorting.

Section filter.
Import mongo.

(** The document of the general search and the document of the search
    of a column, for the column [c]. *)
Definition global_doc (search : Search) (c : Column) : bson.M :=
  {[ Column_Data c := pattern search ]}.

Definition column_doc (c : Column) : bson.M :=
  {[ Column_Data c := pattern (Column_Search c) ]}.

Definition has_search (c : Column) : Prop :=
  Search_Value (Column_Search c) ≠ "".

Global Instance has_search_dec c : Decision (has_search c).
Proof. unfold has_search. apply _. Defined.

Lemma filter_loop search cols global column :
  foldl (filter_step search) (global, column) cols
  = (global ++ (global_doc search <$> cols),
     column ++ (column_doc <$> filter has_search cols)).
Proof.
  revert global column.
  induction cols as [|c cols IH]; intros global column.
  { by rewrite !app_nil_r. }
  cbn [foldl filter_step]. rewrite filter_cons.
  destruct (String.eqb_spec (Search_Value (Column_Search c)) "") as [He|Hne];
    cbn [negb]; rewrite IH.
  - rewrite decide_False by (unfold has_search; by intros H).
    by rewrite <- app_assoc.
  - rewrite decide_True by done.
    rewrite fmap_cons, <- !app_assoc. done.
Qed.

Lemma CreateFilter_eq (r : Request) :
  CreateFilter r =
    match filter has_search (slice.elems (Request_Columns r)) with
    | [] =>
        {[ "$or" := bson.Docs (global_doc (Request_Search r)
                                 <$> slice.elems (Request_Columns r)) ]}
    | searched =>
        {[ "$and" :=
             bson.Docs
               [{[ "$or" := bson.Docs (global_doc (Request_Search r)
                              <$> slice.elems (Request_Columns r)) ]};
                {[ "$and" := bson.Docs (column_doc <$> searched) ]}] ]}
    end.
Proof.
  unfold CreateFilter. rewrite filter_loop, !app_nil_l.
  by destruct (filter has_search _).
Qed.

(** The filter that CreateFilter builds. Under [$or] stands one
    document for every column of the request, in their order, with the
    pattern of the general search under the data name of the column.
    When no column has a search value of its own this is the whole
    filter. Otherwise the filter is the [$and] of that document and of a
    second one, which has under [$and] one document for every column
    with a search value, in their order. *)
Theorem CreateFilter_shape (r : Request) :
  let cols := slice.elems (Request_Columns r) in
  let general : bson.M :=
    {[ "$or" := bson.Docs (global_doc (Request_Search r) <$> cols) ]} in
  CreateFilter r =
    match filter has_search cols with
    | [] => general
    | searched =>
        {[ "$and" :=
             bson.Docs [general;
                        {[ "$and" := bson.Docs (column_doc <$> searched) ]}] ]}
    end.
Proof. apply CreateFilter_eq. Qed.

(** CreateFilter reads the data name and the search of the columns, and
    the general search. It reads no flag: a column that is marked as not
    searchable is searched like the others. *)
Theorem CreateFilter_reads (r r' : Request) :
  Request_Search r = Request_Search r' →
  (λ c, (Column_Data c, Column_Search c))
    <$> slice.elems (Request_Columns r)
  = (λ c, (Column_Data c, Column_Search c))
    <$> slice.elems (Request_Columns r') →
  CreateFilter r = CreateFilter r'.
Proof.
  intros Hs Hc. rewrite !CreateFilter_eq. rewrite <- Hs.
  set (se := Request_Search r). clearbody se.
  revert Hc. generalize (slice.elems (Request_Columns r')).
  generalize (slice.elems (Request_Columns r)). clear.
  assert (∀ l l' : list Column,
    (λ c, (Column_Data c, Column_Search c)) <$> l
    = (λ c, (Column_Data c, Column_Search c)) <$> l' →
    global_doc se <$> l = global_doc se <$> l' ∧
    column_doc <$> filter has_search l
    = column_doc <$> filter has_search l') as H.
  { induction l as [|c l IH]; intros [|c' l']; try done.
    rewrite !fmap_cons. intros [= Hd Hse Hl].
    destruct (IH l' Hl) as [IH1 IH2]. split.
    - unfold global_doc at 1 3. by rewrite Hd, IH1.
    - rewrite !filter_cons.
      assert (has_search c ↔ has_search c') as Hiff.
      { unfold has_search. by rewrite Hse. }
      destruct (decide (has_search c)) as [H1|H1],
               (decide (has_search c')) as [H2|H2]; [|tauto|tauto|done].
      rewrite !fmap_cons, IH2.
      unfold column_doc at 1 3. by rewrite Hd, Hse. }
  intros l l' Hl. destruct (H l l' Hl) as [-> H2].
  destruct (filter has_search l) as [|x xs] eqn:E,
           (filter has_search l') as [|y ys] eqn:E'; try done.
  by rewrite H2.
Qed.

Lemma CreateFilter_reads_witness :
  let se := mkSearch "a|b" true in
  let r := mkRequest 1 0 10 se slice.nil
             (Some [mkColumn "foo" "" false false (mkSearch "x" false)]) in
  let r' := mkRequest 2 5 20 se (Some [mkOrder 0 "asc"])
              (Some [mkColumn "foo" "n" true true (mkSearch "x" false)]) in
  CreateFilter r = CreateFilter r'.
Proof.
  cbv zeta. apply CreateFilter_reads; reflexivity.
Defined.

End filter.

Section handler.
Import mongo.

Lemma Atoi_int_ok (s : string) : int_ok (strconv.Atoi s).1.
Proof.
  assert (int_ok 0) as H0.
  { unfold int_ok, strconv.MinInt, strconv.MaxInt. simpl. lia. }
  unfold strconv.Atoi, strconv.ParseInt. destruct s as [|c s']; [done|].
  set (body := if _ || _ then s' else String c s').
  destruct (strconv.ParseUint body) as [un e] eqn:Hp.
  assert (0 <= un <= strconv.maxUint64)%Z as Hun.
  { unfold strconv.ParseUint in Hp. destruct body.
    - injection Hp as <- <-. by vm_compute.
    - eapply ParseUint_loop_range; [|exact Hp]. by vm_compute. }
  assert (int_ok
    (let cutoff := (2 ^ 63)%Z in
     if negb (Ascii.eqb c "-") && (cutoff <=? un)%Z
     then ((cutoff - 1)%Z, Some ErrRange)
     else if Ascii.eqb c "-" && (cutoff <? un)%Z
          then ((- cutoff)%Z, Some ErrRange)
          else ((if Ascii.eqb c "-" then - un else un)%Z, None)).1) as Hfin.
  { cbv zeta. unfold int_ok, strconv.MinInt, strconv.MaxInt.
    destruct (Ascii.eqb c "-"); simpl.
    - destruct (Z.ltb_spec (2 ^ 63) un); simpl; lia.
    - destruct (Z.leb_spec (2 ^ 63) un); simpl; lia. }
  destruct e as [[]|]; [done|..].
  - revert Hfin. cbv zeta. by destruct (if _ && _ then _ else _) as [n [x|]].
  - revert Hfin. cbv zeta. by destruct (if _ && _ then _ else _) as [n [x|]].
Qed.

(** The integer fields of the request stay in the range of [int]. *)
Definition ints_ok (r : Request) : Prop :=
  int_ok (Request_Draw r) ∧ int_ok (Request_Start r) ∧
  int_ok (Request_Length r).

Lemma parseKey_ints r k v r' e :
  ints_ok r → parseKey r k v = Ret (r', e) → ints_ok r'.
Proof.
  intros (Hd & Hs & Hl). unfold parseKey.
  pose proof (Atoi_int_ok v) as Hv.
  destruct (String.eqb k "draw").
  { destruct (strconv.Atoi v) as [n x]. intros [= <- <-]. unfold ints_ok. simpl in *. tauto. }
  destruct (String.eqb k "start").
  { destruct (strconv.Atoi v) as [n x]. intros [= <- <-]. unfold ints_ok. simpl in *. tauto. }
  destruct (String.eqb k "length").
  { destruct (strconv.Atoi v) as [n x]. intros [= <- <-]. unfold ints_ok. simpl in *. tauto. }
  destruct (Str.HasPrefix k "search").
  { destruct (parseSearch _ _ _) as [s x]. intros [= <- <-]. unfold ints_ok. simpl in *. tauto. }
  destruct (Str.HasPrefix k "order").
  { destruct (parseOrder _ _ _) as [[o x]|]; [|done].
    intros [= <- <-]. unfold ints_ok. simpl in *. tauto. }
  destruct (Str.HasPrefix k "column").
  { destruct (parseColumn _ _ _) as [[o x]|]; [|done].
    intros [= <- <-]. unfold ints_ok. simpl in *. tauto. }
  intros [= <- <-]. unfold ints_ok. simpl in *. tauto.
Qed.

Lemma ParseURLValues_from_ints u r r' e :
  ints_ok r → ParseURLValues_from r u = Ret (r', e) → ints_ok r'.
Proof.
  revert r. induction u as [|[k v] u IH]; intros r Hr; cbn [ParseURLValues_from].
  { by intros [= <- <-]. }
  destruct v as [|v0 vs]; [by apply IH|].
  destruct (parseKey r k v0) as [[r1 [x|]]|] eqn:Hk; [| |done].
  - intros [= <- <-]. by apply (parseKey_ints r k v0 r1 (Some x)).
  - cbn [mbind outcome_bind obind]. apply IH.
    by apply (parseKey_ints r k v0 r1 None).
Qed.

Lemma ParseURLValues_ints u r e :
  ParseURLValues u = Ret (r, e) → ints_ok r.
Proof.
  apply ParseURLValues_from_ints.
  unfold ints_ok, int_ok, strconv.MinInt, strconv.MaxInt. simpl. lia.
Qed.

Context {C Q : Type} `{!Query Q} `{!Collection C Q}.

(** A form that does not decode is answered with status 400 and no
    body, before the collection is asked anything: so is a form with a
    value that is no number for an integer field, or with a columns or
    order key whose index is no number, when the keys visited before it
    decode. *)
Theorem ServeHTTP_bad_request (ch : C) (l1 l2 : list (string * list string))
    (k v : string) (vs : list string) (r1 : Request) :
  (int_field_key k ∧ numeric v = false) ∨ bad_index_key k →
  ParseURLValues l1 = Ret (r1, None) →
  ServeHTTP ch (Some (l1 ++ (k, v :: vs) :: l2))
  = Ret (mkReply StatusBadRequest None).
Proof.
  intros Hk H1.
  assert (∃ r' e, parseKey r1 k v = Ret (r', Some e)) as (r' & e & Hp).
  { destruct Hk as [[Hk Hv]|Hk].
    - destruct (parseKey_int_field r1 k v Hk Hv) as (r' & e & Hp & _).
      by exists r', e.
    - exists r1, ErrNotEnoughFields. by apply parseKey_bad_index. }
  unfold ServeHTTP. unfold ParseURLValues in *.
  rewrite ParseURLValues_from_app, H1. cbn [ParseURLValues_from].
  by rewrite Hp.
Qed.

(** An order that names a column the request does not have makes the
    handler end in a run-time panic (an index out of range in
    SortQuery), after the counts have been asked for and before
    anything is written. *)
Theorem ServeHTTP_panics (ch : C) (u : list (string * list string))
    (r : Request) :
  ParseURLValues u = Ret (r, None) →
  Exists (λ o, ¬ column_in_range (Request_Columns r) o)
    (slice.elems (Request_Order r)) →
  ServeHTTP ch (Some u) = Panic.
Proof.
  intros Hu Hex. unfold ServeHTTP. rewrite Hu.
  cbn [mbind outcome_bind obind].
  destruct (Count _) as [filtered e1].
  destruct (CollectionCount ch) as [total e2].
  unfold SortQuery. by rewrite (sort_fields_out_of_range _ _ Hex).
Qed.

(** The documents a reply can carry as rows that are read back as they
    are: keys and values are valid UTF-8 and no key selects a field of
    rowCopy. *)
Definition doc_ok (d : gmap string string) : Prop :=
  (∀ k v, d !! k = Some v →
          utf8.ValidString k = true ∧ utf8.ValidString v = true) ∧
  (∀ k, is_Some (d !! k) → jsn.field reserved k = None).

(** The reply to a form that decodes, when the database returns no
    error: status 200 and a body that a client decodes to a Response
    with the draw counter of the request, the two counts, no error and
    one row for each document of the query, in their order, with the
    document as data. The query is the one found with the filter of the
    request, sorted by its orders, after [Start] documents and of
    [Length] documents at most. *)
Theorem ServeHTTP_ok (ch : C) (u : list (string * list string))
    (r : Request) (fs : list string) (docs : list (gmap string string))
    (nf nt : Z) :
  ParseURLValues u = Ret (r, None) →
  sort_fields (Request_Columns r) (slice.elems (Request_Order r)) = Ret fs →
  Count (Find ch (CreateFilter r)) = (nf, None) →
  CollectionCount ch = (nt, None) →
  All (Limit (Request_Length r)
         (Skip (Request_Start r) (Sort fs (Find ch (CreateFilter r)))))
  = (docs, None) →
  int_ok nf → int_ok nt → Forall doc_ok docs →
  ∃ body,
    ServeHTTP ch (Some u) = Ret (mkReply StatusOK (Some body)) ∧
    unmarshal_Response zero_Response body
    = (mkResponse (Request_Draw r) nt nf
         (Some ((λ d, mkRow d "" "" ∅ ∅) <$> docs)) "", None).
Proof.
  intros Hu Hfs Hnf Hnt Hall Hnf_ok Hnt_ok Hdocs.
  unfold ServeHTTP. rewrite Hu. cbn [mbind outcome_bind obind].
  rewrite Hnf, Hnt. unfold SortQuery. rewrite Hfs.
  cbn [mbind outcome_bind obind mret outcome_ret].
  unfold RangeQuery, ResponseData. rewrite Hall.
  eexists. split; [reflexivity|].
  apply unmarshal_Response_marshal.
  destruct (ParseURLValues_ints u r None Hu) as (Hd & _ & _).
  split; [done|]. split; [done|]. split; [done|]. split; [|done].
  cbn [Response_Data slice.elems default].
  apply Forall_fmap. eapply Forall_impl; [exact Hdocs|].
  intros d [Hv Hk]. unfold compose, row_ok, row_utf8. simpl.
  split; [split; [exact Hv|done]|]. split; [exact Hk|done].
Qed.

(** When reading the documents fails the reply has status 200 all the
    same; its body is the Response with [null] for the rows and the
    message of that error, also when the counts failed before with
    other messages. *)
Theorem ServeHTTP_database_error (ch : C) (u : list (string * list string))
    (r : Request) (fs : list string) (docs : list (gmap string string))
    (e : string) :
  ParseURLValues u = Ret (r, None) →
  sort_fields (Request_Columns r) (slice.elems (Request_Order r)) = Ret fs →
  All (Limit (Request_Length r)
         (Skip (Request_Start r) (Sort fs (Find ch (CreateFilter r)))))
  = (docs, Some e) →
  ServeHTTP ch (Some u)
  = Ret (mkReply StatusOK
           (Some (marshal_Response
                    (mkResponse (Request_Draw r) (CollectionCount ch).1
                       (Count (Find ch (CreateFilter r))).1 slice.nil e)))).
Proof.
  intros Hu Hfs Hall. unfold ServeHTTP. rewrite Hu.
  cbn [mbind outcome_bind obind].
  destruct (Count _) as [filtered e1].
  destruct (CollectionCount ch) as [total e2].
  unfold SortQuery. rewrite Hfs.
  cbn [mbind outcome_bind obind mret outcome_ret].
  unfold RangeQuery, ResponseData. by rewrite Hall.
Qed.

End handler.

Lemma ServeHTTP_bad_request_witness :
  mongo.ServeHTTP (mongo.mkCollectionMock 100 None
                     (mongo.mkQueryMock [] 0 0 []))
    (Some ([("draw", ["1"])] ++ ("start", ["abc"]) :: [("length", ["10"])]))
  = Ret (mongo.mkReply mongo.StatusBadRequest None).
Proof.
  apply (ServeHTTP_bad_request _ [("draw", ["1"])] [("length", ["10"])]
           "start" "abc" [] (set_Request_Draw 1 zero_Request)).
  - left. split; [|reflexivity]. right. by left.
  - reflexivity.
Defined.

Lemma ServeHTTP_panics_witness :
  mongo.ServeHTTP (mongo.mkCollectionMock 100 None
                     (mongo.mkQueryMock [] 0 0 []))
    (Some [("draw", ["1"]); ("order[0][column]", ["0"])])
  = Panic.
Proof.
  eapply (ServeHTTP_panics _ [("draw", ["1"]); ("order[0][column]", ["0"])]).
  - vm_compute. reflexivity.
  - apply Exists_cons_hd. unfold column_in_range. simpl.
    unfold slice.len. simpl. lia.
Defined.

Lemma ServeHTTP_ok_witness :
  let docs : list (gmap string string) :=
    [{["foo" := "1"; "bar" := "2"]}; {["foo" := "3"; "bar" := "4"]}] in
  ∃ body,
    mongo.ServeHTTP (mongo.mkCollectionMock 100 None
                       (mongo.mkQueryMock docs 0 0 []))
      (Some [("draw", ["7"])])
    = Ret (mongo.mkReply mongo.StatusOK (Some body)) ∧
    unmarshal_Response zero_Response body
    = (mkResponse 7 100 0
         (Some ((λ d, mkRow d "" "" ∅ ∅) <$> docs)) "", None).
Proof.
  intros docs.
  apply (ServeHTTP_ok (mongo.mkCollectionMock 100 None
                         (mongo.mkQueryMock docs 0 0 []))
           [("draw", ["7"])] (set_Request_Draw 7 zero_Request) [] docs
           0 100); try reflexivity.
  - unfold int_ok, strconv.MinInt, strconv.MaxInt. simpl. lia.
  - unfold int_ok, strconv.MinInt, strconv.MaxInt. simpl. lia.
  - assert (∀ a b, utf8.ValidString a = true → utf8.ValidString b = true →
              doc_ok {["foo" := a; "bar" := b]}) as Hdoc.
    { intros a b Ha Hb. split.
      - intros k v Hk.
        apply lookup_insert_Some in Hk as [[<- <-]|[_ Hk]]; [done|].
        by apply lookup_singleton_Some in Hk as [<- <-].
      - intros k [v Hk].
        apply lookup_insert_Some in Hk as [[<- _]|[_ Hk]]; [done|].
        by apply lookup_singleton_Some in Hk as [<- _]. }
    constructor; [by apply Hdoc|]. constructor; [by apply Hdoc|].
    constructor.
Defined.

Lemma ServeHTTP_database_error_witness :
  let e := "no reachable servers" in
  let failing : mongo.Query unit :=
    {| mongo.All _ := ([], Some e); mongo.Count _ := (0%Z, None);
       mongo.Limit _ q := q; mongo.Skip _ q := q; mongo.Sort _ q := q |} in
  let coll : mongo.Collection unit unit :=
    {| mongo.CollectionCount _ := (3%Z, None); mongo.Find _ _ := tt |} in
  mongo.ServeHTTP tt (Some [("draw", ["7"])])
  = Ret (mongo.mkReply mongo.StatusOK
           (Some (marshal_Response (mkResponse 7 3 0 slice.nil e)))).
Proof.
  intros e failing coll.
  apply (@ServeHTTP_database_error unit unit failing coll tt
           [("draw", ["7"])] (set_Request_Draw 7 zero_Request) [] [] e);
    reflexivity.
Defined.
